(** * Fountain line classification and dual-dialogue block assembly

    A shallow embedding of the screenplay classifier and of the two block
    assemblers of the plugin:

    - [src/fountain-preview.ts]: [parseFountain], [fountainToHTML],
      [collectDialogueBlock], [renderLine], [escapeHtml] (static preview);
    - the editor extension with the dual-dialogue widget
      ([buildDecorations], with its [isDualProcessed] marking).

    Strings are lists of code units.  The model keeps the code units below
    256 (type [ascii], read as Latin-1), which contains every character the
    patterns of the source mention. *)

From Stdlib Require Import Ascii String Lia Bool NArith Sorted Permutation.
From stdpp Require Import base list strings.

Local Open Scope char_scope.
Local Open Scope list_scope.

(** ** Characters and strings *)

Module Chars.

Definition jstr := list ascii.

Definition str (s : string) : jstr := list_ascii_of_string s.

Definition code (c : ascii) : N := N_of_ascii c.

Definition in_range (lo hi : N) (c : ascii) : bool :=
  (N.leb lo (code c) && N.leb (code c) hi)%bool.

(** [\s] of a JavaScript pattern, also the set [trim] strips: TAB, LF, VT,
    FF, CR, SPACE and the no-break space (the members below 256). *)
Definition isSpace (c : ascii) : bool :=
  (in_range 9 13 c || N.eqb (code c) 32 || N.eqb (code c) 160)%bool.

(** Line terminators, which [.] never matches. *)
Definition isLineTerminator (c : ascii) : bool :=
  (N.eqb (code c) 10 || N.eqb (code c) 13)%bool.

Definition isUpper (c : ascii) : bool := in_range 65 90 c.
Definition isLower (c : ascii) : bool := in_range 97 122 c.
Definition isDigit (c : ascii) : bool := in_range 48 57 c.

(** Canonicalisation of a pattern with the [i] flag: a code unit is compared
    through its upper-case form; a unit from 128 on never folds onto an ASCII
    one, and the patterns only name ASCII characters. *)
Definition canonicalize (c : ascii) : ascii :=
  if isLower c then ascii_of_N (code c - 32) else c.

Fixpoint trimStart (s : jstr) : jstr :=
  match s with
  | c :: s' => if isSpace c then trimStart s' else s
  | [] => []
  end.

Definition trimEnd (s : jstr) : jstr := rev (trimStart (rev s)).

(** [String.prototype.trim] *)
Definition trim (s : jstr) : jstr := trimEnd (trimStart s).

Fixpoint startsWith (s p : jstr) {struct p} : bool :=
  match p, s with
  | [], _ => true
  | a :: p', b :: s' => (Ascii.eqb a b && startsWith s' p')%bool
  | _ :: _, [] => false
  end.

(** [String.prototype.endsWith] *)
Definition endsWith (s p : jstr) : bool := startsWith (rev s) (rev p).

(** [text.split('\n')]: never the empty array. *)
Fixpoint split_lines (s : jstr) : list jstr :=
  match s with
  | [] => [[]]
  | c :: s' =>
      if Ascii.eqb c "010" then [] :: split_lines s'
      else match split_lines s' with
           | l :: ls => (c :: l) :: ls
           | [] => [[c]]
           end
  end.

(** [Array.prototype.join] *)
Fixpoint join (sep : jstr) (parts : list jstr) : jstr :=
  match parts with
  | [] => []
  | [p] => p
  | p :: ps => p ++ sep ++ join sep ps
  end.

End Chars.
Export Chars.

(** ** Regular expressions

    The patterns of the source use literals, classes, [.], sequencing,
    alternation, [*], [+], [?] and bounded repetition, without back
    references or look-around: [RegExp.prototype.test] is membership in the
    language of the pattern.  Matching is by derivatives. *)

Module Regex.

Inductive regex : Type :=
| Void : regex
| Eps : regex
| Chr : (ascii -> bool) -> regex
| Seq : regex -> regex -> regex
| Alt : regex -> regex -> regex
| Star : regex -> regex.

Definition Plus (r : regex) : regex := Seq r (Star r).
Definition Opt (r : regex) : regex := Alt r Eps.
Definition Lit (s : jstr) : regex :=
  fold_right (fun c r => Seq (Chr (Ascii.eqb c)) r) Eps s.
Definition Alts (rs : list regex) : regex := fold_right Alt Void rs.

(** [r{1,n+1}] *)
Fixpoint UpTo (n : nat) (r : regex) : regex :=
  match n with
  | O => r
  | S n' => Seq r (Opt (UpTo n' r))
  end.

Definition dot : regex := Chr (fun c => negb (isLineTerminator c)).
Definition space : regex := Chr isSpace.
Definition anychar : regex := Chr (fun _ => true).
Definition notChr (a : ascii) : regex := Chr (fun c => negb (Ascii.eqb a c)).

Fixpoint nullable (r : regex) : bool :=
  match r with
  | Void => false
  | Eps => true
  | Chr _ => false
  | Seq r1 r2 => nullable r1 && nullable r2
  | Alt r1 r2 => nullable r1 || nullable r2
  | Star _ => true
  end.

Fixpoint deriv (c : ascii) (r : regex) : regex :=
  match r with
  | Void => Void
  | Eps => Void
  | Chr p => if p c then Eps else Void
  | Seq r1 r2 =>
      if nullable r1 then Alt (Seq (deriv c r1) r2) (deriv c r2)
      else Seq (deriv c r1) r2
  | Alt r1 r2 => Alt (deriv c r1) (deriv c r2)
  | Star r1 => Seq (deriv c r1) (Star r1)
  end.

Fixpoint matchb (r : regex) (s : jstr) : bool :=
  match s with
  | [] => nullable r
  | c :: s' => matchb (deriv c r) s'
  end.

(** The language of a pattern. *)
Inductive matches : regex -> jstr -> Prop :=
| MEps : matches Eps []
| MChr p c : p c = true -> matches (Chr p) [c]
| MSeq r1 r2 s1 s2 :
    matches r1 s1 -> matches r2 s2 -> matches (Seq r1 r2) (s1 ++ s2)
| MAltL r1 r2 s : matches r1 s -> matches (Alt r1 r2) s
| MAltR r1 r2 s : matches r2 s -> matches (Alt r1 r2) s
| MStar0 r : matches (Star r) []
| MStarS r s1 s2 :
    matches r s1 -> matches (Star r) s2 -> matches (Star r) (s1 ++ s2).

(** [/^r$/.test(s)] *)
Definition test_whole (r : regex) (s : jstr) : bool := matchb r s.

(** [/^r/.test(s)]: some prefix of [s] is in the language of [r]. *)
Definition test_prefix (r : regex) (s : jstr) : bool :=
  matchb (Seq r (Star anychar)) s.

End Regex.
Export Regex.

(** Replacement of the first match by the empty string, for the two shapes
    the source uses.  [replace_prefix r] is [s.replace(/^r/, '')] for a
    pattern whose greedy match is its longest one; [replace_suffix r] is
    [s.replace(/r$/, '')]: the leftmost position from which the rest of the
    string is in the language of [r]. *)

Module Replace.

Fixpoint longest_match (r : regex) (s : jstr) : option nat :=
  match s with
  | [] => if nullable r then Some 0 else None
  | c :: s' =>
      match longest_match (deriv c r) s' with
      | Some n => Some (S n)
      | None => if nullable r then Some 0 else None
      end
  end.

Definition replace_prefix (r : regex) (s : jstr) : jstr :=
  match longest_match r s with
  | Some n => drop n s
  | None => s
  end.

Fixpoint replace_suffix (r : regex) (s : jstr) : jstr :=
  if matchb r s then []
  else match s with
       | [] => []
       | c :: s' => c :: replace_suffix r s'
       end.

(** [s.replace(/c/g, by)] for a single character [c]. *)
Definition replaceAll (c : ascii) (by_ : jstr) (s : jstr) : jstr :=
  flat_map (fun x => if Ascii.eqb x c then by_ else [x]) s.

End Replace.
Export Replace.

(** ** The patterns of [regexPatterns] *)

Module Patterns.

Definition sceneHeading_prefixes : regex :=
  Alts [Lit (str "INT."); Lit (str "EXT."); Lit (str "EST.");
        Lit (str "INT/EXT."); Lit (str "I/E."); Lit (str "I/X.")].

(** [/^(?:INT\.|EXT\.|EST\.|INT\/EXT\.|I\/E\.|I\/X\.).*|^\.[^.].*$/i]: the
    first alternative is not anchored at the end. *)
Definition sceneHeading (s : jstr) : bool :=
  let s' := map canonicalize s in
  test_prefix (Seq sceneHeading_prefixes (Star dot)) s'
  || test_whole (Seq (Lit (str ".")) (Seq (notChr ".") (Star dot))) s'.

Definition transition_re : regex :=
  Alts [Seq (Plus (Chr (fun c => isUpper c || isSpace c))) (Lit (str "TO:"));
        Lit (str "FADE TO BLACK.");
        Lit (str "FADE OUT.");
        Lit (str "CUT TO BLACK.");
        Seq (Lit (str ">")) (Seq (Star dot) (notChr "<"))].

(** [/^(?:[A-Z\s]+TO:|FADE TO BLACK\.|FADE OUT\.|CUT TO BLACK\.|>.*[^<])$/i] *)
Definition transition (s : jstr) : bool :=
  test_whole transition_re (map canonicalize s).

Definition centered_re : regex :=
  Seq (Lit (str ">"))
      (Seq (Star space) (Seq (Star dot) (Seq (Star space) (Lit (str "<"))))).

(** [/^>\s*.*\s*<$/] *)
Definition centered (s : jstr) : bool := test_whole centered_re s.

Definition character_re : regex :=
  Seq (Star space)
      (Seq (Plus (Chr (fun c => isUpper c || isDigit c || isSpace c)))
           (Seq (Opt (Seq (Lit (str " ("))
                          (Seq (Plus (notChr ")")) (Lit (str ")")))))
                (Seq (Star space) (Opt (Lit (str "^")))))).

(** [/^[\s]*[A-Z0-9\s]+(?: \([^)]+\))?\s*(?:\^)?$/] *)
Definition character (s : jstr) : bool := test_whole character_re s.

Definition parenthetical_re : regex :=
  Seq (Star space)
      (Seq (Lit (str "("))
           (Seq (Plus (notChr ")")) (Seq (Lit (str ")")) (Star space)))).

(** [/^\s*\([^)]+\)\s*$/] *)
Definition parenthetical (s : jstr) : bool := test_whole parenthetical_re s.

(** [/^#{1,6}\s/] *)
Definition sectionHeading (s : jstr) : bool :=
  test_prefix (Seq (UpTo 5 (Lit (str "#"))) space) s.

(** The length of the group of [trimmed.match(/^(#+)/)]. *)
Fixpoint leadingHashes (s : jstr) : nat :=
  match s with
  | c :: s' => if Ascii.eqb c "#" then S (leadingHashes s') else 0
  | [] => 0
  end.

(** [/^>\s*/], [/\s*<$/], [/^#+\s*/] and [/\s*\^\s*$/] of the renderer. *)
Definition leadingGt_re : regex := Seq (Lit (str ">")) (Star space).
Definition trailingLt_re : regex := Seq (Star space) (Lit (str "<")).
Definition leadingHashes_re : regex :=
  Seq (Plus (Chr (Ascii.eqb "#"))) (Star space).
Definition trailingCaret_re : regex :=
  Seq (Star space) (Seq (Lit (str "^")) (Star space)).

End Patterns.

(** ** Line types, shared by the two classifiers

    The source tags a line with a string; [type_name] gives it back. *)

Inductive LineType : Type :=
| Empty
| DialogueBlank
| SceneHeading
| Centered
| SectionHeading (level : nat)
| Transition
| Character
| Parenthetical
| Dialogue
| Action.

#[global] Instance LineType_eq_dec : EqDecision LineType.
Proof. solve_decision. Defined.

Definition digit (n : nat) : ascii := ascii_of_nat (48 + n).

Definition type_name (t : LineType) : jstr :=
  match t with
  | Empty => str "empty"
  | DialogueBlank => str "dialogue-blank"
  | SceneHeading => str "scene-heading"
  | Centered => str "centered"
  | SectionHeading level => str "section-heading-" ++ [digit level]
  | Transition => str "transition"
  | Character => str "character"
  | Parenthetical => str "parenthetical"
  | Dialogue => str "dialogue"
  | Action => str "action"
  end.

Definition isType (t u : LineType) : bool := bool_decide (t = u).

(** The [lastLineWas...] variables of both classifiers. *)
Record State : Type := mkState {
  lastLineWasCharacter : bool;
  lastLineWasParenthetical : bool;
  lastLineWasDialogue : bool;
  lastLineWasEmpty : bool
}.

Definition initialState : State := mkState false false false true.

Definition inDialogueContext (st : State) : bool :=
  lastLineWasCharacter st || lastLineWasParenthetical st
  || lastLineWasDialogue st.

Definition isEmptyStr (s : jstr) : bool :=
  match s with [] => true | _ => false end.

(** ** The static preview: [src/fountain-preview.ts] *)

Module Preview.
Import Patterns.

Record FountainLine : Type := mkLine {
  type : LineType;
  text : jstr;
  rawText : jstr
}.

(** The body of the [for] loop of [parseFountain]: the state after the line
    and the record pushed for it. *)
Definition parseLine (st : State) (rawLine : jstr) : State * FountainLine :=
  let trimmed := trim rawLine in
  if isEmptyStr trimmed then
    let isWhitespaceOnly := Nat.ltb 0 (length rawLine) in
    if isWhitespaceOnly && inDialogueContext st
    then (st, mkLine DialogueBlank [] rawLine)
    else (mkState false false false true, mkLine Empty [] rawLine)
  else
    let '(ty, c, p, d) :=
      if sceneHeading trimmed then (SceneHeading, false, false, false)
      else if centered trimmed then (Centered, false, false, false)
      else if sectionHeading trimmed then
        (SectionHeading (Nat.min (leadingHashes trimmed) 3),
         false, false, false)
      else if transition trimmed then (Transition, false, false, false)
      else if lastLineWasEmpty st && character rawLine
              && negb (sceneHeading trimmed) && negb (transition trimmed)
      then (Character, true, false, false)
      else if inDialogueContext st && character rawLine
              && endsWith trimmed (str "^")
              && negb (sceneHeading trimmed) && negb (transition trimmed)
      then (Character, true, false, false)
      else if inDialogueContext st && parenthetical trimmed
      then (Parenthetical, false, true, false)
      else if inDialogueContext st then (Dialogue, false, false, true)
      else (Action, false, false, false)
    in (mkState c p d false, mkLine ty trimmed rawLine).

Fixpoint parseLines (st : State) (rawLines : list jstr)
  : list FountainLine :=
  match rawLines with
  | [] => []
  | rawLine :: rest =>
      let '(st', line) := parseLine st rawLine in
      line :: parseLines st' rest
  end.

Definition parseFountain (txt : jstr) : list FountainLine :=
  parseLines initialState (split_lines txt).

Definition continuesBlock (t : LineType) : bool :=
  isType t Dialogue || isType t Parenthetical || isType t DialogueBlank.

(** The [while] loop of [collectDialogueBlock]; [rest] is [lines] from
    index [j] on. *)
Fixpoint collectFrom (rest : list FountainLine) (block : list FountainLine)
  : list FountainLine :=
  match rest with
  | l :: rest' =>
      if continuesBlock (type l) then collectFrom rest' (block ++ [l])
      else block
  | [] => block
  end.

Definition collectDialogueBlock (lines : list FountainLine) (startIdx : nat)
  : list FountainLine :=
  match lines !! startIdx with
  | Some l =>
      if isType (type l) Character
      then collectFrom (drop (S startIdx) lines) [l]
      else []
  | None => []
  end.

Definition quote : ascii := "034".

Definition escapeHtml (t : jstr) : jstr :=
  replaceAll quote (str "&quot;")
    (replaceAll ">" (str "&gt;")
       (replaceAll "<" (str "&lt;")
          (replaceAll "&" (str "&amp;") t))).

Definition isSectionHeading (t : LineType) : bool :=
  match t with SectionHeading _ => true | _ => false end.

(** The text [renderLine] displays, before escaping. *)
Definition displaySource (line : FountainLine) : jstr :=
  if isType (type line) Centered then
    replace_suffix trailingLt_re (replace_prefix leadingGt_re (text line))
  else if isType (type line) Transition then
    replace_prefix leadingGt_re (text line)
  else if isSectionHeading (type line) then
    replace_prefix leadingHashes_re (text line)
  else text line.

Definition emptyDiv : jstr :=
  str "<div class=" ++ [quote] ++ str "fountain-empty" ++ [quote]
  ++ str ">&nbsp;</div>".

Definition renderLine (line : FountainLine) : jstr :=
  if isType (type line) Empty || isType (type line) DialogueBlank
  then emptyDiv
  else
    let displayText := escapeHtml (displaySource line) in
    str "<div class=" ++ [quote] ++ str "fountain-line fountain-"
    ++ type_name (type line) ++ [quote] ++ str ">"
    ++ displayText ++ str "</div>".

(** The right column: the caret of the character cue is not displayed. *)
Definition renderRight (dl : FountainLine) : jstr :=
  if isType (type dl) Character
  then renderLine (mkLine (type dl)
                          (replace_suffix trailingCaret_re (text dl))
                          (rawText dl))
  else renderLine dl.

Definition dualOpen : jstr :=
  str "<div class=" ++ [quote] ++ str "fountain-dual-dialogue" ++ [quote]
  ++ str ">".
Definition colOpen : jstr :=
  str "<div class=" ++ [quote] ++ str "fountain-dual-col" ++ [quote]
  ++ str ">".
Definition divClose : jstr := str "</div>".

(** The loop that skips empty lines; [rest] is [lines] from [cursor] on. *)
Fixpoint skipEmpty (rest : list FountainLine) (cursor : nat) : nat :=
  match rest with
  | l :: rest' =>
      if isType (type l) Empty then skipEmpty rest' (S cursor) else cursor
  | [] => cursor
  end.

(** The index of the cue that pairs with the block starting at [i], when
    line [i] opens a dual dialogue. *)
Definition dualCursor (lines : list FountainLine) (i : nat) : option nat :=
  match lines !! i with
  | Some line =>
      if isType (type line) Character then
        let leftBlock := collectDialogueBlock lines i in
        let afterLeft := i + length leftBlock in
        let cursor := skipEmpty (drop afterLeft lines) afterLeft in
        match lines !! cursor with
        | Some c =>
            if isType (type c) Character && endsWith (text c) (str "^")
            then Some cursor else None
        | None => None
        end
      else None
  | None => None
  end.

(** The main loop of [fountainToHTML]: [None] when the fuel runs out. *)
Fixpoint fountainToHTML_loop (fuel : nat) (lines : list FountainLine)
  (i : nat) (htmlParts : list jstr) {struct fuel} : option (list jstr) :=
  match lines !! i with
  | None => Some htmlParts
  | Some line =>
      match fuel with
      | O => None
      | S fuel' =>
          match dualCursor lines i with
          | Some cursor =>
              let leftBlock := collectDialogueBlock lines i in
              let rightBlock := collectDialogueBlock lines cursor in
              fountainToHTML_loop fuel' lines (cursor + length rightBlock)
                (htmlParts ++ [dualOpen]
                 ++ [colOpen] ++ map renderLine leftBlock ++ [divClose]
                 ++ [colOpen] ++ map renderRight rightBlock ++ [divClose]
                 ++ [divClose])
          | None =>
              fountainToHTML_loop fuel' lines (S i)
                (htmlParts ++ [renderLine line])
          end
      end
  end.

Definition fountainToHTML (lines : list FountainLine) : option jstr :=
  option_map (join (str (String "010" EmptyString)))
    (fountainToHTML_loop (length lines) lines 0 []).

(** The render tree the loop walks through: a node per iteration, with the
    line indices [from, to) it steps over. *)
Inductive RenderNode : Type :=
| SingleLine (idx : nat) (line : FountainLine)
| DualBlock (from to : nat) (leftLines rightLines : list FountainLine).

Fixpoint assemble_loop (fuel : nat) (lines : list FountainLine)
  (i : nat) (nodes : list RenderNode) {struct fuel}
  : option (list RenderNode) :=
  match lines !! i with
  | None => Some nodes
  | Some line =>
      match fuel with
      | O => None
      | S fuel' =>
          match dualCursor lines i with
          | Some cursor =>
              let leftBlock := collectDialogueBlock lines i in
              let rightBlock := collectDialogueBlock lines cursor in
              assemble_loop fuel' lines (cursor + length rightBlock)
                (nodes ++ [DualBlock i (cursor + length rightBlock)
                                     leftBlock rightBlock])
          | None =>
              assemble_loop fuel' lines (S i) (nodes ++ [SingleLine i line])
          end
      end
  end.

Definition assemble (lines : list FountainLine) : option (list RenderNode) :=
  assemble_loop (length lines) lines 0 [].

(** What the loop pushes for a node. *)
Definition renderNode (n : RenderNode) : list jstr :=
  match n with
  | SingleLine _ line => [renderLine line]
  | DualBlock _ _ leftBlock rightBlock =>
      [dualOpen] ++ [colOpen] ++ map renderLine leftBlock ++ [divClose]
      ++ [colOpen] ++ map renderRight rightBlock ++ [divClose] ++ [divClose]
  end.

(** The lines a node shows, in order. *)
Definition nodeLines (n : RenderNode) : list FountainLine :=
  match n with
  | SingleLine _ line => [line]
  | DualBlock _ _ leftBlock rightBlock => leftBlock ++ rightBlock
  end.

Definition nodeFrom (n : RenderNode) : nat :=
  match n with SingleLine idx _ => idx | DualBlock from _ _ _ => from end.

Definition nodeTo (n : RenderNode) : nat :=
  match n with SingleLine idx _ => S idx | DualBlock _ to _ _ => to end.

End Preview.

(** ** The editor extension with the dual-dialogue widget

    [buildDecorations] classifies the lines of the editor's document, then
    walks the classified lines again to pair dual-dialogue groups, marking
    the lines it folds into a block with [isDualProcessed].  The document
    is the list of its lines; positions count one unit per line break. *)

Module Editor.
Import Patterns.

Record LineDeco : Type := mkDeco {
  lineNum : nat;
  from : nat;
  to : nat;
  type : LineType;
  text : jstr;
  isDualProcessed : bool
}.

(** The body of the first [while] loop, without the positions. *)
Definition classifyLine (st : State) (txt : jstr) : State * LineType :=
  let trimmed := trim txt in
  if isEmptyStr trimmed then (mkState false false false true, Empty)
  else
    let '(ty, c, p, d) :=
      if sceneHeading trimmed then (SceneHeading, false, false, false)
      else if centered trimmed then (Centered, false, false, false)
      else if transition trimmed then (Transition, false, false, false)
      else if lastLineWasEmpty st && character txt
              && negb (sceneHeading trimmed) && negb (transition trimmed)
      then (Character, true, false, false)
      else if inDialogueContext st && parenthetical trimmed
      then (Parenthetical, false, true, false)
      else if inDialogueContext st then (Dialogue, false, false, true)
      else (Action, false, false, false)
    in (mkState c p d false, ty).

(** The first loop: [i] is the line number, [pos] the position [line.from]
    of the line. *)
Fixpoint classifyDoc (st : State) (i pos : nat) (doc : list jstr)
  : list LineDeco :=
  match doc with
  | [] => []
  | txt :: rest =>
      let '(st', ty) := classifyLine st txt in
      mkDeco i pos (pos + length txt) ty (trim txt) false
      :: classifyDoc st' (S i) (pos + length txt + 1) rest
  end.

Definition classify (doc : list jstr) : list LineDeco :=
  classifyDoc initialState 1 0 doc.

(** A block to replace.  The groups hold the records of [decos] themselves:
    a reference is the index of the record in [decos]. *)
Record Block : Type := mkBlock {
  blockFrom : nat;
  blockTo : nat;
  leftBlock : list nat;
  rightBlock : list nat
}.

Definition isSpeech (t : LineType) : bool :=
  isType t Dialogue || isType t Parenthetical.

Definition typeAt (decos : list LineDeco) (i : nat) : option LineType :=
  type <$> decos !! i.

(** The loop that gathers the right group; [rest] is [decos] from [k] on. *)
Fixpoint gatherRight (rest : list LineDeco) (k : nat) (rightGroup : list nat)
  : list nat :=
  match rest with
  | d :: rest' =>
      if isSpeech (type d) then gatherRight rest' (S k) (rightGroup ++ [k])
      else if isType (type d) Empty
              && match rest' with
                 | d' :: _ => isSpeech (type d')
                 | [] => false
                 end
      then gatherRight rest' (S k) (rightGroup ++ [k])
      else rightGroup
  | [] => rightGroup
  end.

(** The loop over the empty lines before the marker; [n] is [findLeft + 1],
    so that [0] stands for [findLeft = -1].  Returns the final [n]. *)
Fixpoint gatherMiddle (decos : list LineDeco) (n : nat)
  (emptyMiddleGroup : list nat) : nat * list nat :=
  match n with
  | O => (O, emptyMiddleGroup)
  | S findLeft =>
      match typeAt decos findLeft with
      | Some t =>
          if isType t Empty
          then gatherMiddle decos findLeft (findLeft :: emptyMiddleGroup)
          else (n, emptyMiddleGroup)
      | None => (n, emptyMiddleGroup)
      end
  end.

(** The loop that gathers the left group, with the same [n]. *)
Fixpoint gatherLeft (decos : list LineDeco) (n : nat) (leftGroup : list nat)
  : list nat :=
  match n with
  | O => leftGroup
  | S findLeft =>
      match typeAt decos findLeft with
      | Some t =>
          if isSpeech t then gatherLeft decos findLeft (findLeft :: leftGroup)
          else if isType t Character then findLeft :: leftGroup
          else if isType t Empty
                  && match findLeft with
                     | S p =>
                         match typeAt decos p with
                         | Some t' => isSpeech t' || isType t' Character
                         | None => false
                         end
                     | O => false
                     end
          then gatherLeft decos findLeft (findLeft :: leftGroup)
          else leftGroup
      | None => leftGroup
      end
  end.

Definition setProcessed (d : LineDeco) : LineDeco :=
  mkDeco (lineNum d) (from d) (to d) (type d) (text d) true.

(** [group.forEach(item => item.isDualProcessed = true)] *)
Definition markAll (group : list nat) (decos : list LineDeco)
  : list LineDeco :=
  fold_left (fun ds i => alter setProcessed i ds) group decos.

Definition isMarker (d : LineDeco) : bool :=
  isType (type d) Character && endsWith (text d) (str "^")
  && negb (isDualProcessed d).

(** The pairing attempt for the marker at [j]: the groups, and the block
    when the left group starts with a character. *)
Definition pairAt (decos : list LineDeco) (j : nat)
  : option (Block * list nat) :=
  let rightGroup := gatherRight (drop (S j) decos) (S j) [j] in
  let '(n, emptyMiddleGroup) := gatherMiddle decos j [] in
  let leftGroup := gatherLeft decos n [] in
  match leftGroup with
  | first :: _ =>
      match decos !! first, decos !! (List.last rightGroup j) with
      | Some d0, Some dl =>
          if isType (type d0) Character
          then Some (mkBlock (from d0) (to dl) leftGroup rightGroup,
                     emptyMiddleGroup)
          else None
      | _, _ => None
      end
  | [] => None
  end.

(** The body of the second loop. *)
Definition dualStep (acc : list LineDeco * list Block) (j : nat)
  : list LineDeco * list Block :=
  let '(decos, blocksToReplace) := acc in
  match decos !! j with
  | Some deco =>
      if isMarker deco then
        match pairAt decos j with
        | Some (b, emptyMiddleGroup) =>
            (markAll (rightBlock b)
               (markAll emptyMiddleGroup (markAll (leftBlock b) decos)),
             blocksToReplace ++ [b])
        | None => acc
        end
      else acc
  | None => acc
  end.

Definition dualPass (decos : list LineDeco) : list LineDeco * list Block :=
  fold_left dualStep (seq 0 (length decos)) (decos, []).

(** The widget of a block: the type and the text of the lines of its two
    columns. *)
Record DualDialogueWidget : Type := mkWidget {
  leftLines : list (LineType * jstr);
  rightLines : list (LineType * jstr)
}.

(** The decorations handed to the editor: [Decoration.replace] with its
    widget over a range, [Decoration.line] with its class at a position. *)
Inductive Decoration : Type :=
| Replace (rfrom rto : nat) (widget : DualDialogueWidget)
| Line (at_ : nat) (cls : jstr).

Definition widgetLines (decos : list LineDeco) (group : list nat)
  : list (LineType * jstr) :=
  omap (fun i =>
          match decos !! i with
          | Some d =>
              if isType (type d) Empty then None else Some (type d, text d)
          | None => None
          end) group.

Definition lineDecorations (decos : list LineDeco) : list Decoration :=
  omap (fun d =>
          if isDualProcessed d then None
          else if isType (type d) Empty then None
          else Some (Line (from d) (str "fountain-" ++ type_name (type d))))
       decos.

Definition decoFrom (d : Decoration) : nat :=
  match d with Replace f _ _ => f | Line f _ => f end.

(** [builder.sort((a, b) => a.from - b.from)], a stable sort. *)
Fixpoint insertByFrom (d : Decoration) (ds : list Decoration)
  : list Decoration :=
  match ds with
  | [] => [d]
  | e :: ds' =>
      if Nat.ltb (decoFrom d) (decoFrom e) then d :: ds
      else e :: insertByFrom d ds'
  end.

Definition sortByFrom (ds : list Decoration) : list Decoration :=
  fold_left (fun acc d => insertByFrom d acc) ds [].

Definition buildDecorations (doc : list jstr) : list Decoration :=
  let '(decos, blocksToReplace) := dualPass (classify doc) in
  sortByFrom
    (map (fun b => Replace (blockFrom b) (blockTo b)
                     (mkWidget (widgetLines decos (leftBlock b))
                               (widgetLines decos (rightBlock b))))
         blocksToReplace
     ++ lineDecorations decos).

End Editor.

(** ** Shapes named by the specification *)

Module Shapes.

(** The shape of a transition, in words: letters and white space followed
    by [TO:], or one of three fixed lines, or a line that starts with [>]
    and goes on with at least one more character, the last of which is not
    [<].  Letters are compared without regard to case: [u] is the line in
    capitals. *)
Definition TransitionShape (s : jstr) : Prop :=
  let u := map canonicalize s in
  (exists p, p <> []
             /\ forallb (fun c => isUpper c || isSpace c) p = true
             /\ u = p ++ str "TO:")
  \/ u = str "FADE TO BLACK."
  \/ u = str "FADE OUT."
  \/ u = str "CUT TO BLACK."
  \/ (exists m c, s = ">" :: m ++ [c]
                  /\ forallb (fun x => negb (isLineTerminator x)) m = true
                  /\ c <> "<").

(** The characters that open or close markup. *)
Definition isMarkup (c : ascii) : bool :=
  Ascii.eqb c "<" || Ascii.eqb c ">" || Ascii.eqb c "034".

(** The entity [escapeHtml] writes for a character, or the character. *)
Definition escapeChar (c : ascii) : jstr :=
  if Ascii.eqb c "&" then str "&amp;"
  else if Ascii.eqb c "<" then str "&lt;"
  else if Ascii.eqb c ">" then str "&gt;"
  else if Ascii.eqb c "034" then str "&quot;"
  else [c].

End Shapes.

(** ** The partition of the lines by the render tree *)

Module Partition.
Import Preview.

Definition isEmptyLine (l : FountainLine) : Prop := type l = Empty.

Definition continues (l : FountainLine) : Prop :=
  continuesBlock (type l) = true.

(** A group of a dual block: a cue and the lines that continue it. *)
Definition isGroup (marker : bool) (g : list FountainLine) : Prop :=
  exists c rest,
    g = c :: rest /\ type c = Character
    /\ (marker = true -> endsWith (text c) (str "^") = true)
    /\ Forall continues rest.

(** What a node stands for: a single node is the line at its index; a
    dual block steps over its left group, a gap of [Empty] lines that it
    does not hold, and its right group. *)
Definition covers (lines : list FountainLine) (n : RenderNode) : Prop :=
  match n with
  | SingleLine idx line => lines !! idx = Some line
  | DualBlock from to leftLines rightLines =>
      exists gap,
        take (to - from) (drop from lines) = leftLines ++ gap ++ rightLines
        /\ to = from + length (leftLines ++ gap ++ rightLines)
        /\ Forall isEmptyLine gap
        /\ isGroup false leftLines /\ isGroup true rightLines
  end.

(** The nodes step over the lines from index [i] to the end, one after the
    other, each starting where the one before stopped. *)
Fixpoint tiled (lines : list FountainLine) (i : nat)
  (nodes : list RenderNode) : Prop :=
  match nodes with
  | [] => i = length lines
  | n :: rest =>
      nodeFrom n = i /\ nodeFrom n < nodeTo n /\ covers lines n
      /\ tiled lines (nodeTo n) rest
  end.

(** The line of index [k] is one of those a node steps over. *)
Definition inRange (k : nat) (n : RenderNode) : Prop :=
  nodeFrom n <= k < nodeTo n.

Definition notEmptyLine (l : FountainLine) : bool :=
  negb (isType (type l) Empty).

(** The parts of the fragment that wrap a dual dialogue and its columns. *)
Definition isWrapper (p : jstr) : bool :=
  bool_decide (p = dualOpen) || bool_decide (p = colOpen)
  || bool_decide (p = divClose).

(** The text displayed for a line, in the right column of a dual dialogue
    ([right]) or anywhere else: in the right column a cue is displayed
    without its caret. *)
Definition shownText (right : bool) (l : FountainLine) : jstr :=
  if right && isType (type l) Character
  then replace_suffix Patterns.trailingCaret_re (text l)
  else displaySource l.

(** The [div] of a line in the fragment: the placeholder for a blank line,
    and otherwise the class of the type around the displayed text with
    its entities. *)
Definition lineDiv (right : bool) (l : FountainLine) : jstr :=
  if isType (type l) Empty || isType (type l) DialogueBlank then emptyDiv
  else
    str "<div class=" ++ [quote] ++ str "fountain-line fountain-"
    ++ type_name (type l) ++ [quote] ++ str ">"
    ++ flat_map Shapes.escapeChar (shownText right l) ++ str "</div>".

(** The lines a node shows, each with the column it is shown in. *)
Definition nodeShown (n : RenderNode) : list (bool * FountainLine) :=
  match n with
  | SingleLine _ line => [(false, line)]
  | DualBlock _ _ leftBlock rightBlock =>
      map (pair false) leftBlock ++ map (pair true) rightBlock
  end.

End Partition.

(** ** The blocks of the editor *)

Module EditorSpec.
Import Editor.

Definition textAt (decos : list LineDeco) (i : nat) : option jstr :=
  text <$> decos !! i.

Definition flagAt (decos : list LineDeco) (i : nat) : option bool :=
  isDualProcessed <$> decos !! i.

(** The types of the lines a block is made of. *)
Definition inBlockType (t : LineType) : bool :=
  isSpeech t || isType t Character || isType t Empty.

(** The types that stop the search for a group. *)
Definition breaksBlock (t : LineType) : bool :=
  match t with
  | SceneHeading | Transition | Centered | Action | SectionHeading _ => true
  | _ => false
  end.

(** A block over [decos]: the left group is the lines [first .. first+nl],
    the right group the lines [j .. j+nr], with empty lines in between. *)
Definition wellFormedBlock (decos : list LineDeco) (b : Block) : Prop :=
  exists first nl j nr,
    leftBlock b = seq first (S nl)
    /\ rightBlock b = seq j (S nr)
    /\ first + nl < j
    /\ typeAt decos first = Some Character
    /\ typeAt decos j = Some Character
    /\ (exists t, textAt decos j = Some t /\ endsWith t (str "^") = true)
    /\ (forall k, first + nl < k < j -> typeAt decos k = Some Empty)
    /\ (forall k, first <= k <= j + nr ->
                  exists t, typeAt decos k = Some t /\ inBlockType t = true).

(** The lines that get a decoration of their own, and the decoration. *)
Definition decorated (d : LineDeco) : bool :=
  negb (isDualProcessed d) && negb (isType (type d) Empty).

Definition lineClass (d : LineDeco) : Decoration :=
  Line (from d) (str "fountain-" ++ type_name (type d)).

(** The line of index [k] is in a group of the block. *)
Definition inGroups (k : nat) (b : Block) : Prop :=
  In k (leftBlock b) \/ In k (rightBlock b).

End EditorSpec.

(** ** The examples of the specification *)

Module Examples.

Definition sixLines : list jstr :=
  map str [""; "JOHN"; "Hi!"; ""; "JANE^"; "Hey!"]%string.

(** The same lines, with a caret on the first cue as well. *)
Definition twoCarets : list jstr :=
  map str [""; "JOHN^"; "Hi!"; ""; "JANE^"; "Hey!"]%string.

(** The six lines followed by a scene heading. *)
Definition sceneAfter : list jstr :=
  map str [""; "JOHN"; "Hi!"; ""; "JANE^"; "Hey!"; "INT. HOUSE"]%string.

(** Three speeches, the second and the third with a caret. *)
Definition threeSpeeches : list jstr :=
  map str [""; "A"; "x"; ""; "B^"; "y"; ""; "C^"; "z"]%string.

Definition textOf (rawLines : list jstr) : jstr := join ["010"] rawLines.

End Examples.

(** ** The live preview of the editor without the widget

    The simple classifier of the editor extension that styles lines only
    ([buildDecorations] of the extension that leaves dual dialogue to the
    preview pane). *)

Module Live.
Import Patterns.

(** The body of the [while] loop: the state after the line and the class
    of the decoration pushed for it, if one is pushed. *)
Definition liveStep (st : State) (txt : jstr) : State * option jstr :=
  let trimmed := trim txt in
  if isEmptyStr trimmed then
    let isWhitespaceOnly := Nat.ltb 0 (length txt) in
    if isWhitespaceOnly && inDialogueContext st
    then (st, Some (str "fountain-dialogue"))
    else (mkState false false false true, None)
  else
    let '(customType, c, p, d) :=
      if sceneHeading trimmed then (SceneHeading, false, false, false)
      else if centered trimmed then (Centered, false, false, false)
      else if transition trimmed then (Transition, false, false, false)
      else if lastLineWasEmpty st && character txt
              && negb (sceneHeading trimmed) && negb (transition trimmed)
      then (Character, true, false, false)
      else if inDialogueContext st && parenthetical trimmed
      then (Parenthetical, false, true, false)
      else if inDialogueContext st then (Dialogue, false, false, true)
      else (Action, false, false, false)
    in (mkState c p d false,
        Some (str "fountain-" ++ type_name customType)).

(** The loop over the lines of the document: [pos] is [line.from]. *)
Fixpoint liveLoop (st : State) (pos : nat) (doc : list jstr)
  : list Editor.Decoration :=
  match doc with
  | [] => []
  | txt :: rest =>
      let '(st', cls) := liveStep st txt in
      let builder := liveLoop st' (pos + length txt + 1) rest in
      match cls with
      | Some c => Editor.Line pos c :: builder
      | None => builder
      end
  end.

Definition buildDecorations (doc : list jstr) : list Editor.Decoration :=
  liveLoop initialState 0 doc.

End Live.

(** ** The earlier version of the static preview

    [parseFountain] of [src/fountain-preview-backup.ts]: the classifier of
    the preview before section headings and the cue with a caret right
    after a speech were added. *)

Module Backup.
Import Patterns Preview.

Definition parseLine (st : State) (rawLine : jstr) : State * FountainLine :=
  let trimmed := trim rawLine in
  if isEmptyStr trimmed then
    let isWhitespaceOnly := Nat.ltb 0 (length rawLine) in
    if isWhitespaceOnly && inDialogueContext st
    then (st, mkLine DialogueBlank [] rawLine)
    else (mkState false false false true, mkLine Empty [] rawLine)
  else
    let '(ty, c, p, d) :=
      if sceneHeading trimmed then (SceneHeading, false, false, false)
      else if centered trimmed then (Centered, false, false, false)
      else if transition trimmed then (Transition, false, false, false)
      else if lastLineWasEmpty st && character rawLine
              && negb (sceneHeading trimmed) && negb (transition trimmed)
      then (Character, true, false, false)
      else if inDialogueContext st && parenthetical trimmed
      then (Parenthetical, false, true, false)
      else if inDialogueContext st then (Dialogue, false, false, true)
      else (Action, false, false, false)
    in (mkState c p d false, mkLine ty trimmed rawLine).

Fixpoint parseLines (st : State) (rawLines : list jstr)
  : list FountainLine :=
  match rawLines with
  | [] => []
  | rawLine :: rest =>
      let '(st', line) := parseLine st rawLine in
      line :: parseLines st' rest
  end.

Definition parseFountain (txt : jstr) : list FountainLine :=
  parseLines initialState (split_lines txt).

End Backup.

(** ** [DualDialogueWidget.eq]

    The test the editor uses to keep a widget it has drawn.  Reading the
    text of a line that is not there throws: [None]. *)

Module Widget.
Import Editor.

(** One of the two [for] loops, from index [i] on; [mine] is what is left
    of [this.leftLines] (or [this.rightLines]). *)
Fixpoint sameTexts (mine other : list (LineType * jstr)) (i : nat)
  : option bool :=
  match mine with
  | [] => Some true
  | l :: rest =>
      match other !! i with
      | Some o =>
          if bool_decide (l.2 = o.2) then sameTexts rest other (S i)
          else Some false
      | None => None
      end
  end.

Definition eq (this other : DualDialogueWidget) : option bool :=
  if negb (Nat.eqb (length (leftLines this)) (length (leftLines other)))
     || negb (Nat.eqb (length (rightLines this)) (length (rightLines other)))
  then Some false
  else
    match sameTexts (leftLines this) (leftLines other) 0 with
    | Some true => sameTexts (rightLines this) (rightLines other) 0
    | r => r
    end.

End Widget.

(** ** The order of the lines the classifier gives *)

Module Grammar.
Import Preview.

(** The types that leave the classifier inside a dialogue. *)
Definition speechType (t : LineType) : bool :=
  match t with
  | Character | Parenthetical | Dialogue | DialogueBlank => true
  | _ => false
  end.

Definition afterBlank (prev : option LineType) : bool :=
  match prev with
  | None | Some Empty => true
  | _ => false
  end.

Definition afterSpeech (prev : option LineType) : bool :=
  match prev with
  | Some t => speechType t
  | None => false
  end.

(** The values of the [lastLineWas...] variables once the loop of
    [parseFountain] has read the lines. *)
Fixpoint stateAfter (st : State) (rawLines : list jstr) : State :=
  match rawLines with
  | [] => st
  | rawLine :: rest => stateAfter (parseLine st rawLine).1 rest
  end.

(** The type of the last line read. *)
Definition lastTypeFrom (prev : option LineType) (ls : list FountainLine)
  : option LineType :=
  match last ls with
  | Some l => Some (type l)
  | None => prev
  end.

Definition lastType (rawLines : list jstr) : option LineType :=
  lastTypeFrom None (parseLines initialState rawLines).

(** At most one of the three variables of the dialogue context is set. *)
Definition atMostOne (st : State) : Prop :=
  (lastLineWasCharacter st = true ->
   lastLineWasParenthetical st = false /\ lastLineWasDialogue st = false)
  /\ (lastLineWasParenthetical st = true -> lastLineWasDialogue st = false).

(** How a line may follow the line before it ([prev], [None] at the start
    of the text): a dialogue, a parenthetical or a dialogue blank follows a
    line of a speech; a cue follows a blank line or starts the text, or
    ends with the caret and follows a line of a speech. *)
Definition mayFollow (prev : option LineType) (l : FountainLine) : Prop :=
  match type l with
  | Dialogue | Parenthetical | DialogueBlank => afterSpeech prev = true
  | Character =>
      afterBlank prev = true
      \/ (afterSpeech prev = true /\ endsWith (text l) (str "^") = true)
  | _ => True
  end.

Fixpoint wellSequenced (prev : option LineType) (ls : list FountainLine)
  : Prop :=
  match ls with
  | [] => True
  | l :: rest => mayFollow prev l /\ wellSequenced (Some (type l)) rest
  end.

(** A text the earlier classifier reads the same way: no section heading,
    and no cue other than after a blank line or at the start. *)
Fixpoint plainFrom (prev : option LineType) (ls : list FountainLine)
  : Prop :=
  match ls with
  | [] => True
  | l :: rest =>
      isSectionHeading (type l) = false
      /\ (type l = Character -> afterBlank prev = true)
      /\ plainFrom (Some (type l)) rest
  end.

(** The class the live preview gives a line of a type, if any. *)
Definition liveClass (t : LineType) : option jstr :=
  match t with
  | Empty => None
  | DialogueBlank => Some (str "fountain-dialogue")
  | _ => Some (str "fountain-" ++ type_name t)
  end.

(** The decorations of the live preview for classified lines, [pos] being
    the position of the first of them. *)
Fixpoint decorate (pos : nat) (ls : list FountainLine)
  : list Editor.Decoration :=
  match ls with
  | [] => []
  | l :: rest =>
      let builder := decorate (pos + length (rawText l) + 1) rest in
      match liveClass (type l) with
      | Some c => Editor.Line pos c :: builder
      | None => builder
      end
  end.

(** The type of the record before the record of index [k]; [None] for the
    first record. *)
Definition previousType (ls : list FountainLine) (k : nat)
  : option LineType :=
  match k with
  | O => None
  | S k' => type <$> ls !! k'
  end.

(** A line no rule recognises, [prev] being the type of the line before:
    it is not white space only; it matches none of the patterns of the
    scene heading, the centered line, the section heading and the
    transition; it is no cue after a blank line or at the start of the
    text; and the line before it is no line of a speech. *)
Definition unrecognised (prev : option LineType) (rawLine : jstr) : bool :=
  let trimmed := trim rawLine in
  negb (isEmptyStr trimmed)
  && negb (Patterns.sceneHeading trimmed)
  && negb (Patterns.centered trimmed)
  && negb (Patterns.sectionHeading trimmed)
  && negb (Patterns.transition trimmed)
  && negb (afterBlank prev && Patterns.character rawLine)
  && negb (afterSpeech prev).

End Grammar.

(** ** More shapes of lines, in words *)

Module LineShapes.

Definition scenePrefixes : list jstr :=
  map str ["INT."; "EXT."; "EST."; "INT/EXT."; "I/E."; "I/X."]%string.

(** A scene heading: the line starts, without regard to letter case, with
    one of the six prefixes; or it is a period, a character other than a
    period, and no line terminator after that. *)
Definition SceneHeadingShape (s : jstr) : Prop :=
  (exists p rest, In p scenePrefixes /\ map canonicalize s = p ++ rest)
  \/ (exists c rest,
        s = "." :: c :: rest /\ c <> "."
        /\ forallb (fun x => negb (isLineTerminator x)) rest = true).

(** A section heading with [k] leading [#]s: one to six of them, then a
    white space character. *)
Definition SectionHeadingShape (k : nat) (s : jstr) : Prop :=
  1 <= k <= 6
  /\ exists sp rest, isSpace sp = true /\ s = repeat "#" k ++ sp :: rest.

(** A parenthetical: white space, an opening parenthesis, at least one
    character none of which is a closing parenthesis, a closing
    parenthesis, white space. *)
Definition ParentheticalShape (s : jstr) : Prop :=
  exists w1 inner w2,
    s = w1 ++ "(" :: inner ++ ")" :: w2
    /\ forallb isSpace w1 = true /\ forallb isSpace w2 = true
    /\ inner <> []
    /\ forallb (fun c => negb (Ascii.eqb ")" c)) inner = true.

End LineShapes.

(** ** The order of the decorations *)

Module Order.
Import Editor.

(** The order [builder.sort] sorts by: the start positions. *)
Definition fromLe (a b : Decoration) : Prop := decoFrom a <= decoFrom b.

End Order.
Export Order.

(** * Properties *)

(** ** The matcher decides the language of a pattern *)

Section RegexFacts.

Lemma matches_nil_nullable (r : regex) : matches r [] -> nullable r = true.
Proof.
  intros H. remember (@nil ascii) as s eqn:Es.
  induction H; simpl; subst; try discriminate; auto.
  - apply app_eq_nil in Es as [-> ->].
    rewrite IHmatches1, IHmatches2; auto.
  - rewrite IHmatches; auto.
  - rewrite IHmatches, orb_true_r; auto.
Qed.

Lemma nullable_matches_nil (r : regex) : nullable r = true -> matches r [].
Proof.
  induction r; simpl; intros H; try discriminate.
  - constructor.
  - apply andb_true_iff in H as [H1 H2].
    change (@nil ascii) with (@nil ascii ++ []). constructor; auto.
  - apply orb_true_iff in H as [H|H]; [apply MAltL | apply MAltR]; auto.
  - constructor.
Qed.

Lemma matches_star_cons (r : regex) (c : ascii) (s : jstr) :
  matches (Star r) (c :: s) ->
  exists s1 s2, s = s1 ++ s2 /\ matches r (c :: s1) /\ matches (Star r) s2.
Proof.
  intros H. remember (Star r) as r' eqn:Er. remember (c :: s) as s' eqn:Es.
  revert s Es.
  induction H; intros s0 Es; try discriminate.
  injection Er as ->.
  destruct s1 as [|c1 s1]; simpl in Es.
  - apply IHmatches2; auto.
  - injection Es as -> <-. exists s1, s2. auto.
Qed.

Lemma matches_deriv (r : regex) (c : ascii) (s : jstr) :
  matches (deriv c r) s <-> matches r (c :: s).
Proof.
  revert s. induction r as [| |p|r1 IH1 r2 IH2|r1 IH1 r2 IH2|r IH];
    intros s; simpl.
  - split; intros H; inversion H.
  - split; intros H; inversion H.
  - destruct (p c) eqn:Ep; split; intros H; inversion H; subst.
    + constructor; auto.
    + constructor.
    + congruence.
  - assert (Hseq : matches (Seq (deriv c r1) r2) s ->
                   matches (Seq r1 r2) (c :: s)).
    { intros H. inversion H; subst.
      change (c :: s1 ++ s2) with ((c :: s1) ++ s2).
      constructor; auto. apply IH1; auto. }
    assert (Hinv : matches (Seq r1 r2) (c :: s) ->
                   matches (Seq (deriv c r1) r2) s
                   \/ (matches r1 [] /\ matches r2 (c :: s))).
    { intros H. inversion H as [| |? ? s1 s2 H1 H2 E1 E2| | | |]; subst.
      destruct s1 as [|c1 s1]; simpl in *.
      - right. subst. auto.
      - injection E2 as -> <-. left. constructor; auto. apply IH1; auto. }
    destruct (nullable r1) eqn:En; split; intros H.
    + inversion H; subst; auto.
      change (c :: s) with ([] ++ c :: s). constructor.
      * apply nullable_matches_nil; auto.
      * apply IH2; auto.
    + destruct (Hinv H) as [H'|[_ H']]; [apply MAltL | apply MAltR]; auto.
      apply IH2; auto.
    + auto.
    + destruct (Hinv H) as [H'|[H' _]]; auto.
      apply matches_nil_nullable in H'. congruence.
  - split; intros H; inversion H; subst.
    + apply MAltL, IH1; auto.
    + apply MAltR, IH2; auto.
    + apply MAltL, IH1; auto.
    + apply MAltR, IH2; auto.
  - split; intros H.
    + inversion H; subst.
      change (c :: s1 ++ s2) with ((c :: s1) ++ s2).
      constructor; auto. apply IH; auto.
    + apply matches_star_cons in H as (s1 & s2 & -> & H1 & H2).
      constructor; auto. apply IH; auto.
Qed.

Lemma matchb_spec (r : regex) (s : jstr) :
  matchb r s = true <-> matches r s.
Proof.
  revert r. induction s as [|c s IH]; intros r; simpl.
  - split; [apply nullable_matches_nil | apply matches_nil_nullable].
  - rewrite IH. apply matches_deriv.
Qed.

Lemma matches_Lit (l s : jstr) : matches (Lit l) s <-> s = l.
Proof.
  revert s. induction l as [|a l IH]; intros s; simpl.
  - split; intros H; [inversion H; auto | subst; constructor].
  - split; intros H.
    + inversion H as [| |? ? s1 s2 H1 H2| | | |]; subst.
      inversion H1 as [|? ? Hp| | | | |]; subst. apply IH in H2 as ->.
      apply Ascii.eqb_eq in Hp as ->. reflexivity.
    + subst. change (a :: l) with ([a] ++ l). constructor.
      * constructor. apply Ascii.eqb_refl.
      * apply IH; auto.
Qed.

Lemma matches_Star_Chr (p : ascii -> bool) (s : jstr) :
  matches (Star (Chr p)) s <-> forallb p s = true.
Proof.
  split.
  - intros H. remember (Star (Chr p)) as r eqn:Er.
    induction H; try discriminate; auto.
    injection Er as ->. inversion H as [|? ? Hp| | | | |]; subst. simpl.
    rewrite Hp. auto.
  - induction s as [|c s IH]; simpl; intros H.
    + constructor.
    + apply andb_true_iff in H as [H1 H2].
      change (c :: s) with ([c] ++ s). constructor; auto. constructor; auto.
Qed.

Lemma matches_Plus_Chr (p : ascii -> bool) (s : jstr) :
  matches (Plus (Chr p)) s <-> s <> [] /\ forallb p s = true.
Proof.
  unfold Plus. split.
  - intros H. inversion H as [| |? ? s1 s2 H1 H2| | | |]; subst.
    inversion H1 as [|? ? Hp| | | | |]; subst.
    apply matches_Star_Chr in H2. simpl. rewrite Hp. auto.
  - intros [Hne H]. destruct s as [|c s]; [congruence|].
    simpl in H. apply andb_true_iff in H as [H1 H2].
    change (c :: s) with ([c] ++ s). constructor.
    + constructor; auto.
    + apply matches_Star_Chr; auto.
Qed.

Lemma matches_Seq_inv (r1 r2 : regex) (s : jstr) :
  matches (Seq r1 r2) s <->
  exists s1 s2, s = s1 ++ s2 /\ matches r1 s1 /\ matches r2 s2.
Proof.
  split.
  - intros H. inversion H; subst. eauto.
  - intros (s1 & s2 & -> & H1 & H2). constructor; auto.
Qed.

Lemma matches_Alt_inv (r1 r2 : regex) (s : jstr) :
  matches (Alt r1 r2) s <-> matches r1 s \/ matches r2 s.
Proof.
  split.
  - intros H. inversion H; subst; auto.
  - intros [H|H]; [apply MAltL | apply MAltR]; auto.
Qed.

Lemma matches_Chr_inv (p : ascii -> bool) (s : jstr) :
  matches (Chr p) s <-> exists c, s = [c] /\ p c = true.
Proof.
  split.
  - intros H. inversion H; subst. eauto.
  - intros (c & -> & H). constructor; auto.
Qed.

Lemma matches_Void_inv (s : jstr) : matches Void s <-> False.
Proof. split; intros H; inversion H. Qed.

Lemma matches_Eps_inv (s : jstr) : matches Eps s <-> s = [].
Proof. split; intros H; [inversion H; auto | subst; constructor]. Qed.

End RegexFacts.

(** ** Strings *)

Section StringFacts.

Lemma split_lines_nonempty (s : jstr) : split_lines s <> [].
Proof.
  destruct s as [|c s]; simpl; [discriminate|].
  destruct (Ascii.eqb c "010"); [discriminate|].
  destruct (split_lines s); discriminate.
Qed.

Lemma join_split_lines (s : jstr) : join ["010"] (split_lines s) = s.
Proof.
  induction s as [|c s IH]; simpl; auto.
  pose proof (split_lines_nonempty s) as Hne.
  destruct (split_lines s) as [|l ls] eqn:Es; [congruence|].
  destruct (Ascii.eqb c "010") eqn:Ec.
  - apply Ascii.eqb_eq in Ec as ->. simpl in *. rewrite IH. reflexivity.
  - destruct ls; simpl in *; rewrite <- IH; reflexivity.
Qed.

Lemma split_lines_length (s : jstr) :
  length (split_lines s)
  = S (length (List.filter (fun c => Ascii.eqb c "010") s)).
Proof.
  induction s as [|c s IH]; [reflexivity|].
  cbn [split_lines List.filter].
  destruct (Ascii.eqb c "010").
  - simpl. rewrite IH. reflexivity.
  - pose proof (split_lines_nonempty s) as Hne.
    destruct (split_lines s); [congruence|]. simpl in *. lia.
Qed.

Lemma trimStart_spaces (s : jstr) :
  forallb isSpace s = true -> trimStart s = [].
Proof.
  induction s as [|c s IH]; simpl; auto.
  intros H. apply andb_true_iff in H as [-> H]. auto.
Qed.

Lemma trimStart_app (a b : jstr) :
  forallb isSpace a = true -> trimStart (a ++ b) = trimStart b.
Proof.
  induction a as [|c a IH]; simpl; auto.
  intros H. apply andb_true_iff in H as [-> H]. auto.
Qed.

Lemma trimStart_nonspace (c : ascii) (s : jstr) :
  isSpace c = false -> trimStart (c :: s) = c :: s.
Proof. intros H. simpl. rewrite H. reflexivity. Qed.

(** [trimStart] removes a run of white space at the front. *)
Lemma trimStart_split (s : jstr) :
  exists w, s = w ++ trimStart s /\ forallb isSpace w = true.
Proof.
  induction s as [|c s (w & E & Hw)]; simpl.
  - exists []. auto.
  - destruct (isSpace c) eqn:Ec.
    + exists (c :: w). simpl. rewrite Ec, Hw, <- E. auto.
    + exists []. auto.
Qed.

Lemma trimStart_head (s : jstr) (c : ascii) (t : jstr) :
  trimStart s = c :: t -> isSpace c = false.
Proof.
  induction s as [|a s IH]; simpl; [discriminate|].
  destruct (isSpace a) eqn:Ea; auto.
  intros [= -> _]. auto.
Qed.

Lemma trimStart_idem (s : jstr) : trimStart (trimStart s) = trimStart s.
Proof.
  destruct (trimStart s) as [|c t] eqn:E; auto.
  apply trimStart_nonspace. eapply trimStart_head; eauto.
Qed.

(** [trimEnd] removes a run of white space at the back. *)
Lemma trimEnd_split (s : jstr) :
  exists w, s = trimEnd s ++ w /\ forallb isSpace w = true.
Proof.
  unfold trimEnd. destruct (trimStart_split (rev s)) as (w & E & Hw).
  exists (rev w). split.
  - rewrite <- (rev_involutive s), E at 1. rewrite rev_app_distr. reflexivity.
  - rewrite forallb_forall in *. intros x Hx. apply Hw.
    apply in_rev. assumption.
Qed.

Lemma trimEnd_snoc_nonspace (s : jstr) (c : ascii) :
  isSpace c = false -> trimEnd (s ++ [c]) = s ++ [c].
Proof.
  intros H. unfold trimEnd. rewrite rev_app_distr. simpl. rewrite H.
  simpl. rewrite rev_involutive. reflexivity.
Qed.

Lemma trimEnd_app_spaces (s w : jstr) :
  forallb isSpace w = true -> trimEnd (s ++ w) = trimEnd s.
Proof.
  intros H. unfold trimEnd. rewrite rev_app_distr, trimStart_app; auto.
  rewrite forallb_forall in *. intros x Hx. apply H.
  apply in_rev. assumption.
Qed.

Lemma trimEnd_nil_iff (s : jstr) :
  trimEnd s = [] <-> forallb isSpace s = true.
Proof.
  split.
  - intros E. destruct (trimEnd_split s) as (w & Es & Hw).
    rewrite E in Es. simpl in Es. subst. assumption.
  - intros H. rewrite <- (app_nil_l s). rewrite trimEnd_app_spaces; auto.
Qed.

(** A line is white-space only exactly when its trimmed text is empty. *)
Lemma trim_nil_iff (s : jstr) : trim s = [] <-> forallb isSpace s = true.
Proof.
  unfold trim. rewrite trimEnd_nil_iff. split.
  - intros H. destruct (trimStart_split s) as (w & E & Hw).
    rewrite E, forallb_app, Hw, H. reflexivity.
  - intros H. rewrite trimStart_spaces; auto.
Qed.

(** A non-empty trimmed text starts with the first character of the line
    that is not white space. *)
Lemma trim_head (s : jstr) (c : ascii) (t : jstr) :
  trim s = c :: t -> exists t', trimStart s = c :: t'.
Proof.
  unfold trim. intros E.
  destruct (trimEnd_split (trimStart s)) as (w & Es & _).
  rewrite E in Es. simpl in Es. eauto.
Qed.

Lemma endsWith_snoc (s : jstr) (c d : ascii) :
  endsWith (s ++ [c]) [d] = Ascii.eqb d c.
Proof.
  unfold endsWith. rewrite rev_app_distr. simpl.
  rewrite andb_true_r. reflexivity.
Qed.

Lemma endsWith_char (s : jstr) (d : ascii) :
  endsWith s [d] = true <-> exists s', s = s' ++ [d].
Proof.
  split.
  - destruct (rev s) as [|c r] eqn:E; unfold endsWith; rewrite E; simpl.
    + discriminate.
    + rewrite andb_true_r. intros H. apply Ascii.eqb_eq in H as ->.
      exists (rev r). rewrite <- (rev_involutive s), E. reflexivity.
  - intros (s' & ->). rewrite endsWith_snoc. apply Ascii.eqb_refl.
Qed.

End StringFacts.

(** ** The languages of the patterns *)

Section PatternFacts.
Import Patterns.

Lemma centered_shape (s : jstr) :
  centered s = true -> exists x, s = ">" :: x ++ ["<"].
Proof.
  unfold centered, test_whole, centered_re. rewrite matchb_spec.
  rewrite matches_Seq_inv. intros (s1 & r1 & -> & H1 & H).
  apply matches_Lit in H1 as ->.
  apply matches_Seq_inv in H as (s2 & r2 & -> & _ & H).
  apply matches_Seq_inv in H as (s3 & r3 & -> & _ & H).
  apply matches_Seq_inv in H as (s4 & r4 & -> & _ & H).
  apply matches_Lit in H as ->.
  exists (s2 ++ s3 ++ s4). simpl. rewrite <- !app_assoc. reflexivity.
Qed.

Lemma matches_UpTo_head (n : nat) (a : ascii) (u : jstr) :
  matches (UpTo n (Lit [a])) u -> exists u', u = a :: u'.
Proof.
  destruct n as [|n]; simpl; intros H.
  - apply (matches_Lit [a]) in H as ->. eauto.
  - apply matches_Seq_inv in H as (s1 & s2 & -> & H1 & _).
    apply (matches_Lit [a]) in H1 as ->. simpl. eauto.
Qed.

Lemma sectionHeading_head (s : jstr) :
  sectionHeading s = true -> exists t, s = "#" :: t.
Proof.
  unfold sectionHeading, test_prefix. rewrite matchb_spec.
  rewrite matches_Seq_inv. intros (s1 & r1 & -> & H & _).
  apply matches_Seq_inv in H as (u & r2 & -> & H & _).
  apply matches_UpTo_head in H as (u' & ->). simpl. eauto.
Qed.

(** The first character of a cue that is not white space is a capital, a
    digit, an opening parenthesis or the caret. *)
Lemma character_head (s : jstr) (c : ascii) (t : jstr) :
  character s = true -> trimStart s = c :: t ->
  isUpper c || isDigit c || Ascii.eqb c "(" || Ascii.eqb c "^" = true.
Proof.
  unfold character, test_whole, character_re. rewrite matchb_spec.
  rewrite matches_Seq_inv. intros (s1 & r1 & -> & H1 & H).
  apply matches_Star_Chr in H1. rewrite trimStart_app by assumption.
  apply matches_Seq_inv in H as (s2 & r2 & -> & H2 & H).
  apply matches_Plus_Chr in H2 as [_ H2].
  apply matches_Seq_inv in H as (s3 & r3 & -> & H3 & H).
  apply matches_Seq_inv in H as (s4 & s5 & -> & H4 & H5).
  apply matches_Star_Chr in H4.
  induction s2 as [|a s2 IH]; simpl.
  - clear H2. apply matches_Alt_inv in H3 as [H3|H3].
    + apply matches_Seq_inv in H3 as (o & r4 & -> & Ho & _).
      apply matches_Lit in Ho as ->. simpl.
      intros [= <- _]. reflexivity.
    + apply matches_Eps_inv in H3 as ->. simpl.
      rewrite trimStart_app by assumption.
      apply matches_Alt_inv in H5 as [H5|H5].
      * apply matches_Lit in H5 as ->. simpl. intros [= <- _]. reflexivity.
      * apply matches_Eps_inv in H5 as ->. simpl. discriminate.
  - simpl in H2. apply andb_true_iff in H2 as [Ha H2].
    destruct (isSpace a) eqn:Es; auto.
    intros [= <- _]. rewrite orb_false_r in Ha. rewrite Ha. reflexivity.
Qed.

Lemma character_not_sectionHeading (rawLine : jstr) :
  character rawLine = true -> sectionHeading (trim rawLine) = false.
Proof.
  intros Hc. destruct (sectionHeading (trim rawLine)) eqn:Hs; auto.
  apply sectionHeading_head in Hs as (t & Ht).
  apply trim_head in Ht as (t' & Ht).
  pose proof (character_head _ _ _ Hc Ht) as H. discriminate H.
Qed.

Lemma caret_not_centered (s : jstr) :
  endsWith s ["^"] = true -> centered s = false.
Proof.
  intros He. destruct (centered s) eqn:Hc; auto.
  apply centered_shape in Hc as (x & ->).
  change (">" :: x ++ ["<"]) with ((">" :: x) ++ ["<"]) in He.
  rewrite endsWith_snoc in He. discriminate He.
Qed.

End PatternFacts.

(** ** The classifier of the static preview *)

Section Classifier.
Import Patterns Preview.

Lemma parseLine_rawText (st : State) (rawLine : jstr) :
  rawText (parseLine st rawLine).2 = rawLine.
Proof.
  unfold parseLine.
  repeat match goal with
         | |- context [if ?b then _ else _] => destruct b
         end; reflexivity.
Qed.

Lemma parseLines_rawText (st : State) (rawLines : list jstr) :
  map rawText (parseLines st rawLines) = rawLines.
Proof.
  revert st. induction rawLines as [|rawLine rest IH]; intros st; simpl.
  - reflexivity.
  - pose proof (parseLine_rawText st rawLine) as H.
    destruct (parseLine st rawLine) as [st' line]. simpl in *.
    rewrite H, IH. reflexivity.
Qed.

Lemma parseLines_length (st : State) (rawLines : list jstr) :
  length (parseLines st rawLines) = length rawLines.
Proof.
  rewrite <- (parseLines_rawText st rawLines) at 2.
  rewrite length_map. reflexivity.
Qed.

Lemma isEmptyStr_false (s : jstr) : s <> [] -> isEmptyStr s = false.
Proof. destruct s; [congruence | reflexivity]. Qed.

Lemma collectFrom_acc (rest block : list FountainLine) :
  collectFrom rest block = block ++ collectFrom rest [].
Proof.
  revert block. induction rest as [|l rest IH]; intros block; simpl.
  - rewrite app_nil_r. reflexivity.
  - destruct (continuesBlock (type l)); [|rewrite app_nil_r; reflexivity].
    rewrite (IH (block ++ [l])), (IH [l]).
    rewrite <- app_assoc. reflexivity.
Qed.

Lemma collectFrom_app (mid post : list FountainLine) :
  Forall (fun l => continuesBlock (type l) = true) mid ->
  collectFrom (mid ++ post) [] = mid ++ collectFrom post [].
Proof.
  induction 1 as [|l mid Hl _ IH]; simpl; auto.
  rewrite Hl, collectFrom_acc, IH. reflexivity.
Qed.

Lemma collectDialogueBlock_at (pre : list FountainLine) (c : FountainLine)
  (rest : list FountainLine) :
  type c = Character ->
  collectDialogueBlock (pre ++ c :: rest) (length pre)
  = c :: collectFrom rest [].
Proof.
  intros Hc. unfold collectDialogueBlock.
  rewrite list_lookup_middle by reflexivity. rewrite Hc. simpl.
  rewrite (cons_middle c pre rest), app_assoc.
  replace (S (length pre)) with (length (pre ++ [c]))
    by (rewrite length_app; simpl; lia).
  rewrite drop_app_length. apply collectFrom_acc.
Qed.

(** C5: a line of white space only, of non-zero length, is a
    [DialogueBlank] inside a dialogue context, and the state is kept as it
    was; the state after a [Dialogue] line is such a context.  The line is
    part of the group [collectDialogueBlock] gathers, and the group goes on
    after it.  Outside a dialogue context the same line is [Empty]. *)
Theorem whitespace_line_continues_dialogue (st : State) (rawLine : jstr) :
  rawLine <> [] -> forallb isSpace rawLine = true ->
  (inDialogueContext st = true ->
   parseLine st rawLine = (st, mkLine DialogueBlank [] rawLine))
  /\ (inDialogueContext st = false ->
      parseLine st rawLine
      = (mkState false false false true, mkLine Empty [] rawLine))
  /\ (forall st0 raw0,
        type (parseLine st0 raw0).2 = Dialogue ->
        inDialogueContext (parseLine st0 raw0).1 = true)
  /\ (forall pre c mid post,
        type c = Character ->
        Forall (fun l => continuesBlock (type l) = true) mid ->
        collectDialogueBlock
          (pre ++ c :: mid ++ mkLine DialogueBlank [] rawLine :: post)
          (length pre)
        = c :: mid ++ mkLine DialogueBlank [] rawLine
            :: collectFrom post []).
Proof.
  intros Hne Hws.
  assert (Ht : trim rawLine = []) by (apply trim_nil_iff; assumption).
  assert (Hl : Nat.ltb 0 (length rawLine) = true).
  { destruct rawLine; [congruence | reflexivity]. }
  repeat split.
  - intros Hd. unfold parseLine. rewrite Ht, Hl, Hd. reflexivity.
  - intros Hd. unfold parseLine. rewrite Ht, Hl, Hd. reflexivity.
  - intros st0 raw0. unfold parseLine.
    repeat match goal with
           | |- context [if ?b then _ else _] => destruct b eqn:?
           end; simpl; try discriminate; auto.
  - intros pre c mid post Hc Hmid.
    rewrite collectDialogueBlock_at by assumption.
    rewrite collectFrom_app by assumption. simpl.
    rewrite collectFrom_acc. reflexivity.
Qed.

Lemma whitespace_line_continues_dialogue_witness :
  parseLine (mkState false false true false) (str "  ")
  = (mkState false false true false, mkLine DialogueBlank [] (str "  ")).
Proof.
  apply (whitespace_line_continues_dialogue
           (mkState false false true false) (str "  "));
    [vm_compute; congruence | reflexivity | reflexivity].
Defined.

(** C6: inside a dialogue context, a line that matches the character
    pattern, whose trimmed text ends with the caret and is neither a scene
    heading nor a transition, is a [Character] (its text keeps the caret),
    whether or not a blank line comes before it. *)
Theorem adjacent_dual_marker_is_character (st : State) (rawLine : jstr) :
  inDialogueContext st = true ->
  character rawLine = true ->
  endsWith (trim rawLine) (str "^") = true ->
  sceneHeading (trim rawLine) = false ->
  transition (trim rawLine) = false ->
  parseLine st rawLine
  = (mkState true false false false,
     mkLine Character (trim rawLine) rawLine)
  /\ endsWith (text (parseLine st rawLine).2) (str "^") = true.
Proof.
  intros Hd Hc He Hs Ht.
  assert (E : parseLine st rawLine
              = (mkState true false false false,
                 mkLine Character (trim rawLine) rawLine)).
  { unfold parseLine.
    assert (Hne : trim rawLine <> []).
    { intros E. rewrite E in He. discriminate He. }
    rewrite (isEmptyStr_false _ Hne), Hs, Ht, Hd, Hc, He.
    rewrite (caret_not_centered _ He).
    rewrite (character_not_sectionHeading _ Hc).
    simpl. rewrite andb_true_r.
    destruct (lastLineWasEmpty st); reflexivity. }
  rewrite E. split; [reflexivity | exact He].
Qed.

Lemma adjacent_dual_marker_is_character_witness :
  parseLine (mkState false false true false) (str "JANE ^")
  = (mkState true false false false,
     mkLine Character (str "JANE ^") (str "JANE ^")).
Proof.
  apply (adjacent_dual_marker_is_character
           (mkState false false true false) (str "JANE ^"));
    reflexivity.
Defined.

End Classifier.

(** ** Transitions *)

Section Transitions.
Import Patterns Preview Shapes.

Lemma canonicalize_fixed (a : ascii) :
  isLower a = false -> isUpper a = false ->
  forall c, canonicalize c = a <-> c = a.
Proof.
  intros Hl Hu c. unfold canonicalize. split.
  - destruct (isLower c) eqn:Ec; auto.
    intros <-. revert Hu Ec.
    destruct c as [[] [] [] [] [] [] [] []]; vm_compute; congruence.
  - intros ->. rewrite Hl. reflexivity.
Qed.

Lemma canonicalize_lineTerminator (c : ascii) :
  isLineTerminator (canonicalize c) = isLineTerminator c.
Proof. destruct c as [[] [] [] [] [] [] [] []]; reflexivity. Qed.

Lemma forallb_map_canonicalize (m : jstr) :
  forallb (fun x => negb (isLineTerminator x)) (map canonicalize m)
  = forallb (fun x => negb (isLineTerminator x)) m.
Proof.
  induction m as [|c m IH]; simpl; auto.
  rewrite canonicalize_lineTerminator, IH. reflexivity.
Qed.

Lemma matches_gt_line (u : jstr) :
  matches (Seq (Lit (str ">")) (Seq (Star dot) (notChr "<"))) u <->
  exists m c, u = ">" :: m ++ [c]
              /\ forallb (fun x => negb (isLineTerminator x)) m = true
              /\ c <> "<".
Proof.
  rewrite matches_Seq_inv. split.
  - intros (s1 & r1 & -> & H1 & H). apply matches_Lit in H1 as ->.
    apply matches_Seq_inv in H as (m & r2 & -> & Hm & H).
    apply matches_Star_Chr in Hm.
    apply matches_Chr_inv in H as (c & -> & Hc).
    exists m, c. repeat split; auto.
    intros ->. discriminate Hc.
  - intros (m & c & -> & Hm & Hc).
    exists (str ">"), (m ++ [c]). repeat split.
    + apply matches_Lit. reflexivity.
    + constructor.
      * apply matches_Star_Chr. assumption.
      * constructor. apply negb_true_iff, Ascii.eqb_neq. congruence.
Qed.

(** The pattern of the source accepts exactly the lines of that shape. *)
Lemma transition_spec (s : jstr) :
  transition s = true <-> TransitionShape s.
Proof.
  unfold transition, test_whole, transition_re, TransitionShape, Alts.
  rewrite matchb_spec. cbn [fold_right].
  rewrite !matches_Alt_inv, !matches_Lit, matches_Void_inv, matches_gt_line.
  rewrite matches_Seq_inv.
  assert (Hgt : (exists m c, map canonicalize s = ">" :: m ++ [c]
                   /\ forallb (fun x => negb (isLineTerminator x)) m = true
                   /\ c <> "<")
                <-> (exists m c, s = ">" :: m ++ [c]
                   /\ forallb (fun x => negb (isLineTerminator x)) m = true
                   /\ c <> "<")).
  { split.
    - intros (m' & c' & E & Hm & Hc).
      apply map_eq_cons in E as (a & t & -> & Ha & E).
      apply map_eq_app in E as (m & l & -> & <- & E).
      apply map_eq_cons in E as (c & l' & -> & <- & E).
      apply map_eq_nil in E as ->.
      apply (proj1 (canonicalize_fixed ">" eq_refl eq_refl a)) in Ha as ->.
      exists m, c. repeat split; auto.
      + rewrite <- forallb_map_canonicalize. assumption.
      + intros ->. apply Hc. reflexivity.
    - intros (m & c & -> & Hm & Hc).
      exists (map canonicalize m), (canonicalize c). repeat split.
      + simpl. rewrite map_app. reflexivity.
      + rewrite forallb_map_canonicalize. assumption.
      + intros E.
        apply (proj1 (canonicalize_fixed "<" eq_refl eq_refl c)) in E.
        auto. }
  rewrite Hgt. clear Hgt.
  assert (Hto : (exists s1 s2 : jstr,
                   map canonicalize s = s1 ++ s2
                   /\ matches (Plus (Chr (fun c => isUpper c || isSpace c))) s1
                   /\ matches (Lit (str "TO:")) s2)
                <-> (exists p, p <> []
                     /\ forallb (fun c => isUpper c || isSpace c) p = true
                     /\ map canonicalize s = p ++ str "TO:")).
  { split.
    - intros (p & s2 & E & Hp & H2). apply matches_Lit in H2 as ->.
      apply matches_Plus_Chr in Hp as [Hne Hp]. eauto.
    - intros (p & Hne & Hp & E). exists p, (str "TO:"). repeat split; auto.
      + apply matches_Plus_Chr. auto.
      + apply matches_Lit. reflexivity. }
  rewrite Hto. tauto.
Qed.

End Transitions.

Section TransitionClaim.
Import Patterns Preview Shapes.

(** C7, as the code has it: a line is a [Transition] exactly when its
    trimmed text is not empty, no earlier rule (scene heading, centered,
    section heading) matches it, and it has the shape of a transition read
    without regard to letter case; the [>] form needs one more character
    after the [>]. *)
Theorem transition_exactly_when (st : State) (rawLine : jstr) :
  type (parseLine st rawLine).2 = Transition <->
  trim rawLine <> []
  /\ sceneHeading (trim rawLine) = false
  /\ centered (trim rawLine) = false
  /\ sectionHeading (trim rawLine) = false
  /\ TransitionShape (trim rawLine).
Proof.
  rewrite <- transition_spec. unfold parseLine.
  destruct (trim rawLine) as [|c t] eqn:Et.
  - simpl. split.
    + destruct (Nat.ltb 0 (length rawLine) && inDialogueContext st);
        discriminate.
    + intros (H & _). congruence.
  - cbn [isEmptyStr].
    destruct (sceneHeading (c :: t)); [simpl; split; [discriminate|];
      intros (_ & H & _); discriminate H|].
    destruct (centered (c :: t)); [simpl; split; [discriminate|];
      intros (_ & _ & H & _); discriminate H|].
    destruct (sectionHeading (c :: t)); [simpl; split; [discriminate|];
      intros (_ & _ & _ & H & _); discriminate H|].
    destruct (transition (c :: t)).
    + simpl. split; [intros _; repeat split; congruence | reflexivity].
    + split; [|intros (_ & _ & _ & _ & H); discriminate H].
      repeat match goal with
             | |- context [if ?b then _ else _] => destruct b
             end; simpl; discriminate.
Qed.

Lemma transition_exactly_when_witness :
  type (parseLine initialState (str "CUT TO:")).2 = Transition.
Proof.
  apply (transition_exactly_when initialState (str "CUT TO:")).
  repeat split; try (vm_compute; congruence).
  left. exists (str "CUT "). repeat split.
  vm_compute. congruence.
Defined.

(** C7, the clause on lower case: the pattern carries the [i] flag, and
    the line [cut to:] is a [Transition]. *)
Lemma lowercase_cut_to_is_transition :
  type (parseLine initialState (str "cut to:")).2 = Transition
  /\ ~ (type (parseLine initialState (str "cut to:")).2 <> Transition).
Proof. split; [reflexivity | intros H; apply H; reflexivity]. Qed.

End TransitionClaim.

(** ** Replacement of the first match *)

Section ReplaceFacts.

Lemma longest_match_spec (r : regex) (s : jstr) :
  match longest_match r s with
  | Some n =>
      n <= length s /\ matches r (take n s)
      /\ forall m, n < m -> ~ matches r (take m s) \/ length s < m
  | None => forall m, ~ matches r (take m s)
  end.
Proof.
  revert r. induction s as [|c s IH]; intros r; simpl.
  - destruct (nullable r) eqn:En.
    + split; [lia|]. split; [apply nullable_matches_nil; auto|].
      intros m Hm. right. simpl. lia.
    + intros m H. rewrite take_nil in H.
      apply matches_nil_nullable in H. congruence.
  - specialize (IH (deriv c r)).
    destruct (longest_match (deriv c r) s) as [k|].
    + destruct IH as (Hk & Hmk & Hmax).
      split; [simpl; lia|]. split; [simpl; apply matches_deriv; auto|].
      intros [|m] Hm; [lia|].
        destruct (Hmax m ltac:(lia)) as [Hn|Hn]; [left | right; simpl; lia].
        simpl. intros H. apply Hn, matches_deriv; auto.
    + destruct (nullable r) eqn:En.
      * split; [lia|]. split; [apply nullable_matches_nil; auto|].
        intros [|m] Hm; [lia|]. left. simpl. intros H.
        apply (IH m), matches_deriv; auto.
      * intros [|m]; simpl; intros H.
        -- apply matches_nil_nullable in H. congruence.
        -- apply (IH m), matches_deriv; auto.
Qed.

(** The longest prefix in the language is the one removed. *)
Lemma replace_prefix_longest (r : regex) (a b : jstr) :
  matches r a ->
  (forall a' b', a ++ b = a' ++ b' -> matches r a' -> length a' <= length a) ->
  replace_prefix r (a ++ b) = b.
Proof.
  intros Ha Hmax. unfold replace_prefix.
  pose proof (longest_match_spec r (a ++ b)) as H.
  destruct (longest_match r (a ++ b)) as [n|].
  - destruct H as (Hn & Hm & Hlong).
    assert (Hle : n <= length a).
    { specialize (Hmax (take n (a ++ b)) (drop n (a ++ b))).
      rewrite take_drop in Hmax. specialize (Hmax eq_refl Hm).
      rewrite length_take in Hmax. lia. }
    destruct (decide (n = length a)) as [->|Hne].
    + apply drop_app_length.
    + destruct (Hlong (length a) ltac:(lia)) as [Hc|Hc].
      * exfalso. apply Hc. rewrite take_app_length. assumption.
      * rewrite length_app in Hc. lia.
  - exfalso. apply (H (length a)). rewrite take_app_length. assumption.
Qed.

Lemma replace_prefix_none (r : regex) (s : jstr) :
  (forall a b, s = a ++ b -> ~ matches r a) -> replace_prefix r s = s.
Proof.
  intros Hno. unfold replace_prefix.
  pose proof (longest_match_spec r s) as H.
  destruct (longest_match r s) as [n|]; auto.
  destruct H as (_ & Hm & _). exfalso.
  apply (Hno (take n s) (drop n s)); [rewrite take_drop|]; auto.
Qed.

Lemma replace_suffix_eq (r : regex) (s : jstr) :
  replace_suffix r s
  = if matchb r s then []
    else match s with
         | [] => []
         | c :: s' => c :: replace_suffix r s'
         end.
Proof. destruct s; reflexivity. Qed.

(** The leftmost position from which the rest is in the language is where
    the text is cut. *)
Lemma replace_suffix_leftmost (r : regex) (a b : jstr) :
  matchb r b = true ->
  (forall i, i < length a -> matchb r (drop i a ++ b) = false) ->
  replace_suffix r (a ++ b) = a.
Proof.
  intros Hb. induction a as [|c a IH]; intros Hno.
  - simpl. rewrite replace_suffix_eq, Hb. reflexivity.
  - rewrite replace_suffix_eq.
    pose proof (Hno 0 ltac:(simpl; lia)) as H0.
    change (matchb r ((c :: a) ++ b) = false) in H0.
    rewrite H0. simpl. f_equal.
    apply IH. intros i Hi. apply (Hno (S i)). simpl. lia.
Qed.

Lemma replace_suffix_none (r : regex) (s : jstr) :
  (forall i, matchb r (drop i s) = false) -> replace_suffix r s = s.
Proof.
  induction s as [|c s IH]; intros Hno; rewrite replace_suffix_eq.
  - destruct (matchb r []); reflexivity.
  - pose proof (Hno 0) as H0. change (matchb r (c :: s) = false) in H0.
    rewrite H0. f_equal.
    apply IH. intros i. apply (Hno (S i)).
Qed.

Lemma class_prefix_bound (q : ascii -> bool) (w t w' b' : jstr) :
  w ++ t = w' ++ b' ->
  forallb q w' = true ->
  (forall c t', t = c :: t' -> q c = false) ->
  length w' <= length w.
Proof.
  revert w. induction w' as [|c w' IH]; intros w E Hw' Ht; simpl; [lia|].
  simpl in Hw'. apply andb_true_iff in Hw' as [Hc Hw'].
  destruct w as [|d w]; simpl in E.
  - rewrite (Ht c (w' ++ b')) in Hc by assumption. discriminate Hc.
  - injection E as -> E. simpl.
    specialize (IH w E Hw' Ht). lia.
Qed.

Lemma two_class_prefix_bound (p q : ascii -> bool) (h w t h' w' b' : jstr) :
  h ++ w ++ t = h' ++ w' ++ b' ->
  forallb p h = true -> forallb q w = true ->
  forallb p h' = true -> forallb q w' = true ->
  (forall c, p c = true -> q c = false) ->
  (forall c t', t = c :: t' -> q c = false) ->
  (w = [] -> forall c t', t = c :: t' -> p c = false) ->
  length h' + length w' <= length h + length w.
Proof.
  intros E Hh Hw Hh' Hw' Hpq Htq Htp. revert h' E Hh'.
  induction h as [|c h IH]; intros h' E Hh'.
  - destruct h' as [|c' h']; simpl in *.
    + eapply class_prefix_bound; eauto.
    + exfalso. apply andb_true_iff in Hh' as [Hc' _].
      destruct w as [|d w]; simpl in E.
      * rewrite (Htp eq_refl c' (h' ++ w' ++ b')) in Hc' by assumption.
        discriminate Hc'.
      * injection E as -> _. simpl in Hw.
        apply andb_true_iff in Hw as [Hd _].
        rewrite (Hpq _ Hc') in Hd. discriminate Hd.
  - simpl in Hh. apply andb_true_iff in Hh as [Hc Hh].
    destruct h' as [|c' h']; simpl in *.
    + destruct w' as [|d w']; simpl in *; [lia|].
      injection E as <- _. apply andb_true_iff in Hw' as [Hd _].
      rewrite (Hpq _ Hc) in Hd. discriminate Hd.
    + injection E as <- E. apply andb_true_iff in Hh' as [_ Hh'].
      specialize (IH Hh h' E Hh'). lia.
Qed.

End ReplaceFacts.

(** ** The renderer of the static preview *)

Section Renderer.
Import Patterns Preview Shapes.

Lemma matches_leadingGt (a : jstr) :
  matches leadingGt_re a <-> exists w, a = ">" :: w /\ forallb isSpace w = true.
Proof.
  unfold leadingGt_re. rewrite matches_Seq_inv. split.
  - intros (s1 & w & -> & H1 & Hw). apply matches_Lit in H1 as ->.
    apply matches_Star_Chr in Hw. eauto.
  - intros (w & -> & Hw). exists (str ">"), w. repeat split.
    + apply matches_Lit. reflexivity.
    + apply matches_Star_Chr. assumption.
Qed.

(** [text.replace(/^>\s*/, '')] on a text that starts with [>]. *)
Lemma strip_leadingGt (x : jstr) :
  replace_prefix leadingGt_re (">" :: x) = trimStart x.
Proof.
  destruct (trimStart_split x) as (w & E & Hw).
  remember (trimStart x) as t eqn:Et. rewrite E.
  change (">" :: w ++ t) with ((">" :: w) ++ t).
  apply replace_prefix_longest.
  - apply matches_leadingGt. eauto.
  - intros a' b' Eq Ha'. apply matches_leadingGt in Ha' as (w' & -> & Hw').
    simpl in Eq. injection Eq as Eq. simpl.
    apply le_n_S. eapply (class_prefix_bound isSpace); eauto.
    intros c t' ->. eapply trimStart_head. symmetry. exact Et.
Qed.

Lemma strip_leadingGt_other (s : jstr) :
  (forall x, s <> ">" :: x) -> replace_prefix leadingGt_re s = s.
Proof.
  intros Hs. apply replace_prefix_none. intros a b -> Ha.
  apply matches_leadingGt in Ha as (w & -> & _). eapply Hs. reflexivity.
Qed.

Lemma matches_trailingLt (b : jstr) :
  matches trailingLt_re b <-> exists w, b = w ++ ["<"] /\ forallb isSpace w = true.
Proof.
  unfold trailingLt_re. rewrite matches_Seq_inv. split.
  - intros (w & s2 & -> & Hw & H2). apply matches_Lit in H2 as ->.
    apply matches_Star_Chr in Hw. eauto.
  - intros (w & -> & Hw). exists w, (str "<"). repeat split.
    + apply matches_Star_Chr. assumption.
    + apply matches_Lit. reflexivity.
Qed.

Lemma trimEnd_last (y : jstr) :
  trimEnd y = [] \/ exists a c, trimEnd y = a ++ [c] /\ isSpace c = false.
Proof.
  unfold trimEnd. destruct (trimStart (rev y)) as [|c t] eqn:E; auto.
  right. exists (rev t), c. split; [reflexivity|].
  eapply trimStart_head; eauto.
Qed.

(** [text.replace(/\s*<$/, '')] on a text that ends with [<]. *)
Lemma strip_trailingLt (y : jstr) :
  replace_suffix trailingLt_re (y ++ ["<"]) = trimEnd y.
Proof.
  destruct (trimEnd_split y) as (w & E & Hw).
  rewrite E at 1. rewrite <- app_assoc.
  apply replace_suffix_leftmost.
  - apply matchb_spec, matches_trailingLt. eauto.
  - intros i Hi. apply not_true_is_false. intros H.
    apply matchb_spec, matches_trailingLt in H as (w' & Eq & Hw').
    rewrite app_assoc in Eq. apply app_inj_tail in Eq as [Eq _].
    destruct (trimEnd_last y) as [En|(a & c & Ea & Hc)].
    + rewrite En in Hi. simpl in Hi. lia.
    + rewrite Ea in *. rewrite length_app in Hi. simpl in Hi.
      rewrite drop_app_le in Eq by lia.
      rewrite <- Eq in Hw'. rewrite <- app_assoc in Hw'.
      rewrite forallb_app in Hw'. simpl in Hw'.
      rewrite Hc, andb_false_r in Hw'. discriminate Hw'.
Qed.

Lemma trimStart_app_nonspace (x : jstr) (c : ascii) (r : jstr) :
  isSpace c = false -> trimStart (x ++ c :: r) = trimStart x ++ c :: r.
Proof.
  intros Hc. induction x as [|a x IH]; simpl.
  - rewrite Hc. reflexivity.
  - destruct (isSpace a); auto.
Qed.

Lemma matches_leadingHashes (a : jstr) :
  matches leadingHashes_re a <->
  exists h w, a = h ++ w /\ h <> [] /\ forallb (Ascii.eqb "#") h = true
              /\ forallb isSpace w = true.
Proof.
  unfold leadingHashes_re. rewrite matches_Seq_inv. split.
  - intros (h & w & -> & Hh & Hw). apply matches_Plus_Chr in Hh as [Hne Hh].
    apply matches_Star_Chr in Hw. exists h, w. auto.
  - intros (h & w & -> & Hne & Hh & Hw). exists h, w. repeat split.
    + apply matches_Plus_Chr. auto.
    + apply matches_Star_Chr. assumption.
Qed.

Lemma forallb_repeat_hash (n : nat) :
  forallb (Ascii.eqb "#") (repeat "#" n) = true.
Proof. induction n; simpl; auto. Qed.

(** [text.replace(/^#+\s*/, '')] on a text that starts with [#]. *)
Lemma strip_leadingHashes (n : nat) (x : jstr) :
  (forall x', x <> "#" :: x') ->
  replace_prefix leadingHashes_re (repeat "#" (S n) ++ x) = trimStart x.
Proof.
  intros Hx. destruct (trimStart_split x) as (w & E & Hw).
  remember (trimStart x) as t eqn:Et. rewrite E at 1. rewrite app_assoc.
  apply replace_prefix_longest.
  - apply matches_leadingHashes. exists (repeat "#" (S n)), w.
    split; [reflexivity|]. split; [discriminate|].
    split; [apply forallb_repeat_hash | assumption].
  - intros a' b' Eq Ha'.
    apply matches_leadingHashes in Ha' as (h' & w' & -> & _ & Hh' & Hw').
    rewrite !length_app. rewrite <- !app_assoc in Eq.
    eapply (two_class_prefix_bound (Ascii.eqb "#") isSpace); eauto.
    + apply forallb_repeat_hash.
    + intros c Hc. apply Ascii.eqb_eq in Hc as <-. reflexivity.
    + intros c t' ->. eapply trimStart_head. symmetry. exact Et.
    + intros -> c t' ->. simpl in E.
      destruct (Ascii.eqb "#" c) eqn:Ec; auto.
      apply Ascii.eqb_eq in Ec as <-. exfalso. eapply Hx. exact E.
Qed.

Lemma replaceAll_app (c : ascii) (by_ a b : jstr) :
  replaceAll c by_ (a ++ b) = replaceAll c by_ a ++ replaceAll c by_ b.
Proof. unfold replaceAll. apply flat_map_app. Qed.

Lemma escapeHtml_app (a b : jstr) :
  escapeHtml (a ++ b) = escapeHtml a ++ escapeHtml b.
Proof. unfold escapeHtml. rewrite !replaceAll_app. reflexivity. Qed.

(** The four passes of [escapeHtml] amount to one pass that writes the
    entity of each of [&], [<], [>] and the double quote. *)
Lemma escapeHtml_flat_map (t : jstr) :
  escapeHtml t = flat_map escapeChar t.
Proof.
  induction t as [|c t IH]; [reflexivity|].
  change (c :: t) with ([c] ++ t). rewrite escapeHtml_app, IH.
  simpl. f_equal.
  destruct c as [[] [] [] [] [] [] [] []]; reflexivity.
Qed.

End Renderer.

Section RendererClaim.
Import Patterns Preview Shapes.

(** C9, as the code has it: a line that is neither [Empty] nor
    [DialogueBlank] is rendered as a [div] of class [fountain-line
    fountain-<type>] around its displayed text, escaped (the entities of
    [&], [<], [>] and the double quote); [Empty] and [DialogueBlank] lines
    are rendered as the [fountain-empty] placeholder.  The displayed text
    of a centered line [>x<] is [x] trimmed; of a transition [>x], [x]
    without its leading white space; of a section heading, the text after
    the leading [#]s and the white space that follows them; of any other
    line, its text. *)
Theorem renderLine_markup :
  (forall line,
     type line <> Empty -> type line <> DialogueBlank ->
     renderLine line
     = str "<div class=" ++ [quote] ++ str "fountain-line fountain-"
       ++ type_name (type line) ++ [quote] ++ str ">"
       ++ flat_map escapeChar (displaySource line) ++ str "</div>")
  /\ (forall line,
        type line = Empty \/ type line = DialogueBlank ->
        renderLine line = emptyDiv)
  /\ (forall x raw,
        displaySource (mkLine Centered (">" :: x ++ ["<"]) raw) = trim x)
  /\ (forall x raw,
        displaySource (mkLine Transition (">" :: x) raw) = trimStart x)
  /\ (forall t raw,
        (forall x, t <> ">" :: x) ->
        displaySource (mkLine Transition t raw) = t)
  /\ (forall n level x raw,
        (forall x', x <> "#" :: x') ->
        displaySource
          (mkLine (SectionHeading level) (repeat "#" (S n) ++ x) raw)
        = trimStart x)
  /\ (forall line,
        type line <> Centered -> type line <> Transition ->
        isSectionHeading (type line) = false ->
        displaySource line = text line)
  /\ renderLine (mkLine Centered (str "> THE END <") (str "> THE END <"))
     = str "<div class=" ++ [quote] ++ str "fountain-line fountain-centered"
       ++ [quote] ++ str ">THE END</div>".
Proof.
  repeat split.
  - intros line He Hb. unfold renderLine, isType.
    rewrite !bool_decide_eq_false_2 by assumption. simpl.
    rewrite escapeHtml_flat_map. reflexivity.
  - intros line [H|H]; unfold renderLine; rewrite H; reflexivity.
  - intros x raw. unfold displaySource. simpl.
    rewrite strip_leadingGt.
    rewrite trimStart_app_nonspace by reflexivity.
    apply strip_trailingLt.
  - intros x raw. unfold displaySource. simpl. apply strip_leadingGt.
  - intros t raw Ht. unfold displaySource. simpl.
    apply strip_leadingGt_other. assumption.
  - intros n level x raw Hx. unfold displaySource.
    cbn [type text isSectionHeading]. unfold isType.
    rewrite !bool_decide_eq_false_2 by discriminate.
    apply strip_leadingHashes. assumption.
  - intros line Hc Ht Hs. unfold displaySource, isType.
    rewrite !bool_decide_eq_false_2 by assumption. rewrite Hs. reflexivity.
Qed.

Lemma renderLine_markup_witness :
  renderLine (mkLine Dialogue (str "a<b") (str "a<b"))
  = str "<div class=" ++ [quote] ++ str "fountain-line fountain-dialogue"
    ++ [quote] ++ str ">a&lt;b</div>"
  /\ displaySource (mkLine (SectionHeading 2) (str "## Act") (str "## Act"))
     = str "Act".
Proof.
  destruct renderLine_markup as (H1 & _ & _ & _ & _ & H6 & _).
  split.
  - apply (H1 (mkLine Dialogue (str "a<b") (str "a<b"))); discriminate.
  - apply (H6 1 2 (str " Act") (str "## Act")). discriminate.
Defined.

(** C9, on blank lines: the record of an empty line is not rendered as a
    [fountain-line] [div]. *)
Lemma empty_line_is_not_fountain_line :
  parseFountain [] = [mkLine Empty [] []]
  /\ renderLine (mkLine Empty [] [])
     <> str "<div class=" ++ [quote] ++ str "fountain-line fountain-"
        ++ type_name Empty ++ [quote] ++ str ">" ++ escapeHtml []
        ++ str "</div>".
Proof. split; [reflexivity | vm_compute; discriminate]. Qed.

End RendererClaim.

(** ** The block assembler of the static preview *)

Section Assembler.
Import Patterns Preview Partition.

Lemma collectFrom_split (rest : list FountainLine) :
  rest = collectFrom rest [] ++ drop (length (collectFrom rest [])) rest
  /\ Forall continues (collectFrom rest []).
Proof.
  induction rest as [|l rest [IH1 IH2]]; simpl.
  - split; [reflexivity | constructor].
  - destruct (continuesBlock (type l)) eqn:El.
    + rewrite collectFrom_acc. simpl. split.
      * f_equal. exact IH1.
      * constructor; assumption.
    + split; [reflexivity | constructor].
Qed.

Lemma collectDialogueBlock_split (lines : list FountainLine) (i : nat)
  (l : FountainLine) :
  lines !! i = Some l -> type l = Character ->
  isGroup false (collectDialogueBlock lines i)
  /\ drop i lines
     = collectDialogueBlock lines i
       ++ drop (i + length (collectDialogueBlock lines i)) lines.
Proof.
  intros Hl Ht. unfold collectDialogueBlock. rewrite Hl, Ht. simpl.
  rewrite collectFrom_acc. simpl.
  destruct (collectFrom_split (drop (S i) lines)) as [E HF].
  split.
  - exists l, (collectFrom (drop (S i) lines) []).
    repeat split; auto. discriminate.
  - rewrite (drop_S _ _ _ Hl). f_equal.
    rewrite E at 1. f_equal. rewrite drop_drop. f_equal. lia.
Qed.

Lemma skipEmpty_spec (rest : list FountainLine) (cursor : nat) :
  exists gap,
    skipEmpty rest cursor = cursor + length gap
    /\ rest = gap ++ drop (length gap) rest
    /\ Forall isEmptyLine gap.
Proof.
  revert cursor. induction rest as [|l rest IH]; intros cursor; simpl.
  - exists []. simpl. repeat split; auto.
  - unfold isType. destruct (bool_decide (type l = Empty)) eqn:El.
    + destruct (IH (S cursor)) as (gap & E1 & E2 & HF).
      exists (l :: gap). simpl. repeat split.
      * rewrite E1. lia.
      * f_equal. exact E2.
      * constructor; auto. apply bool_decide_eq_true in El. exact El.
    + exists []. simpl. repeat split; auto.
Qed.

(** What the loop has found when it pairs two groups. *)
Lemma dualCursor_Some (lines : list FountainLine) (i cursor : nat) :
  dualCursor lines i = Some cursor ->
  covers lines
    (DualBlock i (cursor + length (collectDialogueBlock lines cursor))
       (collectDialogueBlock lines i) (collectDialogueBlock lines cursor))
  /\ i < cursor.
Proof.
  unfold dualCursor. destruct (lines !! i) as [l|] eqn:Hl; [|discriminate].
  unfold isType at 1.
  destruct (bool_decide (type l = Character)) eqn:Ht; [|discriminate].
  apply bool_decide_eq_true in Ht.
  destruct (collectDialogueBlock_split lines i l Hl Ht) as [HL EL].
  set (L := collectDialogueBlock lines i) in *.
  destruct (skipEmpty_spec (drop (i + length L) lines) (i + length L))
    as (gap & Ec & Eg & Hg).
  rewrite Ec. set (c := i + length L + length gap) in *.
  destruct (lines !! c) as [r|] eqn:Hr; [|discriminate].
  destruct (isType (type r) Character && endsWith (text r) (str "^"))
    eqn:Hm; [|discriminate].
  intros [= <-]. apply andb_true_iff in Hm as [Hrt Hre].
  apply bool_decide_eq_true in Hrt.
  destruct (collectDialogueBlock_split lines c r Hr Hrt) as [HR ER].
  set (R := collectDialogueBlock lines c) in *.
  assert (Ha : drop i lines = L ++ gap ++ R ++ drop (c + length R) lines).
  { rewrite EL. f_equal. rewrite Eg. f_equal.
    rewrite drop_drop. exact ER. }
  split.
  - exists gap. repeat split; auto.
    + rewrite Ha.
      replace (c + length R - i) with (length (L ++ gap ++ R))
        by (rewrite !length_app; unfold c; lia).
      rewrite !app_assoc. rewrite <- (app_assoc L gap R).
      apply take_app_length.
    + rewrite !length_app. unfold c. lia.
    + destruct HR as (r0 & rest & E & Hr0 & _ & Hrest).
      exists r0, rest. repeat split; auto.
      intros _. unfold R, collectDialogueBlock in E.
      rewrite Hr, Hrt in E. simpl in E. rewrite collectFrom_acc in E.
      injection E as <- _. exact Hre.
  - destruct HL as (l0 & rest & E & _).
    assert (0 < length L) by (rewrite E; simpl; lia).
    unfold c. lia.
Qed.

Lemma assemble_loop_acc (fuel : nat) (lines : list FountainLine) (i : nat)
  (nodes : list RenderNode) :
  assemble_loop fuel lines i nodes
  = option_map (app nodes) (assemble_loop fuel lines i []).
Proof.
  revert i nodes. induction fuel as [|fuel IH]; intros i nodes; simpl.
  - destruct (lines !! i); simpl; [reflexivity|].
    rewrite app_nil_r. reflexivity.
  - destruct (lines !! i) as [line|]; simpl;
      [|rewrite app_nil_r; reflexivity].
    destruct (dualCursor lines i) as [cursor|].
    + rewrite (IH _ (nodes ++ _)), (IH _ [_]).
      destruct (assemble_loop fuel lines _ []); simpl; [|reflexivity].
      rewrite <- app_assoc. reflexivity.
    + rewrite (IH _ (nodes ++ _)), (IH _ [_]).
      destruct (assemble_loop fuel lines _ []); simpl; [|reflexivity].
      rewrite <- app_assoc. reflexivity.
Qed.

(** The loop ends within [length lines - i] iterations, and its nodes tile
    the lines from [i] on. *)
Lemma assemble_loop_tiled (fuel : nat) (lines : list FountainLine) (i : nat) :
  length lines - i <= fuel -> i <= length lines ->
  exists nodes,
    assemble_loop fuel lines i [] = Some nodes /\ tiled lines i nodes.
Proof.
  revert i. induction fuel as [|fuel IH]; intros i Hf Hi.
  - exists []. simpl. rewrite lookup_ge_None_2 by lia.
    split; [reflexivity | simpl; lia].
  - simpl. destruct (lines !! i) as [line|] eqn:Hl.
    + pose proof (lookup_lt_Some _ _ _ Hl) as Hlt.
      destruct (dualCursor lines i) as [cursor|] eqn:Hd.
      * destruct (dualCursor_Some _ _ _ Hd) as [Hc Hic].
        pose proof Hc as (gap & Et & Eto & _).
        set (R := collectDialogueBlock lines cursor) in *.
        assert (Hle : cursor + length R <= length lines).
        { assert (Hlen : length (take (cursor + length R - i) (drop i lines))
                         = cursor + length R - i).
          { rewrite Et, Eto. lia. }
          rewrite length_take, length_drop in Hlen. lia. }
        destruct (IH (cursor + length R) ltac:(lia) Hle) as (ns & E & Ht).
        rewrite assemble_loop_acc, E. simpl.
        eexists. split; [reflexivity|].
        simpl. repeat split; auto. lia.
      * destruct (IH (S i) ltac:(lia) ltac:(lia)) as (ns & E & Ht).
        rewrite assemble_loop_acc, E. simpl.
        eexists. split; [reflexivity|].
        simpl. repeat split; auto.
    + exists []. split; [reflexivity|]. simpl.
      apply lookup_ge_None in Hl. lia.
Qed.

Lemma fountainToHTML_loop_nodes (fuel : nat) (lines : list FountainLine)
  (i : nat) (htmlParts : list jstr) :
  fountainToHTML_loop fuel lines i htmlParts
  = option_map (fun nodes => htmlParts ++ flat_map renderNode nodes)
      (assemble_loop fuel lines i []).
Proof.
  revert i htmlParts. induction fuel as [|fuel IH]; intros i htmlParts; simpl.
  - destruct (lines !! i); simpl; [reflexivity|].
    rewrite app_nil_r. reflexivity.
  - destruct (lines !! i) as [line|]; simpl;
      [|rewrite app_nil_r; reflexivity].
    destruct (dualCursor lines i) as [cursor|].
    + rewrite IH, (assemble_loop_acc _ _ _ [_]).
      destruct (assemble_loop fuel lines _ []); simpl; [|reflexivity].
      f_equal. repeat (rewrite <- app_assoc; simpl). reflexivity.
    + rewrite IH, (assemble_loop_acc _ _ _ [_]).
      destruct (assemble_loop fuel lines _ []); simpl; [|reflexivity].
      rewrite <- !app_assoc. reflexivity.
Qed.

End Assembler.

Section PartitionFacts.
Import Patterns Preview Shapes Partition.

Lemma filter_gap (gap : list FountainLine) :
  Forall isEmptyLine gap -> List.filter notEmptyLine gap = [].
Proof.
  induction 1 as [|l gap Hl _ IH]; simpl; auto.
  unfold notEmptyLine, isType. rewrite bool_decide_eq_true_2 by exact Hl.
  simpl. exact IH.
Qed.

Lemma covers_dual_drop (lines : list FountainLine) (from to : nat)
  (L gap R : list FountainLine) :
  take (to - from) (drop from lines) = L ++ gap ++ R ->
  to = from + length (L ++ gap ++ R) ->
  from <= length lines ->
  drop from lines = L ++ gap ++ R ++ drop to lines /\ to <= length lines.
Proof.
  intros Et Eto Hfrom.
  assert (Hlen : length (take (to - from) (drop from lines)) = to - from).
  { rewrite Et, Eto. lia. }
  rewrite length_take, length_drop in Hlen.
  split; [|lia].
  rewrite <- (take_drop (to - from) (drop from lines)) at 1.
  rewrite Et, drop_drop, <- !app_assoc.
  replace (from + (to - from)) with to by lia. reflexivity.
Qed.

(** The lines the nodes show are the lines from [i] on with some [Empty]
    lines left out, in the same order. *)
Lemma tiled_lines (lines : list FountainLine) (nodes : list RenderNode)
  (i : nat) :
  tiled lines i nodes -> i <= length lines ->
  sublist (flat_map nodeLines nodes) (drop i lines)
  /\ List.filter notEmptyLine (flat_map nodeLines nodes)
     = List.filter notEmptyLine (drop i lines).
Proof.
  revert i. induction nodes as [|n nodes IH]; intros i Ht Hi; simpl in *.
  - subst i. rewrite drop_all. split; [constructor | reflexivity].
  - destruct Ht as (Hfrom & Hlt & Hc & Ht).
    destruct n as [idx line|from to L R]; simpl in *; subst.
    + pose proof (lookup_lt_Some _ _ _ Hc) as Hidx.
      destruct (IH _ Ht ltac:(lia)) as [IH1 IH2].
      rewrite (drop_S _ _ _ Hc). split.
      * constructor. exact IH1.
      * simpl. rewrite IH2. reflexivity.
    + destruct Hc as (gap & Et & Eto & Hg & _ & _).
      destruct (covers_dual_drop _ _ _ _ _ _ Et Eto Hi) as [Ed Hto].
      destruct (IH _ Ht Hto) as [IH1 IH2].
      rewrite Ed. split.
      * rewrite <- app_assoc. apply sublist_app; [reflexivity|].
        apply sublist_inserts_l. apply sublist_app; [reflexivity|].
        exact IH1.
      * rewrite !List.filter_app, IH2, (filter_gap gap Hg).
        simpl. rewrite <- app_assoc. reflexivity.
Qed.

Lemma tiled_covers (lines : list FountainLine) (nodes : list RenderNode)
  (i : nat) :
  tiled lines i nodes -> Forall (covers lines) nodes.
Proof.
  revert i. induction nodes as [|n nodes IH]; intros i Ht; simpl in *.
  - constructor.
  - destruct Ht as (_ & _ & Hc & Ht). constructor; eauto.
Qed.

Lemma assemble_tiled (lines : list FountainLine) :
  exists nodes, assemble lines = Some nodes /\ tiled lines 0 nodes.
Proof. apply assemble_loop_tiled; lia. Qed.

Lemma renderLine_lineDiv (l : FountainLine) :
  renderLine l = lineDiv false l.
Proof.
  unfold renderLine, lineDiv, shownText. simpl.
  rewrite escapeHtml_flat_map. reflexivity.
Qed.

Lemma renderRight_lineDiv (l : FountainLine) :
  renderRight l = lineDiv true l.
Proof.
  unfold renderRight, lineDiv, shownText. simpl.
  destruct (isType (type l) Character) eqn:Ec.
  - apply bool_decide_eq_true_1 in Ec.
    unfold renderLine, displaySource. simpl. rewrite Ec. simpl.
    rewrite escapeHtml_flat_map. reflexivity.
  - apply renderLine_lineDiv.
Qed.

Lemma lineDiv_not_wrapper (right : bool) (l : FountainLine) :
  isWrapper (lineDiv right l) = false.
Proof.
  unfold lineDiv.
  destruct (isType (type l) Empty || isType (type l) DialogueBlank);
    [reflexivity|].
  unfold isWrapper.
  rewrite !bool_decide_eq_false_2; [reflexivity|..];
    intros H; cbv [str dualOpen colOpen divClose quote] in H;
    simpl in H; discriminate H.
Qed.

Lemma filter_no_wrapper (right : bool) (ls : list FountainLine) :
  List.filter (fun p => negb (isWrapper p)) (map (lineDiv right) ls)
  = map (lineDiv right) ls.
Proof.
  induction ls as [|l ls IH]; simpl; [reflexivity|].
  rewrite lineDiv_not_wrapper. simpl. rewrite IH. reflexivity.
Qed.

(** The parts of a node other than the wrappers are the [div]s of the
    lines it shows. *)
Lemma renderNode_shown (n : RenderNode) :
  List.filter (fun p => negb (isWrapper p)) (renderNode n)
  = map (fun rl => lineDiv rl.1 rl.2) (nodeShown n)
  /\ map snd (nodeShown n) = nodeLines n.
Proof.
  destruct n as [idx line|from to L R];
    cbn [renderNode nodeShown nodeLines app List.filter map snd].
  - rewrite renderLine_lineDiv, lineDiv_not_wrapper. auto.
  - rewrite (map_ext renderLine (lineDiv false) renderLine_lineDiv).
    rewrite (map_ext renderRight (lineDiv true) renderRight_lineDiv).
    assert (Hd : isWrapper dualOpen = true) by (vm_compute; reflexivity).
    assert (Hc : isWrapper colOpen = true) by (vm_compute; reflexivity).
    assert (He : isWrapper divClose = true) by (vm_compute; reflexivity).
    split.
    + rewrite Hd, Hc. cbn [negb].
      rewrite List.filter_app, filter_no_wrapper.
      cbn [List.filter]. rewrite Hc, He. cbn [negb].
      rewrite List.filter_app, filter_no_wrapper.
      cbn [List.filter]. rewrite He. cbn [negb].
      rewrite app_nil_r, map_app, !map_map. reflexivity.
    + rewrite map_app, !map_map. simpl. rewrite !map_id. reflexivity.
Qed.

Lemma renderNodes_shown (nodes : list RenderNode) :
  List.filter (fun p => negb (isWrapper p)) (flat_map renderNode nodes)
  = map (fun rl => lineDiv rl.1 rl.2) (flat_map nodeShown nodes)
  /\ map snd (flat_map nodeShown nodes) = flat_map nodeLines nodes.
Proof.
  induction nodes as [|n nodes [IH1 IH2]]; simpl; [auto|].
  destruct (renderNode_shown n) as [H1 H2].
  rewrite List.filter_app, !map_app, H1, H2, IH1, IH2. auto.
Qed.

(** C10: the loop of [fountainToHTML] ends, and the fragment is its parts
    joined by line feeds.  The parts other than the tags that wrap a dual
    dialogue and its columns are the [div]s of the lines shown, one part
    per line, in order: the placeholder for a blank line, and otherwise
    the class of the type of the line around its displayed text with the
    entities.  The lines shown are the classified lines, in their order,
    with only lines of type [Empty] left out: every line of another type,
    [DialogueBlank] included, is shown exactly once. *)
Theorem every_line_but_empty_rendered_once (lines : list FountainLine) :
  exists (parts : list jstr) (shown : list (bool * FountainLine)),
    fountainToHTML lines = Some (join ["010"] parts)
    /\ List.filter (fun p => negb (isWrapper p)) parts
       = map (fun rl => lineDiv rl.1 rl.2) shown
    /\ sublist (map snd shown) lines
    /\ List.filter notEmptyLine (map snd shown)
       = List.filter notEmptyLine lines.
Proof.
  destruct (assemble_tiled lines) as (nodes & E & Ht).
  destruct (renderNodes_shown nodes) as [H1 H2].
  exists (flat_map renderNode nodes), (flat_map nodeShown nodes).
  split; [|split; [exact H1|]].
  - unfold fountainToHTML. rewrite fountainToHTML_loop_nodes.
    unfold assemble in E. rewrite E. reflexivity.
  - rewrite H2. apply (tiled_lines lines nodes 0 Ht). lia.
Qed.

End PartitionFacts.

(** ** The dual-dialogue pass of the editor *)

Section EditorFacts.
Import Patterns Editor EditorSpec.

Lemma gatherRight_spec (rest : list LineDeco) (k : nat) (acc : list nat) :
  exists n,
    gatherRight rest k acc = acc ++ seq k n
    /\ n <= length rest
    /\ forall m, m < n ->
         exists d, rest !! m = Some d
                   /\ isSpeech (type d) || isType (type d) Empty = true.
Proof.
  revert k acc. induction rest as [|d rest IH]; intros k acc.
  - exists 0. simpl. rewrite app_nil_r. repeat split; auto. lia.
  - assert (Hstep : forall (Hd : isSpeech (type d) || isType (type d) Empty
                                 = true),
             exists n, gatherRight rest (S k) (acc ++ [k]) = acc ++ seq k n
                       /\ n <= length (d :: rest)
                       /\ forall m, m < n ->
                            exists d', (d :: rest) !! m = Some d'
                              /\ isSpeech (type d') || isType (type d') Empty
                                 = true).
    { intros Hd. destruct (IH (S k) (acc ++ [k])) as (n & E & Hn & Hm).
      exists (S n). simpl. rewrite E, <- app_assoc. repeat split; auto.
      - lia.
      - intros [|m] Hlt; simpl; [eauto|]. apply Hm. lia. }
    simpl. destruct (isSpeech (type d)) eqn:Es.
    + apply Hstep. reflexivity.
    + destruct (isType (type d) Empty) eqn:Ee; simpl.
      * destruct (match rest with
                  | [] => false
                  | d' :: _ => isSpeech (type d')
                  end).
        -- apply Hstep. reflexivity.
        -- exists 0. simpl. rewrite app_nil_r. repeat split; auto; lia.
      * exists 0. simpl. rewrite app_nil_r. repeat split; auto; lia.
Qed.

Lemma seq_snoc (a n : nat) : seq a (S n) = seq a n ++ [a + n].
Proof. rewrite seq_S. reflexivity. Qed.

Lemma seq_down (n' m : nat) (acc : list nat) :
  n' <= m -> seq n' (m - n') ++ m :: acc = seq n' (S m - n') ++ acc.
Proof.
  intros H. replace (S m - n') with (S (m - n')) by lia.
  rewrite seq_snoc, <- app_assoc. simpl.
  replace (n' + (m - n')) with m by lia. reflexivity.
Qed.

Lemma gatherMiddle_spec (decos : list LineDeco) (n : nat) (acc : list nat) :
  exists n',
    gatherMiddle decos n acc = (n', seq n' (n - n') ++ acc)
    /\ n' <= n
    /\ forall k, n' <= k < n -> typeAt decos k = Some Empty.
Proof.
  revert acc. induction n as [|m IH]; intros acc; simpl.
  - exists 0. repeat split; auto. lia.
  - assert (Hstop : exists n',
               (S m, acc) = (n', seq n' (S m - n') ++ acc)
               /\ n' <= S m
               /\ forall k, n' <= k < S m -> typeAt decos k = Some Empty).
    { exists (S m). rewrite Nat.sub_diag. simpl. repeat split; auto. lia. }
    destruct (typeAt decos m) as [t|] eqn:Et; [|exact Hstop].
    unfold isType. destruct (bool_decide (t = Empty)) eqn:Ee; [|exact Hstop].
    apply bool_decide_eq_true in Ee. subst t.
    destruct (IH (m :: acc)) as (n' & E & Hn & Hk).
    exists n'. rewrite E, seq_down by lia. repeat split; auto.
    intros k Hr. destruct (decide (k = m)) as [->|Hne]; auto.
    apply Hk. lia.
Qed.

Lemma gatherLeft_spec (decos : list LineDeco) (n : nat) (acc : list nat) :
  exists n',
    gatherLeft decos n acc = seq n' (n - n') ++ acc
    /\ n' <= n
    /\ forall k, n' <= k < n ->
         exists t, typeAt decos k = Some t /\ inBlockType t = true.
Proof.
  revert acc. induction n as [|m IH]; intros acc; simpl.
  - exists 0. repeat split; auto. lia.
  - assert (Hstop : exists n',
               acc = seq n' (S m - n') ++ acc
               /\ n' <= S m
               /\ forall k, n' <= k < S m ->
                    exists t, typeAt decos k = Some t
                              /\ inBlockType t = true).
    { exists (S m). rewrite Nat.sub_diag. simpl. repeat split; auto. lia. }
    assert (Hgo : forall t, typeAt decos m = Some t ->
               inBlockType t = true ->
               exists n',
                 gatherLeft decos m (m :: acc) = seq n' (S m - n') ++ acc
                 /\ n' <= S m
                 /\ forall k, n' <= k < S m ->
                      exists t, typeAt decos k = Some t
                                /\ inBlockType t = true).
    { intros t Et Hin. destruct (IH (m :: acc)) as (n' & E & Hn & Hk).
      exists n'. rewrite E, seq_down by lia. repeat split; auto.
      intros k Hr. destruct (decide (k = m)) as [->|Hne]; eauto.
      apply Hk. lia. }
    destruct (typeAt decos m) as [t|] eqn:Et; [|exact Hstop].
    destruct (isSpeech t) eqn:Es.
    { apply (Hgo t); auto. unfold inBlockType. rewrite Es. reflexivity. }
    destruct (isType t Character) eqn:Ec.
    { exists m. replace (S m - m) with 1 by lia. simpl.
      repeat split; auto.
      intros k Hr. replace k with m by lia. exists t. split; auto.
      unfold inBlockType. rewrite Ec, orb_true_r. reflexivity. }
    destruct (isType t Empty) eqn:Ee; [|exact Hstop]. simpl.
    match goal with
    | |- context [if ?b then _ else _] => destruct b
    end; [|exact Hstop].
    apply (Hgo t); auto. unfold inBlockType. rewrite Ee, !orb_true_r.
    reflexivity.
Qed.

End EditorFacts.

Section EditorBlocks.
Import Patterns Editor EditorSpec.

Lemma inBlockType_not_breaker (t : LineType) :
  inBlockType t = true -> breaksBlock t = false.
Proof. destruct t; simpl; auto; discriminate. Qed.

(** A pairing that succeeds yields a block of the expected form. *)
Lemma pairAt_wellFormed (ds : list LineDeco) (j : nat) (d : LineDeco)
  (b : Block) (mid : list nat) :
  ds !! j = Some d -> type d = Character ->
  endsWith (text d) (str "^") = true ->
  pairAt ds j = Some (b, mid) ->
  wellFormedBlock ds b.
Proof.
  intros Hd Hty Htx. unfold pairAt.
  destruct (gatherRight_spec (drop (S j) ds) (S j) [j])
    as (nr & ER & Hnr & Hr).
  destruct (gatherMiddle_spec ds j []) as (n & EM & Hn & Hm).
  destruct (gatherLeft_spec ds n []) as (n' & EL & Hn' & Hl).
  rewrite ER, EM, EL, !app_nil_r.
  destruct (n - n') as [|nl] eqn:Enl; simpl seq; [discriminate|].
  lazy beta iota.
  destruct (ds !! n') as [d0|] eqn:Hd0; [|discriminate].
  destruct (ds !! List.last _ _) as [dl|]; [|discriminate].
  unfold isType.
  destruct (bool_decide (type d0 = Character)) eqn:Hc; [|discriminate].
  apply bool_decide_eq_true in Hc. intros [= <- _].
  exists n', nl, j, nr. simpl. repeat split.
  - lia.
  - unfold typeAt. rewrite Hd0. simpl. congruence.
  - unfold typeAt. rewrite Hd. simpl. congruence.
  - exists (text d). unfold textAt. rewrite Hd. auto.
  - intros k Hk. apply Hm. lia.
  - intros k Hk.
    destruct (decide (k < n)) as [H1|H1]; [apply Hl; lia|].
    destruct (decide (k < j)) as [H2|H2].
    { exists Empty. split; [apply Hm; lia | reflexivity]. }
    destruct (decide (k = j)) as [->|H3].
    { exists Character. unfold typeAt. rewrite Hd. simpl.
      split; [congruence | reflexivity]. }
    destruct (Hr (k - S j) ltac:(lia)) as (d' & Hd' & Ht').
    rewrite lookup_drop in Hd'.
    replace (S j + (k - S j)) with k in Hd' by lia.
    exists (type d'). unfold typeAt. rewrite Hd'. split; [reflexivity|].
    unfold inBlockType. apply orb_true_iff in Ht' as [-> | ->];
      [reflexivity | apply orb_true_r].
Qed.

Lemma typeAt_alter (ds : list LineDeco) (i k : nat) :
  typeAt (alter setProcessed i ds) k = typeAt ds k.
Proof.
  unfold typeAt. destruct (decide (i = k)) as [->|Hne].
  - rewrite list_lookup_alter_eq. destruct (ds !! k); reflexivity.
  - rewrite list_lookup_alter_ne by assumption. reflexivity.
Qed.

Lemma textAt_alter (ds : list LineDeco) (i k : nat) :
  textAt (alter setProcessed i ds) k = textAt ds k.
Proof.
  unfold textAt. destruct (decide (i = k)) as [->|Hne].
  - rewrite list_lookup_alter_eq. destruct (ds !! k); reflexivity.
  - rewrite list_lookup_alter_ne by assumption. reflexivity.
Qed.

Lemma typeAt_markAll (g : list nat) (ds : list LineDeco) (k : nat) :
  typeAt (markAll g ds) k = typeAt ds k.
Proof.
  unfold markAll. revert ds. induction g as [|i g IH]; intros ds; simpl.
  - reflexivity.
  - rewrite IH. apply typeAt_alter.
Qed.

Lemma textAt_markAll (g : list nat) (ds : list LineDeco) (k : nat) :
  textAt (markAll g ds) k = textAt ds k.
Proof.
  unfold markAll. revert ds. induction g as [|i g IH]; intros ds; simpl.
  - reflexivity.
  - rewrite IH. apply textAt_alter.
Qed.

Lemma wellFormedBlock_ext (ds decos : list LineDeco) (b : Block) :
  (forall k, typeAt ds k = typeAt decos k) ->
  (forall k, textAt ds k = textAt decos k) ->
  wellFormedBlock ds b -> wellFormedBlock decos b.
Proof.
  intros Hty Htx (first & nl & j & nr & H).
  exists first, nl, j, nr. rewrite <- !Hty, <- Htx.
  destruct H as (H1 & H2 & H3 & H4 & H5 & H6 & H7 & H8).
  repeat split; auto.
  - intros k Hk. rewrite <- Hty. auto.
  - intros k Hk. rewrite <- Hty. auto.
Qed.

Lemma isMarker_true (d : LineDeco) :
  isMarker d = true ->
  type d = Character /\ endsWith (text d) (str "^") = true
  /\ isDualProcessed d = false.
Proof.
  unfold isMarker, isType. intros H.
  apply andb_true_iff in H as [H H3]. apply andb_true_iff in H as [H1 H2].
  apply bool_decide_eq_true in H1. apply negb_true_iff in H3. auto.
Qed.

(** A step of the second loop keeps the lines as they are, flags apart,
    and adds well-formed blocks only. *)
Lemma dualStep_invariant (decos ds ds' : list LineDeco)
  (blocks blocks' : list Block) (j : nat) :
  (forall k, typeAt ds k = typeAt decos k) ->
  (forall k, textAt ds k = textAt decos k) ->
  Forall (wellFormedBlock decos) blocks ->
  dualStep (ds, blocks) j = (ds', blocks') ->
  (forall k, typeAt ds' k = typeAt decos k)
  /\ (forall k, textAt ds' k = textAt decos k)
  /\ Forall (wellFormedBlock decos) blocks'.
Proof.
  intros Hty Htx Hb. unfold dualStep.
  destruct (ds !! j) as [d|] eqn:Hd; [|intros [= <- <-]; auto].
  destruct (isMarker d) eqn:Hm; [|intros [= <- <-]; auto].
  destruct (pairAt ds j) as [[b mid]|] eqn:Hp; [|intros [= <- <-]; auto].
  intros [= <- <-].
  apply isMarker_true in Hm as (Hc & He & _).
  pose proof (pairAt_wellFormed _ _ _ _ _ Hd Hc He Hp) as Hw.
  repeat split.
  - intros k. rewrite !typeAt_markAll. apply Hty.
  - intros k. rewrite !textAt_markAll. apply Htx.
  - apply Forall_app. split; [assumption|].
    constructor; [|constructor].
    eapply wellFormedBlock_ext; eauto.
Qed.

Lemma dualSteps_invariant (decos : list LineDeco) (js : list nat)
  (ds : list LineDeco) (blocks : list Block) :
  (forall k, typeAt ds k = typeAt decos k) ->
  (forall k, textAt ds k = textAt decos k) ->
  Forall (wellFormedBlock decos) blocks ->
  Forall (wellFormedBlock decos) (fold_left dualStep js (ds, blocks)).2.
Proof.
  revert ds blocks. induction js as [|j js IH]; intros ds blocks Hty Htx Hb.
  - exact Hb.
  - cbn [fold_left].
    destruct (dualStep (ds, blocks) j) as [ds' blocks'] eqn:E.
    destruct (dualStep_invariant _ _ _ _ _ _ Hty Htx Hb E) as (H1 & H2 & H3).
    apply IH; assumption.
Qed.

Lemma dualPass_wellFormed (decos : list LineDeco) :
  Forall (wellFormedBlock decos) (dualPass decos).2.
Proof. apply dualSteps_invariant; auto. Qed.

(** A search to the left that meets a breaking line before any cue gives
    the pairing up. *)
Lemma pairAt_breaker (ds : list LineDeco) (j p : nat) (t : LineType) :
  p < j -> typeAt ds p = Some t -> breaksBlock t = true ->
  (forall k, p < k < j ->
     exists t', typeAt ds k = Some t' /\ t' <> Character) ->
  pairAt ds j = None.
Proof.
  intros Hp Ht Hbr Hbetween. unfold pairAt.
  destruct (gatherMiddle_spec ds j []) as (n & EM & Hn & Hm).
  destruct (gatherLeft_spec ds n []) as (n' & EL & Hn' & Hl).
  rewrite EM, EL, !app_nil_r.
  assert (Hpn : p < n).
  { destruct (decide (p < n)) as [|Hge]; auto.
    rewrite (Hm p) in Ht by lia. injection Ht as <-. discriminate Hbr. }
  assert (Hpn' : p < n').
  { destruct (decide (p < n')) as [|Hge]; auto.
    destruct (Hl p ltac:(lia)) as (t0 & Ht0 & Hin).
    rewrite Ht in Ht0. injection Ht0 as <-.
    apply inBlockType_not_breaker in Hin. congruence. }
  destruct (n - n') as [|nl] eqn:Enl; simpl seq; [reflexivity|].
  destruct (Hbetween n' ltac:(lia)) as (t' & Ht' & Hne).
  unfold typeAt in Ht'. destruct (ds !! n') as [d0|]; [|reflexivity].
  simpl in Ht'. injection Ht' as ->.
  destruct (ds !! List.last _ _); [|reflexivity].
  unfold isType. rewrite bool_decide_eq_false_2 by assumption. reflexivity.
Qed.

Lemma last_seq (a n d : nat) : List.last (seq a (S n)) d = a + n.
Proof.
  rewrite seq_S, List.last_last. reflexivity.
Qed.

(** A line that is neither of a speech nor empty ends the right group:
    what comes after it plays no part. *)
Lemma gatherRight_breaker (r1 r2 : list LineDeco) (d : LineDeco) (k : nat)
  (acc : list nat) :
  isSpeech (type d) = false -> isType (type d) Empty = false ->
  gatherRight (r1 ++ d :: r2) k acc = gatherRight r1 k acc.
Proof.
  intros Hs He. revert k acc.
  induction r1 as [|x r1 IH]; intros k acc.
  - simpl. rewrite Hs, He. reflexivity.
  - assert (Hnext : match r1 ++ d :: r2 with
                    | d' :: _ => isSpeech (type d')
                    | [] => false
                    end
                    = match r1 with
                      | d' :: _ => isSpeech (type d')
                      | [] => false
                      end).
    { destruct r1; simpl; auto. }
    change ((x :: r1) ++ d :: r2) with (x :: (r1 ++ d :: r2)).
    cbn [gatherRight]. rewrite Hnext, !IH. reflexivity.
Qed.

(** The searches to the left look at the lines before the marker only. *)
Lemma gatherMiddle_ext (ds ds' : list LineDeco) (n : nat) (acc : list nat) :
  (forall i, i < n -> typeAt ds i = typeAt ds' i) ->
  gatherMiddle ds n acc = gatherMiddle ds' n acc.
Proof.
  revert acc. induction n as [|m IH]; intros acc H; simpl; [reflexivity|].
  rewrite <- (H m) by lia.
  destruct (typeAt ds m) as [t|]; [|reflexivity].
  destruct (isType t Empty); [|reflexivity].
  apply IH. intros i Hi. apply H. lia.
Qed.

Lemma gatherLeft_ext (ds ds' : list LineDeco) (n : nat) (acc : list nat) :
  (forall i, i < n -> typeAt ds i = typeAt ds' i) ->
  gatherLeft ds n acc = gatherLeft ds' n acc.
Proof.
  revert acc. induction n as [|m IH]; intros acc H; simpl; [reflexivity|].
  rewrite <- (H m) by lia.
  assert (IH' : forall acc', gatherLeft ds m acc' = gatherLeft ds' m acc').
  { intros acc'. apply IH. intros i Hi. apply H. lia. }
  destruct (typeAt ds m) as [t|]; [|reflexivity].
  destruct (isSpeech t); [apply IH'|].
  destruct (isType t Character); [reflexivity|].
  destruct m as [|q]; [rewrite !andb_false_r; reflexivity|].
  rewrite <- (H q) by lia. rewrite IH'. reflexivity.
Qed.

(** The pairing attempt at [j] reads the lines before [m] only, when the
    right group ends before [m]. *)
Lemma pairAt_ext (ds ds' : list LineDeco) (j m : nat) :
  (forall i, i < m -> ds !! i = ds' !! i) -> j < m ->
  gatherRight (drop (S j) ds) (S j) [j]
  = gatherRight (drop (S j) ds') (S j) [j] ->
  List.last (gatherRight (drop (S j) ds) (S j) [j]) j < m ->
  pairAt ds j = pairAt ds' j.
Proof.
  intros Hlk Hj HR Hlast. unfold pairAt. rewrite <- HR.
  assert (Hty : forall i, i < j -> typeAt ds i = typeAt ds' i).
  { intros i Hi. unfold typeAt. rewrite Hlk by lia. reflexivity. }
  rewrite <- (gatherMiddle_ext ds ds' j [] Hty).
  destruct (gatherMiddle_spec ds j []) as (n & EM & Hn & _).
  rewrite EM.
  rewrite <- (gatherLeft_ext ds ds' n []) by (intros i Hi; apply Hty; lia).
  destruct (gatherLeft_spec ds n []) as (n' & EL & Hn' & _).
  rewrite EL, app_nil_r.
  destruct (n - n') as [|nl] eqn:Enl; simpl seq; [reflexivity|].
  lazy beta iota.
  rewrite <- (Hlk n') by lia. rewrite <- (Hlk _ Hlast). reflexivity.
Qed.

(** A breaking line to the right of the marker: the pairing attempt is
    what it is on the lines before the breaking line. *)
Lemma pairAt_breaker_right (ds : list LineDeco) (j p : nat) (t : LineType) :
  j < p -> typeAt ds p = Some t -> breaksBlock t = true ->
  pairAt ds j = pairAt (take p ds) j.
Proof.
  intros Hj Ht Hb. unfold typeAt in Ht.
  destruct (ds !! p) as [d|] eqn:Hd; [|discriminate].
  simpl in Ht. injection Ht as <-.
  pose proof (lookup_lt_Some _ _ _ Hd) as Hp.
  assert (Hsplit : drop (S j) ds
                   = drop (S j) (take p ds) ++ d :: drop (S p) ds).
  { rewrite <- (take_drop p ds) at 1. rewrite drop_app_le
      by (rewrite length_take; lia).
    rewrite (drop_S _ _ _ Hd). reflexivity. }
  assert (HR : gatherRight (drop (S j) ds) (S j) [j]
               = gatherRight (drop (S j) (take p ds)) (S j) [j]).
  { rewrite Hsplit. apply gatherRight_breaker.
    - destruct (type d); try discriminate Hb; reflexivity.
    - destruct (type d); try discriminate Hb; reflexivity. }
  apply (pairAt_ext ds (take p ds) j p).
  - intros i Hi. rewrite lookup_take_lt by lia. reflexivity.
  - exact Hj.
  - exact HR.
  - rewrite HR.
    destruct (gatherRight_spec (drop (S j) (take p ds)) (S j) [j])
      as (n & E & Hn & _).
    rewrite E. change ([j] ++ seq (S j) n) with (seq j (S n)).
    rewrite last_seq. rewrite length_drop, length_take in Hn. lia.
Qed.

(** Whether the pairing attempt succeeds is decided by the lines up to the
    marker. *)
Lemma pairAt_success (ds ds' : list LineDeco) (j : nat) :
  j < length ds' -> (forall i, i <= j -> ds !! i = ds' !! i) ->
  is_Some (pairAt ds j) -> is_Some (pairAt ds' j).
Proof.
  intros Hj Hlk. unfold pairAt.
  assert (Hty : forall i, i < j -> typeAt ds i = typeAt ds' i).
  { intros i Hi. unfold typeAt. rewrite Hlk by lia. reflexivity. }
  rewrite <- (gatherMiddle_ext ds ds' j [] Hty).
  destruct (gatherMiddle_spec ds j []) as (n & EM & Hn & _).
  rewrite EM.
  rewrite <- (gatherLeft_ext ds ds' n []) by (intros i Hi; apply Hty; lia).
  destruct (gatherLeft_spec ds n []) as (n' & EL & Hn' & _).
  rewrite EL, app_nil_r.
  destruct (n - n') as [|nl] eqn:Enl; simpl seq; [auto|].
  lazy beta iota.
  rewrite <- (Hlk n') by lia.
  destruct (ds !! n') as [d0|]; [|intros [x Hx]; discriminate Hx].
  destruct (gatherRight_spec (drop (S j) ds') (S j) [j])
    as (nr & ER & Hnr & _).
  rewrite ER. change ([j] ++ seq (S j) nr) with (seq j (S nr)).
  rewrite last_seq. rewrite length_drop in Hnr.
  destruct (lookup_lt_is_Some_2 ds' (j + nr) ltac:(lia)) as (dl' & ->).
  destruct (ds !! List.last _ _);
    [|intros [x Hx]; discriminate Hx].
  destruct (isType (type d0) Character);
    [eauto | intros [x Hx]; discriminate Hx].
Qed.

End EditorBlocks.

(** ** Dual-dialogue blocks of the two assemblers *)

Section DualBlocks.
Import Patterns Partition EditorSpec Examples.

Lemma assemble_covers (lines : list Preview.FountainLine)
  (nodes : list Preview.RenderNode) :
  Preview.assemble lines = Some nodes -> Forall (covers lines) nodes.
Proof.
  intros E. destruct (assemble_tiled lines) as (nodes' & E' & Ht).
  rewrite E in E'. injection E' as <-. eapply tiled_covers. exact Ht.
Qed.

Lemma group_not_breaker (m : bool) (g : list Preview.FountainLine) :
  isGroup m g ->
  Forall (fun l => breaksBlock (Preview.type l) = false) g.
Proof.
  intros (c & rest & -> & Hc & _ & Hrest). constructor.
  - rewrite Hc. reflexivity.
  - eapply Forall_impl; [exact Hrest|]. intros l Hl. simpl in Hl.
    unfold continues, Preview.continuesBlock in Hl.
    destruct (Preview.type l); simpl in *; auto; discriminate.
Qed.

Lemma gap_not_breaker (gap : list Preview.FountainLine) :
  Forall isEmptyLine gap ->
  Forall (fun l => breaksBlock (Preview.type l) = false) gap.
Proof.
  intros H. eapply Forall_impl; [exact H|]. intros l Hl. simpl in Hl.
  unfold isEmptyLine in Hl. rewrite Hl. reflexivity.
Qed.

(** C3, as the code has it: in a dual block of either assembler, the left
    group starts with a [Character] line and the right group starts with a
    [Character] line whose text ends with the caret.  Nothing is required
    of the text of the left cue. *)
Theorem dual_block_groups_start_with_cues :
  (forall lines nodes from to leftLines rightLines,
     Preview.assemble lines = Some nodes ->
     In (Preview.DualBlock from to leftLines rightLines) nodes ->
     (exists l rest,
        leftLines = l :: rest /\ Preview.type l = Character)
     /\ (exists r rest,
           rightLines = r :: rest /\ Preview.type r = Character
           /\ endsWith (Preview.text r) (str "^") = true))
  /\ (forall decos b,
        In b (Editor.dualPass decos).2 ->
        exists first restL j restR,
          Editor.leftBlock b = first :: restL
          /\ Editor.typeAt decos first = Some Character
          /\ Editor.rightBlock b = j :: restR
          /\ Editor.typeAt decos j = Some Character
          /\ exists t, textAt decos j = Some t
                       /\ endsWith t (str "^") = true).
Proof.
  split.
  - intros lines nodes from to L R E Hin.
    pose proof (assemble_covers _ _ E) as Hc.
    rewrite List.Forall_forall in Hc. specialize (Hc _ Hin).
    destruct Hc as (gap & _ & _ & _ & HL & HR).
    destruct HL as (l & restL & -> & Hl & _).
    destruct HR as (r & restR & -> & Hr & Hm & _).
    split; [exists l, restL | exists r, restR]; auto.
  - intros decos b Hin.
    pose proof (dualPass_wellFormed decos) as Hw.
    rewrite List.Forall_forall in Hw. specialize (Hw _ Hin).
    destruct Hw as (first & nl & j & nr & HL & HR & _ & H1 & H2 & H3 & _).
    exists first, (seq (S first) nl), j, (seq (S j) nr).
    rewrite HL, HR. simpl. auto.
Qed.

Lemma dual_block_groups_start_with_cues_witness :
  exists l rest,
    [Preview.mkLine Character (str "JOHN") (str "JOHN");
     Preview.mkLine Dialogue (str "Hi!") (str "Hi!")] = l :: rest
    /\ Preview.type l = Character.
Proof.
  destruct dual_block_groups_start_with_cues as [H _].
  refine (proj1
    (H (Preview.parseFountain (textOf sixLines))
       [Preview.SingleLine 0 (Preview.mkLine Empty [] []);
        Preview.DualBlock 1 6
          [Preview.mkLine Character (str "JOHN") (str "JOHN");
           Preview.mkLine Dialogue (str "Hi!") (str "Hi!")]
          [Preview.mkLine Character (str "JANE^") (str "JANE^");
           Preview.mkLine Dialogue (str "Hey!") (str "Hey!")]]
       1 6 _ _ _ _)).
  - vm_compute. reflexivity.
  - right. left. reflexivity.
Defined.

(** C3, on the left cue: with a caret on both cues, both assemblers pair
    the groups, and the left group starts with a line that ends with the
    caret. *)
Lemma left_cue_may_end_with_caret :
  Preview.assemble (Preview.parseFountain (textOf twoCarets))
  = Some [Preview.SingleLine 0 (Preview.mkLine Empty [] []);
          Preview.DualBlock 1 6
            [Preview.mkLine Character (str "JOHN^") (str "JOHN^");
             Preview.mkLine Dialogue (str "Hi!") (str "Hi!")]
            [Preview.mkLine Character (str "JANE^") (str "JANE^");
             Preview.mkLine Dialogue (str "Hey!") (str "Hey!")]]
  /\ endsWith (str "JOHN^") (str "^") = true
  /\ map Editor.leftBlock (Editor.dualPass (Editor.classify twoCarets)).2
     = [[1; 2]]
  /\ textAt (Editor.classify twoCarets) 1 = Some (str "JOHN^").
Proof. repeat split; vm_compute; reflexivity. Qed.

(** C8, as the code has it.  In the editor, every line from the first of
    the left group to the last of the right group of a block is a
    [Character], [Dialogue], [Parenthetical] or [Empty] line, never a
    breaking one; and when, to the left of a marker, a breaking line comes
    before any cue, the step for that marker changes nothing: no block, no
    flag.  In the static preview, no line a dual block steps over is a
    breaking one.  To the right of a marker, a breaking line only ends the
    right group: the pairing attempt gives what it gives on the lines
    before the breaking line, and whether it succeeds is decided by the
    lines up to the marker, whatever follows. *)
Theorem dual_block_never_spans_breaker :
  (forall decos b,
     In b (Editor.dualPass decos).2 ->
     exists first nl j nr,
       Editor.leftBlock b = seq first (S nl)
       /\ Editor.rightBlock b = seq j (S nr)
       /\ first + nl < j
       /\ forall k, first <= k <= j + nr ->
            exists t, Editor.typeAt decos k = Some t
                      /\ inBlockType t = true /\ breaksBlock t = false)
  /\ (forall decos blocks j p t,
        p < j ->
        Editor.typeAt decos p = Some t -> breaksBlock t = true ->
        (forall k, p < k < j ->
           exists t', Editor.typeAt decos k = Some t' /\ t' <> Character) ->
        Editor.dualStep (decos, blocks) j = (decos, blocks))
  /\ (forall lines nodes from to leftLines rightLines,
        Preview.assemble lines = Some nodes ->
        In (Preview.DualBlock from to leftLines rightLines) nodes ->
        forall k, from <= k < to ->
          exists l, lines !! k = Some l
                    /\ breaksBlock (Preview.type l) = false)
  /\ (forall decos j p t,
        j < p ->
        Editor.typeAt decos p = Some t -> breaksBlock t = true ->
        Editor.pairAt decos j = Editor.pairAt (take p decos) j)
  /\ (forall decos decos' j,
        j < length decos ->
        take (S j) decos = take (S j) decos' ->
        (is_Some (Editor.pairAt decos j)
         <-> is_Some (Editor.pairAt decos' j))).
Proof.
  split; [|split; [|split; [|split]]].
  - intros decos b Hin.
    pose proof (dualPass_wellFormed decos) as Hw.
    rewrite List.Forall_forall in Hw. specialize (Hw _ Hin).
    destruct Hw as (first & nl & j & nr & HL & HR & Hlt & _ & _ & _ & _ & Hs).
    exists first, nl, j, nr. repeat split; auto.
    intros k Hk. destruct (Hs k Hk) as (t & Ht & Hin').
    exists t. repeat split; auto. apply inBlockType_not_breaker; auto.
  - intros decos blocks j p t Hp Ht Hb Hbetween. unfold Editor.dualStep.
    rewrite (pairAt_breaker decos j p t Hp Ht Hb Hbetween).
    destruct (decos !! j) as [d|]; [|reflexivity].
    destruct (Editor.isMarker d); reflexivity.
  - intros lines nodes from to L R E Hin k Hk.
    pose proof (assemble_covers _ _ E) as Hc.
    rewrite List.Forall_forall in Hc. specialize (Hc _ Hin).
    destruct Hc as (gap & Et & Eto & Hg & HL & HR).
    assert (HF : Forall (fun l => breaksBlock (Preview.type l) = false)
                   (L ++ gap ++ R)).
    { rewrite !Forall_app. repeat split;
        eauto using group_not_breaker, gap_not_breaker. }
    rewrite <- Et in HF.
    assert (Hlen : length (take (to - from) (drop from lines)) = to - from).
    { rewrite Et, Eto. lia. }
    destruct (lookup_lt_is_Some_2 (take (to - from) (drop from lines))
                (k - from) ltac:(lia)) as (l & Hl).
    exists l. split.
    + rewrite lookup_take_lt, lookup_drop in Hl by lia.
      replace (from + (k - from)) with k in Hl by lia. exact Hl.
    + rewrite Forall_lookup in HF. eapply HF. exact Hl.
  - intros decos j p t. apply pairAt_breaker_right.
  - intros decos decos' j Hj Ht.
    assert (Hlk : forall i, i <= j -> decos !! i = decos' !! i).
    { intros i Hi.
      rewrite <- (lookup_take_lt decos (S j) i) by lia.
      rewrite <- (lookup_take_lt decos' (S j) i) by lia.
      rewrite Ht. reflexivity. }
    assert (Hj' : j < length decos').
    { apply (f_equal (@length _)) in Ht. rewrite !length_take in Ht. lia. }
    split; apply pairAt_success; auto.
    intros i Hi. symmetry. apply Hlk. exact Hi.
Qed.

Lemma dual_block_never_spans_breaker_witness :
  Editor.dualStep
    (Editor.classify (map str ["He walks."; ""; "JANE^"; "Hey!"]%string), [])
    2
  = (Editor.classify (map str ["He walks."; ""; "JANE^"; "Hey!"]%string), [])
  /\ Editor.pairAt (Editor.classify sceneAfter) 4
     = Editor.pairAt (take 6 (Editor.classify sceneAfter)) 4.
Proof.
  destruct dual_block_never_spans_breaker as (_ & H & _ & HR & _).
  split.
  - apply (H _ [] 2 0 Action).
    + lia.
    + reflexivity.
    + reflexivity.
    + intros k Hk. assert (k = 1) as -> by lia.
      exists Empty. split; [reflexivity | discriminate].
  - apply (HR _ 4 6 SceneHeading); [lia | reflexivity | reflexivity].
Defined.

(** C8, to the right: the search to the right of the marker [JANE^] stops
    at the scene heading of line 6, and the pairing goes through all the
    same: one block, five lines marked. *)
Lemma breaker_on_the_right_does_not_abort :
  Editor.typeAt (Editor.classify sceneAfter) 6 = Some SceneHeading
  /\ Editor.gatherRight (drop 5 (Editor.classify sceneAfter)) 5 [4] = [4; 5]
  /\ (Editor.dualPass (Editor.classify sceneAfter)).2
     = [Editor.mkBlock 1 21 [1; 2] [4; 5]]
  /\ map Editor.isDualProcessed
       (Editor.dualPass (Editor.classify sceneAfter)).1
     = [false; true; true; true; true; true; false]
  /\ Editor.dualStep (Editor.classify sceneAfter, []) 4
     <> (Editor.classify sceneAfter, []).
Proof.
  repeat split; try (vm_compute; reflexivity).
  vm_compute. discriminate.
Qed.

End DualBlocks.

(** ** The example of the specification *)

Section SixLines.
Import Patterns Partition EditorSpec Examples.

(** C1, as the code has it: on the six lines, the editor pairs one block,
    with [JOHN], [Hi!] on the left and [JANE^], [Hey!] on the right; the
    four lines that are not empty and the empty line between the two cues
    are marked (five lines), the leading empty line is not.  The static
    preview builds the same block after a single node for the leading
    empty line. *)
Theorem six_lines_make_one_dual_block :
  map Editor.type (Editor.classify sixLines)
  = [Empty; Character; Dialogue; Empty; Character; Dialogue]
  /\ (Editor.dualPass (Editor.classify sixLines)).2
     = [Editor.mkBlock 1 21 [1; 2] [4; 5]]
  /\ Editor.widgetLines (Editor.classify sixLines) [1; 2]
     = [(Character, str "JOHN"); (Dialogue, str "Hi!")]
  /\ Editor.widgetLines (Editor.classify sixLines) [4; 5]
     = [(Character, str "JANE^"); (Dialogue, str "Hey!")]
  /\ map Editor.isDualProcessed
       (Editor.dualPass (Editor.classify sixLines)).1
     = [false; true; true; true; true; true]
  /\ Preview.assemble (Preview.parseFountain (textOf sixLines))
     = Some [Preview.SingleLine 0 (Preview.mkLine Empty [] []);
             Preview.DualBlock 1 6
               [Preview.mkLine Character (str "JOHN") (str "JOHN");
                Preview.mkLine Dialogue (str "Hi!") (str "Hi!")]
               [Preview.mkLine Character (str "JANE^") (str "JANE^");
                Preview.mkLine Dialogue (str "Hey!") (str "Hey!")]].
Proof. repeat split; vm_compute; reflexivity. Qed.

(** C1, on the count: the six lines hold four lines that are not empty,
    not five; the fifth marked line is the empty line of index 3. *)
Lemma six_lines_have_four_nonempty_lines :
  length (List.filter (fun d => negb (isType (Editor.type d) Empty))
            (Editor.dualPass (Editor.classify sixLines)).1) = 4
  /\ ~ (length (List.filter (fun d => negb (isType (Editor.type d) Empty))
                  (Editor.dualPass (Editor.classify sixLines)).1) = 5)
  /\ Editor.typeAt (Editor.dualPass (Editor.classify sixLines)).1 3
     = Some Empty
  /\ flagAt (Editor.dualPass (Editor.classify sixLines)).1 3 = Some true.
Proof.
  repeat split; try (vm_compute; reflexivity).
  vm_compute. discriminate.
Qed.

End SixLines.

(** ** Every line is covered *)

Section Coverage.
Import Patterns Partition Editor EditorSpec.

Lemma pairAt_middle (ds : list LineDeco) (j : nat) (b : Block)
  (mid : list nat) :
  pairAt ds j = Some (b, mid) ->
  forall k, In k mid -> typeAt ds k = Some Empty.
Proof.
  unfold pairAt.
  destruct (gatherMiddle_spec ds j []) as (n & EM & Hn & Hm).
  rewrite EM, app_nil_r.
  destruct (gatherLeft ds n []) as [|first rest]; [discriminate|].
  destruct (ds !! first) as [d0|]; [|discriminate].
  destruct (ds !! List.last _ _) as [dl|]; [|discriminate].
  destruct (isType (type d0) Character); [|discriminate].
  intros [= _ <-] k Hk. apply in_seq in Hk. apply Hm. lia.
Qed.

Lemma flagAt_alter (ds : list LineDeco) (i k : nat) :
  flagAt (alter setProcessed i ds) k = Some true ->
  flagAt ds k = Some true \/ k = i.
Proof.
  unfold flagAt. destruct (decide (i = k)) as [->|Hne]; auto.
  rewrite list_lookup_alter_ne by assumption. auto.
Qed.

Lemma flagAt_markAll (g : list nat) (ds : list LineDeco) (k : nat) :
  flagAt (markAll g ds) k = Some true ->
  flagAt ds k = Some true \/ In k g.
Proof.
  unfold markAll. revert ds. induction g as [|i g IH]; intros ds; simpl.
  - auto.
  - intros H. destruct (IH _ H) as [H'|H']; auto.
    destruct (flagAt_alter _ _ _ H'); auto.
Qed.

(** A marked line is an empty line or a line of a group of a block. *)
Lemma dualSteps_flags (decos : list LineDeco) (js : list nat)
  (ds : list LineDeco) (blocks : list Block) :
  (forall k, typeAt ds k = typeAt decos k) ->
  (forall k, flagAt ds k = Some true ->
     typeAt decos k = Some Empty \/ exists b, In b blocks /\ inGroups k b) ->
  forall k,
    flagAt (fold_left dualStep js (ds, blocks)).1 k = Some true ->
    typeAt decos k = Some Empty
    \/ exists b, In b (fold_left dualStep js (ds, blocks)).2 /\ inGroups k b.
Proof.
  revert ds blocks. induction js as [|j js IH]; intros ds blocks Hty Hfl.
  - exact Hfl.
  - cbn [fold_left]. unfold dualStep at 2 4.
    destruct (ds !! j) as [d|] eqn:Hd; [|apply IH; assumption].
    destruct (isMarker d) eqn:Hm; [|apply IH; assumption].
    destruct (pairAt ds j) as [[b mid]|] eqn:Hp; [|apply IH; assumption].
    apply IH.
    + intros k. rewrite !typeAt_markAll. apply Hty.
    + intros k Hk.
      apply flagAt_markAll in Hk as [Hk|Hk];
        [|right; exists b; split; [apply in_or_app; right; left; reflexivity
                                  | right; exact Hk]].
      apply flagAt_markAll in Hk as [Hk|Hk];
        [|left; rewrite <- Hty; eapply pairAt_middle; eauto].
      apply flagAt_markAll in Hk as [Hk|Hk];
        [|right; exists b; split; [apply in_or_app; right; left; reflexivity
                                  | left; exact Hk]].
      destruct (Hfl k Hk) as [He|(b' & Hb' & Hin)]; auto.
      right. exists b'. split; [apply in_or_app; left|]; assumption.
Qed.

Lemma classifyDoc_flags (st : State) (i pos : nat) (doc : list jstr)
  (k : nat) :
  flagAt (classifyDoc st i pos doc) k <> Some true.
Proof.
  revert st i pos k. induction doc as [|txt doc IH]; intros st i pos k; simpl.
  - unfold flagAt. rewrite lookup_nil. discriminate.
  - destruct (classifyLine st txt) as [st' ty].
    destruct k as [|k]; [discriminate|]. apply IH.
Qed.

Lemma lineDecorations_filter (ds : list LineDeco) :
  lineDecorations ds = map lineClass (List.filter decorated ds).
Proof.
  unfold lineDecorations. induction ds as [|d ds IH]; [reflexivity|].
  cbn [List.filter]. unfold decorated at 1.
  change (omap ?f (d :: ds)) with
    (match f d with Some y => y :: omap f ds | None => omap f ds end).
  cbv beta. destruct (isDualProcessed d); [exact IH|].
  destruct (isType (type d) Empty); [exact IH|].
  simpl. f_equal. exact IH.
Qed.

Lemma dualSteps_types (decos : list LineDeco) (js : list nat)
  (ds : list LineDeco) (blocks : list Block) :
  (forall k, typeAt ds k = typeAt decos k) ->
  forall k, typeAt (fold_left dualStep js (ds, blocks)).1 k = typeAt decos k.
Proof.
  revert ds blocks. induction js as [|j js IH]; intros ds blocks Hty.
  - exact Hty.
  - cbn [fold_left]. unfold dualStep at 2.
    destruct (ds !! j) as [d|]; [|apply IH; assumption].
    destruct (isMarker d); [|apply IH; assumption].
    destruct (pairAt ds j) as [[b mid]|]; [|apply IH; assumption].
    apply IH. intros k. rewrite !typeAt_markAll. apply Hty.
Qed.

(** In the editor, a marked line that is not [Empty] is in a group of a
    block. *)
Lemma marked_line_is_in_a_group (doc : list jstr) (k : nat) (d : LineDeco) :
  (dualPass (classify doc)).1 !! k = Some d ->
  isDualProcessed d = true -> type d <> Empty ->
  exists b, In b (dualPass (classify doc)).2 /\ inGroups k b.
Proof.
  intros Hd Hf Hne. unfold dualPass in *.
  assert (Hk : flagAt (fold_left dualStep (seq 0 (length (classify doc)))
                         (classify doc, [])).1 k = Some true).
  { unfold flagAt. rewrite Hd. simpl. congruence. }
  apply (dualSteps_flags (classify doc)) in Hk; auto.
  + destruct Hk as [He|Hb]; auto. exfalso.
    pose proof (dualSteps_types (classify doc)
                  (seq 0 (length (classify doc))) (classify doc) []) as Hty.
    specialize (Hty (fun _ => eq_refl) k).
    unfold typeAt in Hty, He. rewrite Hd in Hty. simpl in Hty.
    rewrite <- Hty in He. injection He as He. contradiction.
  + intros k' Hk'. exfalso. eapply classifyDoc_flags. exact Hk'.
Qed.

Lemma tiled_from (lines : list Preview.FountainLine) (i : nat)
  (nodes : list Preview.RenderNode) (idx : nat) (n : Preview.RenderNode) :
  tiled lines i nodes -> nodes !! idx = Some n -> i <= Preview.nodeFrom n.
Proof.
  revert i idx. induction nodes as [|m nodes IH]; intros i idx Ht Hn.
  - discriminate Hn.
  - destruct Ht as (Hfrom & Hlt & _ & Ht). destruct idx as [|idx].
    + injection Hn as <-. lia.
    + specialize (IH _ _ Ht Hn). lia.
Qed.

(** Nodes that step over the lines one after the other: every line from
    [i] on is in the range of one node, and of no other. *)
Lemma tiled_exactly_one (lines : list Preview.FountainLine) (i : nat)
  (nodes : list Preview.RenderNode) :
  tiled lines i nodes ->
  forall k, i <= k < length lines ->
    exists idx n,
      nodes !! idx = Some n /\ inRange k n
      /\ forall idx' n',
           nodes !! idx' = Some n' -> inRange k n' -> idx' = idx.
Proof.
  revert i. induction nodes as [|m nodes IH]; intros i Ht k Hk.
  - simpl in Ht. lia.
  - destruct Ht as (Hfrom & Hlt & _ & Ht).
    destruct (decide (k < Preview.nodeTo m)) as [Hin|Hout].
    + exists 0, m. split; [reflexivity|]. split; [unfold inRange; lia|].
      intros [|idx'] n' Hn' Hr; [reflexivity|]. exfalso.
      pose proof (tiled_from _ _ _ _ _ Ht Hn'). unfold inRange in Hr. lia.
    + destruct (IH _ Ht k ltac:(lia)) as (idx & n & Hn & Hr & Hu).
      exists (S idx), n. split; [exact Hn|]. split; [exact Hr|].
      intros [|idx'] n' Hn' Hr'.
      * injection Hn' as <-. unfold inRange in Hr'. lia.
      * f_equal. apply (Hu idx' n'); assumption.
Qed.

(** C2: the partition law in the two assemblers.  In the static preview
    it holds for every input: the nodes step over the classified lines from
    the first to the last, each starting where the one before stopped, so
    that every line, the empty lines between the two cues of a pairing
    included, is in the range of exactly one node.  The editor breaks it
    on three speeches of which the second and the third carry a caret:
    the static preview pairs the first two and leaves the third alone,
    while the editor builds two blocks, the speech of [B^] being the right
    group of the first and again the left group of the second; the two
    ranges it replaces overlap, and the lines [B^] and [y] are drawn in
    both widgets. *)
Theorem editor_blocks_overlap :
  (forall lines,
     exists nodes,
       Preview.assemble lines = Some nodes
       /\ tiled lines 0 nodes
       /\ forall k, k < length lines ->
            exists idx n,
              nodes !! idx = Some n /\ inRange k n
              /\ forall idx' n',
                   nodes !! idx' = Some n' -> inRange k n' -> idx' = idx)
  /\ option_map (map (fun n => (Preview.nodeFrom n, Preview.nodeTo n)))
       (Preview.assemble
          (Preview.parseFountain (Examples.textOf Examples.threeSpeeches)))
     = Some [(0, 1); (1, 6); (6, 7); (7, 8); (8, 9)]
  /\ (dualPass (classify Examples.threeSpeeches)).2
     = [mkBlock 1 10 [1; 2] [4; 5]; mkBlock 6 16 [4; 5] [7; 8]]
  /\ Editor.buildDecorations Examples.threeSpeeches
     = [Replace 1 10
          (mkWidget [(Character, str "A"); (Dialogue, str "x")]
                    [(Character, str "B^"); (Dialogue, str "y")]);
        Replace 6 16
          (mkWidget [(Character, str "B^"); (Dialogue, str "y")]
                    [(Character, str "C^"); (Dialogue, str "z")])].
Proof.
  split; [|split; [|split]]; try (vm_compute; reflexivity).
  intros lines. destruct (assemble_tiled lines) as (nodes & E & Ht).
  exists nodes. split; [exact E|]. split; [exact Ht|].
  intros k Hk. apply (tiled_exactly_one lines 0 nodes Ht). lia.
Qed.

Lemma editor_blocks_overlap_witness :
  exists nodes idx n,
    Preview.assemble (Preview.parseFountain (Examples.textOf Examples.sixLines))
    = Some nodes
    /\ nodes !! idx = Some n /\ inRange 3 n.
Proof.
  destruct editor_blocks_overlap as [H _].
  destruct (H (Preview.parseFountain (Examples.textOf Examples.sixLines)))
    as (nodes & E & _ & Hk).
  destruct (Hk 3 ltac:(vm_compute; lia)) as (idx & n & Hn & Hr & _).
  exists nodes, idx, n. auto.
Defined.

End Coverage.

(** ** The test cases the specification lists *)

Section SpecExamples.
Import Patterns Preview Examples.

Example scene_heading_cases :
  sceneHeading (str "INT. KITCHEN - DAY") = true
  /\ sceneHeading (str ". KITCHEN") = true
  /\ sceneHeading (str ".. ELLIPSIS") = false.
Proof. repeat split; reflexivity. Qed.

Example character_then_dialogue :
  map type (parseFountain (textOf (map str [""; "JOHN"; "Hello there."]%string)))
  = [Empty; Character; Dialogue].
Proof. reflexivity. Qed.

Example parenthetical_in_action :
  map type
    (parseFountain (textOf (map str ["John walks in."; "(he is tired)"]%string)))
  = [Action; Action].
Proof. reflexivity. Qed.

Example two_spaces_inside_dialogue :
  map type
    (parseFountain
       (textOf (map str [""; "JOHN"; "Hi!"; "  "; "there"]%string)))
  = [Empty; Character; Dialogue; DialogueBlank; Dialogue]
  /\ length
       (collectDialogueBlock
          (parseFountain
             (textOf (map str [""; "JOHN"; "Hi!"; "  "; "there"]%string))) 1)
     = 4.
Proof. split; reflexivity. Qed.

Example six_lines_fragment :
  fountainToHTML (parseFountain (textOf sixLines))
  = Some (join ["010"]
            [emptyDiv; dualOpen;
             colOpen;
             str "<div class=" ++ [quote]
             ++ str "fountain-line fountain-character" ++ [quote]
             ++ str ">JOHN</div>";
             str "<div class=" ++ [quote]
             ++ str "fountain-line fountain-dialogue" ++ [quote]
             ++ str ">Hi!</div>";
             divClose;
             colOpen;
             str "<div class=" ++ [quote]
             ++ str "fountain-line fountain-character" ++ [quote]
             ++ str ">JANE</div>";
             str "<div class=" ++ [quote]
             ++ str "fountain-line fountain-dialogue" ++ [quote]
             ++ str ">Hey!</div>";
             divClose; divClose]).
Proof. vm_compute. reflexivity. Qed.

End SpecExamples.

(** * Further properties *)

(** ** [escapeHtml] *)

Section EscapeFacts.
Import Patterns Preview Shapes.

Lemma escapeChar_no_markup (c : ascii) :
  forallb (fun x => negb (isMarkup x)) (escapeChar c) = true.
Proof. destruct c as [[] [] [] [] [] [] [] []]; reflexivity. Qed.

(** X1: the escaped text holds no [<], no [>] and no double quote,
    whatever the text. *)
Theorem escapeHtml_no_markup (t : jstr) :
  forallb (fun x => negb (isMarkup x)) (escapeHtml t) = true.
Proof.
  rewrite escapeHtml_flat_map. induction t as [|c t IH]; simpl; auto.
  rewrite forallb_app, escapeChar_no_markup, IH. reflexivity.
Qed.

Lemma escapeChar_cases (c : ascii) :
  (escapeChar c = [c] /\ c <> "&")
  \/ (c = "&" /\ escapeChar c = str "&amp;")
  \/ (c = "<" /\ escapeChar c = str "&lt;")
  \/ (c = ">" /\ escapeChar c = str "&gt;")
  \/ (c = "034" /\ escapeChar c = str "&quot;").
Proof.
  destruct c as [[] [] [] [] [] [] [] []];
    first [ left; split; [reflexivity | discriminate]
          | right; left; split; reflexivity
          | right; right; left; split; reflexivity
          | right; right; right; left; split; reflexivity
          | right; right; right; right; split; reflexivity ].
Qed.

Lemma escapeChar_prefix_free (a b : ascii) (ra rb : jstr) :
  escapeChar a ++ ra = escapeChar b ++ rb -> a = b /\ ra = rb.
Proof.
  destruct (escapeChar_cases a)
    as [[Ea Ha]|[[Ha Ea]|[[Ha Ea]|[[Ha Ea]|[Ha Ea]]]]];
  destruct (escapeChar_cases b)
    as [[Eb Hb]|[[Hb Eb]|[[Hb Eb]|[[Hb Eb]|[Hb Eb]]]]];
  rewrite Ea, Eb; simpl; intros E; injection E; intros; subst;
    try congruence; auto.
Qed.

(** X2: [escapeHtml] loses nothing: two texts with the same escaped form
    are the same text. *)
Theorem escapeHtml_injective (a b : jstr) :
  escapeHtml a = escapeHtml b -> a = b.
Proof.
  rewrite !escapeHtml_flat_map. revert b.
  induction a as [|x a IH]; intros [|y b]; simpl; intros E.
  - reflexivity.
  - destruct (escapeChar_cases y)
      as [[Ey _]|[[_ Ey]|[[_ Ey]|[[_ Ey]|[_ Ey]]]]];
      rewrite Ey in E; discriminate E.
  - destruct (escapeChar_cases x)
      as [[Ex _]|[[_ Ex]|[[_ Ex]|[[_ Ex]|[_ Ex]]]]];
      rewrite Ex in E; discriminate E.
  - apply escapeChar_prefix_free in E as [-> E]. f_equal. apply IH, E.
Qed.

Lemma escapeHtml_injective_witness : str "a<b" = str "a<b".
Proof. apply (escapeHtml_injective (str "a<b") (str "a<b")). reflexivity. Defined.

End EscapeFacts.

(** ** The right column of a dual dialogue *)

Section RightColumn.
Import Patterns Preview.

Lemma matches_trailingCaret (b : jstr) :
  matches trailingCaret_re b <->
  exists u v, b = u ++ "^" :: v
              /\ forallb isSpace u = true /\ forallb isSpace v = true.
Proof.
  unfold trailingCaret_re. rewrite matches_Seq_inv. split.
  - intros (u & r & -> & Hu & H). apply matches_Star_Chr in Hu.
    apply matches_Seq_inv in H as (x & v & -> & Hx & Hv).
    apply matches_Lit in Hx as ->. apply matches_Star_Chr in Hv.
    exists u, v. auto.
  - intros (u & v & -> & Hu & Hv). exists u, ("^" :: v). repeat split.
    + apply matches_Star_Chr. assumption.
    + change ("^" :: v) with (str "^" ++ v). constructor.
      * apply matches_Lit. reflexivity.
      * apply matches_Star_Chr. assumption.
Qed.

Lemma split_at_nonspace (a u r v : jstr) (c x : ascii) :
  a ++ c :: r = u ++ x :: v ->
  forallb isSpace u = true -> forallb isSpace v = true ->
  isSpace c = false ->
  a = u /\ c = x /\ r = v.
Proof.
  revert u. induction a as [|e a IH]; intros [|d u] E Hu Hv Hc; simpl in *.
  - injection E as -> ->. auto.
  - injection E as -> _. apply andb_true_iff in Hu as [Hd _]. congruence.
  - injection E as -> <-. rewrite forallb_app in Hv. simpl in Hv.
    rewrite Hc, andb_false_r in Hv. discriminate Hv.
  - injection E as -> E. apply andb_true_iff in Hu as [_ Hu].
    destruct (IH u E Hu Hv Hc) as (-> & -> & ->). auto.
Qed.

(** [text.replace(/\s*\^\s*$/, '')] on a text whose last character that is
    not white space is a caret. *)
Lemma strip_trailingCaret (y w : jstr) :
  forallb isSpace w = true ->
  replace_suffix trailingCaret_re (y ++ "^" :: w) = trimEnd y.
Proof.
  intros Hw. destruct (trimEnd_split y) as (w0 & E & Hw0).
  rewrite E at 1. rewrite <- app_assoc.
  apply replace_suffix_leftmost.
  - apply matchb_spec, matches_trailingCaret. exists w0, w. auto.
  - intros i Hi. apply not_true_is_false. intros H.
    apply matchb_spec, matches_trailingCaret in H as (u & v & Eq & Hu & Hv).
    destruct (trimEnd_last y) as [En|(a & c & Ea & Hc)].
    + rewrite En in Hi. simpl in Hi. lia.
    + rewrite Ea in *. rewrite length_app in Hi. simpl in Hi.
      rewrite drop_app_le in Eq by lia. rewrite <- app_assoc in Eq.
      simpl in Eq.
      apply split_at_nonspace in Eq as (_ & _ & Ev); auto.
      rewrite <- Ev, forallb_app in Hv. simpl in Hv.
      rewrite andb_false_r in Hv. discriminate Hv.
Qed.

Lemma strip_trailingCaret_none (t : jstr) :
  forallb (fun c => negb (Ascii.eqb c "^")) t = true ->
  replace_suffix trailingCaret_re t = t.
Proof.
  intros Ht. apply replace_suffix_none. intros i.
  apply not_true_is_false. intros H.
  apply matchb_spec, matches_trailingCaret in H as (u & v & Eq & _ & _).
  assert (Hin : In "^" t).
  { rewrite <- (take_drop i t), Eq. apply in_or_app. right.
    apply in_or_app. right. left. reflexivity. }
  rewrite forallb_forall in Ht. specialize (Ht _ Hin). discriminate Ht.
Qed.

(** X3: in the right column of a dual dialogue, a cue is displayed without
    its caret and without the white space around the caret, and every
    other line is rendered as anywhere else.  Outside the right column
    [renderLine] displays the text of a cue as it is, caret included. *)
Theorem right_column_hides_caret :
  (forall y w raw,
     forallb isSpace w = true ->
     renderRight (mkLine Character (y ++ "^" :: w) raw)
     = renderLine (mkLine Character (trimEnd y) raw))
  /\ (forall dl, type dl <> Character -> renderRight dl = renderLine dl)
  /\ (forall t raw,
        forallb (fun c => negb (Ascii.eqb c "^")) t = true ->
        renderRight (mkLine Character t raw)
        = renderLine (mkLine Character t raw))
  /\ (forall t raw, displaySource (mkLine Character t raw) = t).
Proof.
  repeat split.
  - intros y w raw Hw. unfold renderRight. simpl.
    rewrite strip_trailingCaret by assumption. reflexivity.
  - intros dl Hne. unfold renderRight, isType.
    rewrite bool_decide_eq_false_2 by assumption. reflexivity.
  - intros t raw Ht. unfold renderRight. simpl.
    rewrite strip_trailingCaret_none by assumption. reflexivity.
Qed.

Lemma right_column_hides_caret_witness :
  renderRight (mkLine Character (str "JANE ^") (str "JANE ^"))
  = renderLine (mkLine Character (str "JANE") (str "JANE ^")).
Proof.
  destruct right_column_hides_caret as (H & _).
  apply (H (str "JANE ") [] (str "JANE ^")). reflexivity.
Defined.

End RightColumn.

(** ** When the static preview pairs two speeches *)

Section Pairing.
Import Patterns Preview Partition.

Lemma collectFrom_maximal (rest : list FountainLine) (nxt : FountainLine) :
  rest !! length (collectFrom rest []) = Some nxt ->
  continuesBlock (type nxt) = false.
Proof.
  induction rest as [|l rest IH]; simpl; [discriminate|].
  destruct (continuesBlock (type l)) eqn:El.
  - rewrite collectFrom_acc. simpl. exact IH.
  - simpl. intros [= <-]. exact El.
Qed.

(** X4: [collectDialogueBlock] returns the empty block exactly when there
    is no cue at the index; at a cue it returns the cue and the longest
    run of dialogue, parenthetical and dialogue-blank lines after it, as
    they stand in the text: the line after the block, if any, is of
    another type. *)
Theorem collectDialogueBlock_longest_run (lines : list FountainLine)
  (i : nat) :
  (collectDialogueBlock lines i = [] <->
   forall l, lines !! i = Some l -> type l <> Character)
  /\ (forall l,
        lines !! i = Some l -> type l = Character ->
        exists rest,
          collectDialogueBlock lines i = l :: rest
          /\ Forall continues rest
          /\ drop i lines = (l :: rest) ++ drop (i + S (length rest)) lines
          /\ forall nxt,
               lines !! (i + S (length rest)) = Some nxt ->
               continuesBlock (type nxt) = false).
Proof.
  split.
  - unfold collectDialogueBlock. destruct (lines !! i) as [l|] eqn:Hl.
    + unfold isType. destruct (decide (type l = Character)) as [Hc|Hc].
      * rewrite bool_decide_eq_true_2 by assumption.
        rewrite collectFrom_acc. simpl. split; [discriminate|].
        intros H. exfalso. eapply H; eauto.
      * rewrite bool_decide_eq_false_2 by assumption.
        split; [|reflexivity]. intros _ l' [= <-]. assumption.
    + split; [|reflexivity]. intros _ l' H. discriminate H.
  - intros l Hl Hc.
    destruct (collectDialogueBlock_split lines i l Hl Hc) as [_ Ed].
    unfold collectDialogueBlock in *. rewrite Hl, Hc in *. simpl in *.
    rewrite collectFrom_acc in *. simpl in *.
    destruct (collectFrom_split (drop (S i) lines)) as [_ HF].
    exists (collectFrom (drop (S i) lines) []). repeat split; auto.
    intros nxt Hn. apply (collectFrom_maximal (drop (S i) lines)).
    rewrite lookup_drop. rewrite <- Hn. f_equal. lia.
Qed.

Lemma collectDialogueBlock_longest_run_witness :
  exists rest,
    collectDialogueBlock
      (parseFountain (Examples.textOf Examples.sixLines)) 1
    = mkLine Character (str "JOHN") (str "JOHN") :: rest
    /\ Forall continues rest.
Proof.
  destruct (collectDialogueBlock_longest_run
              (parseFountain (Examples.textOf Examples.sixLines)) 1)
    as [_ H].
  destruct (H (mkLine Character (str "JOHN") (str "JOHN")))
    as (rest & E & HF & _); [reflexivity | reflexivity |].
  exists rest. split; assumption.
Defined.

Lemma collectFrom_stop (x : FountainLine) (r : list FountainLine) :
  continuesBlock (type x) = false -> collectFrom (x :: r) [] = [].
Proof. intros H. simpl. rewrite H. reflexivity. Qed.






End Pairing.

(** ** The state of the classifier and the order of its lines *)

Section Sequencing.
Import Patterns Preview Grammar.

Ltac crunch_ifs :=
  repeat match goal with
         | |- context [if ?b then _ else _] => destruct b eqn:?
         end.

Lemma afterBlank_afterSpeech (prev : option LineType) :
  afterBlank prev = true -> afterSpeech prev = false.
Proof. destruct prev as [[]|]; simpl; auto; discriminate. Qed.

(** One line read: the variables keep telling what the last line was, and
    the line may follow the one before. *)
Lemma parseLine_keeps (prev : option LineType) (st : State) (rawLine : jstr) :
  atMostOne st ->
  lastLineWasEmpty st = afterBlank prev ->
  inDialogueContext st = afterSpeech prev ->
  atMostOne (parseLine st rawLine).1
  /\ lastLineWasEmpty (parseLine st rawLine).1
     = afterBlank (Some (type (parseLine st rawLine).2))
  /\ inDialogueContext (parseLine st rawLine).1
     = afterSpeech (Some (type (parseLine st rawLine).2))
  /\ mayFollow prev (parseLine st rawLine).2.
Proof.
  intros Hone He Hd. unfold parseLine, mayFollow.
  destruct (isEmptyStr (trim rawLine)).
  - destruct (Nat.ltb 0 (length rawLine)); simpl.
    + destruct (inDialogueContext st) eqn:Hin; simpl.
      * split; [exact Hone|]. split; [|split; [exact Hin|]].
        -- rewrite He. destruct (afterBlank prev) eqn:Hb; auto.
           apply afterBlank_afterSpeech in Hb. congruence.
        -- congruence.
      * repeat split; intros; discriminate.
    + repeat split; intros; discriminate.
  - destruct (sceneHeading (trim rawLine));
      [simpl; repeat split; intros; discriminate|].
    destruct (centered (trim rawLine));
      [simpl; repeat split; intros; discriminate|].
    destruct (sectionHeading (trim rawLine));
      [simpl; repeat split; intros; discriminate|].
    destruct (transition (trim rawLine));
      [simpl; repeat split; intros; discriminate|].
    rewrite He, Hd.
    destruct (afterBlank prev) eqn:Hb; destruct (afterSpeech prev) eqn:Hs;
      destruct (character rawLine);
      destruct (endsWith (trim rawLine) (str "^")) eqn:Hc;
      destruct (parenthetical (trim rawLine));
      simpl; repeat split; intros; try discriminate; auto.
Qed.

Lemma lastTypeFrom_cons (prev : option LineType) (l : FountainLine)
  (ls : list FountainLine) :
  lastTypeFrom prev (l :: ls) = lastTypeFrom (Some (type l)) ls.
Proof.
  unfold lastTypeFrom. rewrite last_cons. destruct (last ls); reflexivity.
Qed.

Lemma stateAfter_keeps (prev : option LineType) (st : State)
  (rawLines : list jstr) :
  atMostOne st ->
  lastLineWasEmpty st = afterBlank prev ->
  inDialogueContext st = afterSpeech prev ->
  atMostOne (stateAfter st rawLines)
  /\ lastLineWasEmpty (stateAfter st rawLines)
     = afterBlank (lastTypeFrom prev (parseLines st rawLines))
  /\ inDialogueContext (stateAfter st rawLines)
     = afterSpeech (lastTypeFrom prev (parseLines st rawLines)).
Proof.
  revert prev st. induction rawLines as [|rawLine rest IH];
    intros prev st Hone He Hd.
  - simpl. auto.
  - destruct (parseLine_keeps prev st rawLine Hone He Hd)
      as (H1 & H2 & H3 & _).
    cbn [stateAfter parseLines].
    destruct (parseLine st rawLine) as [st' l] eqn:E. simpl in *.
    rewrite lastTypeFrom_cons. apply IH; assumption.
Qed.

Lemma wellSequenced_from (prev : option LineType) (st : State)
  (rawLines : list jstr) :
  atMostOne st ->
  lastLineWasEmpty st = afterBlank prev ->
  inDialogueContext st = afterSpeech prev ->
  wellSequenced prev (parseLines st rawLines).
Proof.
  revert prev st. induction rawLines as [|rawLine rest IH];
    intros prev st Hone He Hd.
  - exact I.
  - destruct (parseLine_keeps prev st rawLine Hone He Hd)
      as (H1 & H2 & H3 & H4).
    cbn [parseLines].
    destruct (parseLine st rawLine) as [st' l] eqn:E. simpl in *.
    split; [exact H4|]. apply IH; assumption.
Qed.

Lemma initialState_atMostOne : atMostOne initialState.
Proof. split; intros H; discriminate H. Qed.

(** X6: whatever lines [parseFountain] has read, at most one of
    [lastLineWasCharacter], [lastLineWasParenthetical] and
    [lastLineWasDialogue] is set; [lastLineWasEmpty] is set exactly when
    nothing has been read yet or the last line was an [Empty] line; and
    one of the three is set exactly when the last line was a cue, a
    parenthetical, a dialogue or a dialogue blank. *)
Theorem classifier_state_invariant (rawLines : list jstr) :
  atMostOne (stateAfter initialState rawLines)
  /\ lastLineWasEmpty (stateAfter initialState rawLines)
     = afterBlank (lastType rawLines)
  /\ inDialogueContext (stateAfter initialState rawLines)
     = afterSpeech (lastType rawLines).
Proof.
  apply stateAfter_keeps; [apply initialState_atMostOne | reflexivity..].
Qed.

(** X7: in the lines [parseFountain] returns, a dialogue, a parenthetical
    or a dialogue blank always comes right after a cue, a parenthetical, a
    dialogue or a dialogue blank (never first, never after an empty line,
    an action, a heading, a transition or a centered line); and a cue comes
    first, or right after an empty line, or ends with the caret and comes
    right after a line of a speech. *)
Theorem classified_lines_well_sequenced (txt : jstr) :
  wellSequenced None (parseFountain txt).
Proof.
  apply wellSequenced_from;
    [apply initialState_atMostOne | reflexivity..].
Qed.

End Sequencing.

(** ** One record per line, and the fallback *)

Section Fallback.
Import Patterns Preview Grammar Examples.

(** One line read: its record keeps the line and its trimmed text, and is
    an [Action] exactly when no rule recognises the line. *)
Lemma parseLine_typed (prev : option LineType) (st : State)
  (rawLine : jstr) :
  lastLineWasEmpty st = afterBlank prev ->
  inDialogueContext st = afterSpeech prev ->
  rawText (parseLine st rawLine).2 = rawLine
  /\ text (parseLine st rawLine).2 = trim rawLine
  /\ (trim rawLine = []
      <-> type (parseLine st rawLine).2 = Empty
          \/ type (parseLine st rawLine).2 = DialogueBlank)
  /\ (type (parseLine st rawLine).2 = Action
      <-> unrecognised prev rawLine = true).
Proof.
  intros He Hd. unfold parseLine, unrecognised.
  destruct (trim rawLine) as [|c t] eqn:Et; cbn [isEmptyStr negb andb].
  - destruct (Nat.ltb 0 (length rawLine) && inDialogueContext st); simpl;
      intuition (try discriminate; auto).
  - rewrite He, Hd.
    destruct (sceneHeading (c :: t)); destruct (centered (c :: t));
      destruct (sectionHeading (c :: t)); destruct (transition (c :: t));
      destruct (afterBlank prev); destruct (afterSpeech prev);
      destruct (character rawLine);
      destruct (endsWith (c :: t) (str "^"));
      destruct (parenthetical (c :: t));
      simpl; intuition (try discriminate; auto).
Qed.

Lemma parseLines_typed (prev : option LineType) (st : State)
  (rawLines : list jstr) :
  atMostOne st ->
  lastLineWasEmpty st = afterBlank prev ->
  inDialogueContext st = afterSpeech prev ->
  forall k l,
    parseLines st rawLines !! k = Some l ->
    text l = trim (rawText l)
    /\ (trim (rawText l) = [] <-> type l = Empty \/ type l = DialogueBlank)
    /\ (type l = Action
        <-> unrecognised
              (match k with
               | O => prev
               | S k' => type <$> parseLines st rawLines !! k'
               end) (rawText l) = true).
Proof.
  revert prev st. induction rawLines as [|rawLine rest IH];
    intros prev st Hone He Hd k l Hl.
  - discriminate Hl.
  - destruct (parseLine_keeps prev st rawLine Hone He Hd)
      as (H1 & H2 & H3 & _).
    destruct (parseLine_typed prev st rawLine He Hd) as (T1 & T2 & T3 & T4).
    cbn [parseLines] in *.
    destruct (parseLine st rawLine) as [st' l0] eqn:E. simpl in *.
    destruct k as [|k].
    + injection Hl as <-. rewrite T1. auto.
    + destruct (IH (Some (type l0)) st' H1 H2 H3 k l Hl) as (I1 & I2 & I3).
      split; [exact I1|]. split; [exact I2|].
      destruct k as [|k]; exact I3.
Qed.

(** C4: [parseFountain] is a total function that returns one record per
    line of the text split on the line feed, in order (the record keeps the
    line as [rawText] and its trimmed text as [text]); the count is one
    more than the number of line feeds.  Every record has a type: [Empty]
    or [DialogueBlank] exactly when the line is white space only, and
    [Action] exactly when no rule recognises the line, given the type of
    the record before it. *)
Theorem parseFountain_one_record_per_line (txt : jstr) :
  length (parseFountain txt) = length (split_lines txt)
  /\ length (parseFountain txt)
     = S (length (List.filter (fun c => Ascii.eqb c "010") txt))
  /\ map rawText (parseFountain txt) = split_lines txt
  /\ join ["010"] (map rawText (parseFountain txt)) = txt
  /\ forall k l,
       parseFountain txt !! k = Some l ->
       text l = trim (rawText l)
       /\ (trim (rawText l) = []
           <-> type l = Empty \/ type l = DialogueBlank)
       /\ (type l = Action
           <-> unrecognised (previousType (parseFountain txt) k) (rawText l)
               = true).
Proof.
  unfold parseFountain. split; [|split; [|split; [|split]]].
  - apply parseLines_length.
  - rewrite parseLines_length. apply split_lines_length.
  - apply parseLines_rawText.
  - rewrite parseLines_rawText. apply join_split_lines.
  - intros k l Hl.
    destruct (parseLines_typed None initialState (split_lines txt)
                initialState_atMostOne eq_refl eq_refl k l Hl)
      as (H1 & H2 & H3).
    split; [exact H1|]. split; [exact H2|].
    destruct k as [|k]; exact H3.
Qed.

Lemma parseFountain_one_record_per_line_witness :
  let txt := textOf (map str ["INT. HOUSE"; "John walks in."]%string) in
  length (parseFountain txt) = 2
  /\ exists l, parseFountain txt !! 1 = Some l /\ type l = Action.
Proof.
  cbv zeta.
  destruct (parseFountain_one_record_per_line
              (textOf (map str ["INT. HOUSE"; "John walks in."]%string)))
    as (H1 & _ & _ & _ & H5).
  split; [rewrite H1; reflexivity|].
  eexists. split; [reflexivity|].
  apply (H5 1 _ eq_refl). reflexivity.
Defined.

End Fallback.

(** ** The three classifiers side by side *)

Section Classifiers.
Import Patterns Grammar.

Lemma liveStep_backup (st : State) (txt : jstr) :
  Live.liveStep st txt
  = ((Backup.parseLine st txt).1,
     liveClass (Preview.type (Backup.parseLine st txt).2))
  /\ Preview.rawText (Backup.parseLine st txt).2 = txt.
Proof.
  unfold Live.liveStep, Backup.parseLine.
  repeat match goal with
         | |- context [if ?b then _ else _] => destruct b
         end; split; reflexivity.
Qed.

Lemma liveLoop_backup (st : State) (pos : nat) (doc : list jstr) :
  Live.liveLoop st pos doc = decorate pos (Backup.parseLines st doc).
Proof.
  revert st pos. induction doc as [|txt doc IH]; intros st pos.
  - reflexivity.
  - cbn [Live.liveLoop Backup.parseLines].
    destruct (liveStep_backup st txt) as [E1 E2]. rewrite E1.
    destruct (Backup.parseLine st txt) as [st' l]. simpl in *.
    rewrite E2, IH. reflexivity.
Qed.

(** X8: the live preview of the editor styles a document exactly as the
    earlier classifier of the preview pane types its lines: no decoration
    for an [Empty] line, the class [fountain-dialogue] for a dialogue blank
    and the class [fountain-<type>] for any other line, at the start of
    the line. *)
Theorem live_preview_follows_backup_classifier (doc : list jstr) :
  Live.buildDecorations doc
  = decorate 0 (Backup.parseLines initialState doc).
Proof. apply liveLoop_backup. Qed.

Lemma backup_parseLine_plain (prev : option LineType) (st : State)
  (rawLine : jstr) :
  lastLineWasEmpty st = afterBlank prev ->
  Preview.isSectionHeading (Preview.type (Preview.parseLine st rawLine).2)
  = false ->
  (Preview.type (Preview.parseLine st rawLine).2 = Character ->
   afterBlank prev = true) ->
  Backup.parseLine st rawLine = Preview.parseLine st rawLine.
Proof.
  intros He. unfold Backup.parseLine, Preview.parseLine.
  destruct (isEmptyStr (trim rawLine)); [reflexivity|].
  destruct (sceneHeading (trim rawLine)); [reflexivity|].
  destruct (centered (trim rawLine)); [reflexivity|].
  destruct (sectionHeading (trim rawLine)); [simpl; discriminate|].
  destruct (transition (trim rawLine)); [reflexivity|].
  rewrite He.
  destruct (afterBlank prev); destruct (character rawLine);
    destruct (inDialogueContext st);
    destruct (endsWith (trim rawLine) (str "^"));
    destruct (parenthetical (trim rawLine));
    simpl; try reflexivity;
    intros _ H; specialize (H eq_refl); discriminate H.
Qed.

Lemma backup_parseLines_plain (prev : option LineType) (st : State)
  (rawLines : list jstr) :
  atMostOne st ->
  lastLineWasEmpty st = afterBlank prev ->
  inDialogueContext st = afterSpeech prev ->
  plainFrom prev (Preview.parseLines st rawLines) ->
  Backup.parseLines st rawLines = Preview.parseLines st rawLines.
Proof.
  revert prev st. induction rawLines as [|rawLine rest IH];
    intros prev st Hone He Hd Hp.
  - reflexivity.
  - destruct (parseLine_keeps prev st rawLine Hone He Hd)
      as (H1 & H2 & H3 & _).
    cbn [Backup.parseLines Preview.parseLines] in *.
    pose proof (backup_parseLine_plain prev st rawLine He) as Hb.
    destruct (Preview.parseLine st rawLine) as [st' l] eqn:E.
    simpl in *. destruct Hp as (Hs & Hc & Hp).
    rewrite (Hb Hs Hc). f_equal.
    apply (IH (Some (Preview.type l)) st'); assumption.
Qed.

Lemma not_terminator_not_lf (c : ascii) :
  negb (isLineTerminator c) = true -> Ascii.eqb c "010" = false.
Proof.
  intros H. destruct (Ascii.eqb c "010") eqn:E; [|reflexivity].
  apply Ascii.eqb_eq in E. subst c. discriminate H.
Qed.

Lemma split_lines_app_lf (p s : jstr) :
  forallb (fun c => negb (isLineTerminator c)) p = true ->
  split_lines (p ++ "010" :: s) = p :: split_lines s.
Proof.
  induction p as [|c p IH]; simpl; [reflexivity|].
  intros H. apply andb_true_iff in H as [Hc Hp].
  rewrite (not_terminator_not_lf c Hc), (IH Hp). reflexivity.
Qed.

Lemma split_lines_one (p : jstr) :
  forallb (fun c => negb (isLineTerminator c)) p = true ->
  split_lines p = [p].
Proof.
  induction p as [|c p IH]; simpl; [reflexivity|].
  intros H. apply andb_true_iff in H as [Hc Hp].
  rewrite (not_terminator_not_lf c Hc), (IH Hp). reflexivity.
Qed.

(** The lines of the editor, joined by line feeds, are the lines the
    preview pane splits the text into. *)
Lemma split_lines_join (doc : list jstr) :
  doc <> [] ->
  Forall (fun l => forallb (fun c => negb (isLineTerminator c)) l = true)
    doc ->
  split_lines (join ["010"] doc) = doc.
Proof.
  induction doc as [|p rest IH]; intros Hne H; [congruence|].
  inversion H as [|? ? Hp Hrest]; subst.
  destruct rest as [|q rest].
  - simpl. apply split_lines_one. exact Hp.
  - change (join ["010"] (p :: q :: rest))
      with (p ++ "010" :: join ["010"] (q :: rest)).
    rewrite (split_lines_app_lf _ _ Hp), IH; [reflexivity | discriminate|].
    exact Hrest.
Qed.

(** X9: take a document of the editor, one line at least, its lines
    holding neither a line feed nor a carriage return (the editor breaks
    lines at both), and the text of these lines joined by line feeds.  If
    the preview pane finds in it no section heading and no cue other than
    at the start or right after an empty line, then the preview pane reads
    the lines of the editor, the earlier classifier returns the same
    records as [parseFountain], and the live preview of the editor styles
    every line with the type the preview pane gives it. *)
Theorem classifiers_agree_on_plain_text (doc : list jstr) :
  doc <> [] ->
  Forall (fun l => forallb (fun c => negb (isLineTerminator c)) l = true)
    doc ->
  plainFrom None (Preview.parseFountain (join ["010"] doc)) ->
  map Preview.rawText (Preview.parseFountain (join ["010"] doc)) = doc
  /\ Backup.parseFountain (join ["010"] doc)
     = Preview.parseFountain (join ["010"] doc)
  /\ Live.buildDecorations doc
     = decorate 0 (Preview.parseFountain (join ["010"] doc)).
Proof.
  intros Hne Hdoc Hp.
  pose proof (split_lines_join doc Hne Hdoc) as Hs.
  assert (E : Backup.parseFountain (join ["010"] doc)
              = Preview.parseFountain (join ["010"] doc)).
  { apply (backup_parseLines_plain None);
      [apply initialState_atMostOne | reflexivity | reflexivity | exact Hp]. }
  split; [|split; [exact E|]].
  - unfold Preview.parseFountain. rewrite parseLines_rawText. exact Hs.
  - unfold Live.buildDecorations. rewrite liveLoop_backup.
    unfold Backup.parseFountain in E. rewrite Hs in E. rewrite E.
    reflexivity.
Qed.

Lemma classifiers_agree_on_plain_text_witness :
  Backup.parseFountain (join ["010"] Examples.sixLines)
  = Preview.parseFountain (join ["010"] Examples.sixLines)
  /\ Live.buildDecorations Examples.sixLines
     = decorate 0 (Preview.parseFountain (join ["010"] Examples.sixLines)).
Proof.
  apply (classifiers_agree_on_plain_text Examples.sixLines).
  - discriminate.
  - repeat constructor.
  - vm_compute. repeat split; try discriminate.
Defined.

(** The section heading and the cue with a caret right after a speech are
    what the earlier classifier does not know. *)
Lemma backup_differs_on_section_heading :
  map Preview.type (Preview.parseFountain (str "# Act one"))
  = [SectionHeading 1]
  /\ map Preview.type (Backup.parseFountain (str "# Act one")) = [Action].
Proof. split; reflexivity. Qed.

End Classifiers.

(** ** What the patterns accept *)

Section MorePatterns.
Import Patterns Preview LineShapes.

Lemma matches_Alts_Lit (ps : list jstr) (u : jstr) :
  matches (Alts (map Lit ps)) u <-> In u ps.
Proof.
  unfold Alts. induction ps as [|p ps IH]; simpl.
  - apply matches_Void_inv.
  - rewrite matches_Alt_inv, matches_Lit, IH. split; intros [H|H]; auto.
Qed.

Lemma matches_Star_anychar (s : jstr) : matches (Star anychar) s.
Proof.
  apply matches_Star_Chr. induction s; simpl; auto.
Qed.

Lemma test_prefix_spec (r : regex) (s : jstr) :
  test_prefix r s = true <-> exists a b, s = a ++ b /\ matches r a.
Proof.
  unfold test_prefix. rewrite matchb_spec, matches_Seq_inv. split.
  - intros (a & b & -> & Ha & _). eauto.
  - intros (a & b & -> & Ha). exists a, b.
    split; [reflexivity|]. split; [exact Ha | apply matches_Star_anychar].
Qed.

Lemma scene_prefix_spec (u : jstr) :
  test_prefix (Seq sceneHeading_prefixes (Star dot)) u = true <->
  exists p rest, In p scenePrefixes /\ u = p ++ rest.
Proof.
  rewrite test_prefix_spec. split.
  - intros (a & b & E & Ha).
    apply matches_Seq_inv in Ha as (p & d & -> & Hp & _).
    apply (matches_Alts_Lit scenePrefixes) in Hp.
    exists p, (d ++ b). rewrite E, <- app_assoc. auto.
  - intros (p & rest & Hp & E). exists p, rest. split; [exact E|].
    rewrite <- (app_nil_r p). constructor.
    + apply (matches_Alts_Lit scenePrefixes). exact Hp.
    + constructor.
Qed.

Lemma forced_scene_spec (s : jstr) :
  test_whole (Seq (Lit (str ".")) (Seq (notChr ".") (Star dot)))
    (map canonicalize s) = true <->
  exists c rest,
    s = "." :: c :: rest /\ c <> "."
    /\ forallb (fun x => negb (isLineTerminator x)) rest = true.
Proof.
  unfold test_whole. rewrite matchb_spec, matches_Seq_inv. split.
  - intros (a & b & E & Ha & Hb). apply matches_Lit in Ha as ->.
    apply matches_Seq_inv in Hb as (x & d & -> & Hx & Hd).
    apply matches_Chr_inv in Hx as (c' & -> & Hc').
    apply matches_Star_Chr in Hd. simpl in E.
    apply map_eq_cons in E as (a0 & t & -> & Ha0 & E).
    apply map_eq_cons in E as (c & rest & -> & <- & <-).
    apply (proj1 (canonicalize_fixed "." eq_refl eq_refl a0)) in Ha0 as ->.
    exists c, rest. repeat split.
    + intros ->. discriminate Hc'.
    + rewrite <- forallb_map_canonicalize. exact Hd.
  - intros (c & rest & -> & Hc & Hrest).
    exists (str "."), (canonicalize c :: map canonicalize rest).
    repeat split.
    + apply matches_Lit. reflexivity.
    + change (canonicalize c :: map canonicalize rest)
        with ([canonicalize c] ++ map canonicalize rest).
      constructor.
      * constructor. apply negb_true_iff, Ascii.eqb_neq. intros E.
        symmetry in E.
        apply (proj1 (canonicalize_fixed "." eq_refl eq_refl c)) in E.
        congruence.
      * apply matches_Star_Chr. rewrite forallb_map_canonicalize.
        exact Hrest.
Qed.

Lemma sceneHeading_spec (s : jstr) :
  sceneHeading s = true <-> SceneHeadingShape s.
Proof.
  unfold sceneHeading, SceneHeadingShape.
  rewrite orb_true_iff, scene_prefix_spec, forced_scene_spec. reflexivity.
Qed.

(** X10: a line is a scene heading exactly when its trimmed text starts,
    in any letter case, with [INT.], [EXT.], [EST.], [INT/EXT.], [I/E.] or
    [I/X.], or is a period followed by a character other than a period
    and by no line terminator; the state of the classifier plays no
    part. *)
Theorem scene_heading_exactly_when (st : State) (rawLine : jstr) :
  type (parseLine st rawLine).2 = SceneHeading
  <-> SceneHeadingShape (trim rawLine).
Proof.
  rewrite <- sceneHeading_spec. unfold parseLine.
  destruct (trim rawLine) as [|c t] eqn:Et.
  - simpl. split; [|discriminate].
    destruct (Nat.ltb 0 (length rawLine) && inDialogueContext st);
      discriminate.
  - cbn [isEmptyStr]. destruct (sceneHeading (c :: t)).
    + simpl. split; reflexivity.
    + split; [|discriminate].
      repeat match goal with
             | |- context [if ?b then _ else _] => destruct b
             end; simpl; discriminate.
Qed.

Lemma matches_UpTo_repeat (n : nat) (a : ascii) (u : jstr) :
  matches (UpTo n (Lit [a])) u <-> exists k, 1 <= k <= S n /\ u = repeat a k.
Proof.
  revert u. induction n as [|n IH]; intros u; simpl.
  - rewrite (matches_Lit [a]). split.
    + intros ->. exists 1. split; [lia | reflexivity].
    + intros (k & Hk & ->). replace k with 1 by lia. reflexivity.
  - rewrite matches_Seq_inv. split.
    + intros (x & v & -> & Hx & Hv). apply (matches_Lit [a]) in Hx as ->.
      apply matches_Alt_inv in Hv as [Hv|Hv].
      * apply IH in Hv as (k & Hk & ->). exists (S k).
        split; [lia | reflexivity].
      * apply matches_Eps_inv in Hv as ->. exists 1.
        split; [lia | reflexivity].
    + intros (k & Hk & ->). destruct k as [|k]; [lia|].
      exists [a], (repeat a k). split; [reflexivity|].
      split; [apply (matches_Lit [a]); reflexivity|].
      apply matches_Alt_inv. destruct k as [|k].
      * right. constructor.
      * left. apply IH. exists (S k). split; [lia | reflexivity].
Qed.

Lemma sectionHeading_spec (s : jstr) :
  sectionHeading s = true <-> exists k, SectionHeadingShape k s.
Proof.
  unfold sectionHeading, SectionHeadingShape. rewrite test_prefix_spec.
  split.
  - intros (a & b & -> & Ha).
    apply matches_Seq_inv in Ha as (u & x & -> & Hu & Hx).
    apply (matches_UpTo_repeat 5 "#") in Hu as (k & Hk & ->).
    apply matches_Chr_inv in Hx as (sp & -> & Hsp).
    exists k. split; [lia|]. exists sp, b. split; [exact Hsp|].
    rewrite <- app_assoc. reflexivity.
  - intros (k & Hk & sp & rest & Hsp & ->).
    exists (repeat "#" k ++ [sp]), rest. split.
    + rewrite <- app_assoc. reflexivity.
    + constructor.
      * apply (matches_UpTo_repeat 5 "#"). exists k. split; [lia | auto].
      * constructor. exact Hsp.
Qed.

Lemma leadingHashes_repeat (k : nat) (sp : ascii) (rest : jstr) :
  isSpace sp = true -> leadingHashes (repeat "#" k ++ sp :: rest) = k.
Proof.
  intros Hsp. induction k as [|k IH]; simpl.
  - destruct (Ascii.eqb sp "#") eqn:E; auto.
    apply Ascii.eqb_eq in E. subst. discriminate Hsp.
  - rewrite IH. reflexivity.
Qed.

Lemma hash_not_sceneHeading (t : jstr) : sceneHeading ("#" :: t) = false.
Proof.
  destruct (sceneHeading ("#" :: t)) eqn:E; auto.
  apply sceneHeading_spec in E as [(p & rest & Hp & E)|(c & rest & E & _)].
  - simpl in E. simpl in Hp.
    repeat (destruct Hp as [<-|Hp]; [discriminate E|]). destruct Hp.
  - discriminate E.
Qed.

Lemma hash_not_centered (t : jstr) : centered ("#" :: t) = false.
Proof.
  destruct (centered ("#" :: t)) eqn:E; auto.
  apply centered_shape in E as (x & E). discriminate E.
Qed.

(** X11: a line is a section heading exactly when its trimmed text is one
    to six [#]s followed by a white space character, whatever the state;
    its level is the number of [#]s, three at most, so that the type is
    one of [section-heading-1], [-2] and [-3].  Seven [#]s or more, or no
    white space after them, make no section heading. *)
Theorem section_heading_exactly_when (st : State) (rawLine : jstr)
  (level : nat) :
  type (parseLine st rawLine).2 = SectionHeading level
  <-> exists k, SectionHeadingShape k (trim rawLine)
                /\ level = Nat.min k 3 /\ 1 <= level <= 3.
Proof.
  unfold parseLine. destruct (sectionHeading (trim rawLine)) eqn:Eh.
  - pose proof Eh as Hs. apply sectionHeading_spec in Hs as (k & Hk).
    pose proof Hk as (Hr & sp & rest & Hsp & Et).
    assert (Hl : leadingHashes (trim rawLine) = k).
    { rewrite Et. apply leadingHashes_repeat. exact Hsp. }
    assert (Ec : trim rawLine = "#" :: (repeat "#" (k - 1) ++ sp :: rest)).
    { rewrite Et. destruct k as [|k]; [lia|]. simpl.
      rewrite Nat.sub_0_r. reflexivity. }
    assert (Hns : sceneHeading (trim rawLine) = false)
      by (rewrite Ec; apply hash_not_sceneHeading).
    assert (Hnc : centered (trim rawLine) = false)
      by (rewrite Ec; apply hash_not_centered).
    assert (Hne : isEmptyStr (trim rawLine) = false)
      by (rewrite Ec; reflexivity).
    rewrite Hne, Hns, Hnc, Hl. simpl. split.
    + intros [= <-]. exists k. split; [exact Hk|].
      split; [reflexivity | lia].
    + intros (k' & (Hr' & sp' & rest' & Hsp' & Et') & -> & _).
      assert (k' = k) as ->; [|reflexivity].
      rewrite <- Hl, Et'. symmetry. apply leadingHashes_repeat.
      exact Hsp'.
  - split.
    + repeat match goal with
             | |- context [if ?b then _ else _] => destruct b
             end; simpl; discriminate.
    + intros (k & Hk & _).
      assert (sectionHeading (trim rawLine) = true)
        by (apply sectionHeading_spec; eauto).
      congruence.
Qed.

Lemma section_heading_exactly_when_witness :
  type (parseLine initialState (str "#### Scene")).2 = SectionHeading 3.
Proof.
  apply (section_heading_exactly_when initialState (str "#### Scene") 3).
  exists 4. repeat split; try lia.
  exists " ", (str "Scene"). split; reflexivity.
Defined.

Lemma parenthetical_spec (s : jstr) :
  parenthetical s = true <-> ParentheticalShape s.
Proof.
  unfold parenthetical, test_whole, parenthetical_re, ParentheticalShape.
  rewrite matchb_spec, matches_Seq_inv. split.
  - intros (w1 & r & -> & Hw1 & H). apply matches_Star_Chr in Hw1.
    apply matches_Seq_inv in H as (o & r2 & -> & Ho & H).
    apply matches_Lit in Ho as ->.
    apply matches_Seq_inv in H as (inner & r3 & -> & Hi & H).
    apply matches_Plus_Chr in Hi as [Hne Hi].
    apply matches_Seq_inv in H as (c & w2 & -> & Hc & Hw2).
    apply matches_Lit in Hc as ->. apply matches_Star_Chr in Hw2.
    exists w1, inner, w2. repeat split; auto.
  - intros (w1 & inner & w2 & -> & Hw1 & Hw2 & Hne & Hi).
    exists w1, ("(" :: inner ++ ")" :: w2). repeat split.
    + apply matches_Star_Chr. exact Hw1.
    + change ("(" :: inner ++ ")" :: w2)
        with (str "(" ++ inner ++ str ")" ++ w2).
      constructor; [apply matches_Lit; reflexivity|].
      constructor; [apply matches_Plus_Chr; auto|].
      constructor; [apply matches_Lit; reflexivity|].
      apply matches_Star_Chr. exact Hw2.
Qed.

End MorePatterns.

(** ** What the dual-dialogue pass of the editor changes *)

Section EditorMarks.
Import Patterns Editor EditorSpec.

Lemma map_alter_setProcessed (i : nat) (ds : list LineDeco) :
  map setProcessed (alter setProcessed i ds) = map setProcessed ds.
Proof.
  revert i. induction ds as [|d ds IH]; intros [|i]; simpl; auto.
  f_equal. apply IH.
Qed.

Lemma map_markAll (g : list nat) (ds : list LineDeco) :
  map setProcessed (markAll g ds) = map setProcessed ds.
Proof.
  unfold markAll. revert ds. induction g as [|i g IH]; intros ds; simpl.
  - reflexivity.
  - rewrite IH. apply map_alter_setProcessed.
Qed.

Lemma flagAt_alter_mono (ds : list LineDeco) (i k : nat) :
  flagAt ds k = Some true -> flagAt (alter setProcessed i ds) k = Some true.
Proof.
  unfold flagAt. destruct (decide (i = k)) as [->|Hne].
  - rewrite list_lookup_alter_eq. destruct (ds !! k); simpl; auto.
  - rewrite list_lookup_alter_ne by assumption. auto.
Qed.

Lemma length_markAll (g : list nat) (ds : list LineDeco) :
  length (markAll g ds) = length ds.
Proof.
  unfold markAll. revert ds. induction g as [|i g IH]; intros ds; simpl.
  - reflexivity.
  - rewrite IH. apply length_alter.
Qed.

Lemma flagAt_alter_set (ds : list LineDeco) (k : nat) :
  k < length ds -> flagAt (alter setProcessed k ds) k = Some true.
Proof.
  intros Hk. unfold flagAt. rewrite list_lookup_alter_eq.
  destruct (lookup_lt_is_Some_2 ds k Hk) as [d ->]. reflexivity.
Qed.

Lemma flagAt_markAll_mono (g : list nat) (ds : list LineDeco) (k : nat) :
  flagAt ds k = Some true -> flagAt (markAll g ds) k = Some true.
Proof.
  unfold markAll. revert ds. induction g as [|i g IH]; intros ds H; simpl.
  - exact H.
  - apply IH, flagAt_alter_mono, H.
Qed.

Lemma flagAt_markAll_in (g : list nat) (ds : list LineDeco) (k : nat) :
  In k g -> k < length ds -> flagAt (markAll g ds) k = Some true.
Proof.
  unfold markAll. revert ds. induction g as [|i g IH]; intros ds Hin Hk.
  - destruct Hin.
  - simpl. destruct Hin as [->|Hin].
    + apply (flagAt_markAll_mono g), flagAt_alter_set, Hk.
    + apply IH; [exact Hin|]. rewrite length_alter. exact Hk.
Qed.

Lemma typeAt_lt (ds : list LineDeco) (k : nat) (t : LineType) :
  typeAt ds k = Some t -> k < length ds.
Proof.
  unfold typeAt. destruct (ds !! k) eqn:E; [|discriminate].
  intros _. eapply lookup_lt_Some. exact E.
Qed.

Lemma wellFormedBlock_in_range (ds : list LineDeco) (b : Block) (k : nat) :
  wellFormedBlock ds b -> inGroups k b -> k < length ds.
Proof.
  intros (first & nl & j & nr & HL & HR & Hlt & _ & _ & _ & _ & Hs) Hin.
  assert (Hk : first <= k <= j + nr).
  { destruct Hin as [Hin|Hin]; [rewrite HL in Hin | rewrite HR in Hin];
      apply in_seq in Hin; lia. }
  destruct (Hs k Hk) as (t & Ht & _). eapply typeAt_lt. exact Ht.
Qed.

Lemma dualStep_cases (ds : list LineDeco) (blocks : list Block) (j : nat) :
  dualStep (ds, blocks) j = (ds, blocks)
  \/ exists d b mid,
       ds !! j = Some d /\ isMarker d = true
       /\ pairAt ds j = Some (b, mid)
       /\ dualStep (ds, blocks) j
          = (markAll (rightBlock b)
               (markAll mid (markAll (leftBlock b) ds)),
             blocks ++ [b]).
Proof.
  unfold dualStep. destruct (ds !! j) as [d|] eqn:Hd; auto.
  destruct (isMarker d) eqn:Hm; auto.
  destruct (pairAt ds j) as [[b mid]|] eqn:Hp; auto.
  right. exists d, b, mid. auto.
Qed.

(** Through the second loop: the lines stay what they were, flags apart;
    a flag that is set stays set; the lines of the groups of the blocks
    are marked. *)
Lemma dualSteps_marks (js : list nat) (ds : list LineDeco)
  (blocks : list Block) :
  map setProcessed (fold_left dualStep js (ds, blocks)).1
  = map setProcessed ds
  /\ (forall k, flagAt ds k = Some true ->
        flagAt (fold_left dualStep js (ds, blocks)).1 k = Some true)
  /\ ((forall b k, In b blocks -> inGroups k b ->
         flagAt ds k = Some true) ->
      forall b k,
        In b (fold_left dualStep js (ds, blocks)).2 -> inGroups k b ->
        flagAt (fold_left dualStep js (ds, blocks)).1 k = Some true).
Proof.
  revert ds blocks. induction js as [|j js IH]; intros ds blocks.
  - simpl. auto.
  - cbn [fold_left].
    destruct (dualStep_cases ds blocks j)
      as [E|(d & b & mid & Hd & Hm & Hp & E)]; rewrite E; [apply IH|].
    apply isMarker_true in Hm as (Hc & He & _).
    pose proof (pairAt_wellFormed _ _ _ _ _ Hd Hc He Hp) as Hw.
    set (ds' := markAll (rightBlock b)
                  (markAll mid (markAll (leftBlock b) ds))).
    destruct (IH ds' (blocks ++ [b])) as (H1 & H2 & H3).
    assert (Hmono : forall k, flagAt ds k = Some true ->
                              flagAt ds' k = Some true).
    { intros k Hk. unfold ds'. auto using flagAt_markAll_mono. }
    split; [|split].
    + rewrite H1. unfold ds'. rewrite !map_markAll. reflexivity.
    + intros k Hk. apply H2, Hmono, Hk.
    + intros Hall. apply H3. intros b' k Hb' Hin.
      apply in_app_or in Hb' as [Hb'|[<-|[]]].
      * apply Hmono. eapply Hall; eauto.
      * pose proof (wellFormedBlock_in_range _ _ _ Hw Hin) as Hk.
        unfold ds'. destruct Hin as [Hin|Hin].
        -- apply flagAt_markAll_mono, flagAt_markAll_mono.
           apply flagAt_markAll_in; assumption.
        -- apply flagAt_markAll_in; [assumption|].
           rewrite !length_markAll. exact Hk.
Qed.

(** X12: the dual-dialogue pass of the editor changes nothing of a line
    but its [isDualProcessed] flag, which it sets and never clears; the
    number, the positions, the type and the text of every line are what
    the classifier wrote. *)
Theorem dual_pass_only_sets_flags (decos : list LineDeco) :
  map setProcessed (dualPass decos).1 = map setProcessed decos
  /\ length (dualPass decos).1 = length decos
  /\ forall k, flagAt decos k = Some true ->
               flagAt (dualPass decos).1 k = Some true.
Proof.
  destruct (dualSteps_marks (seq 0 (length decos)) decos []) as (H1 & H2 & _).
  split; [exact H1|]. split; [|exact H2].
  apply (f_equal (@length _)) in H1. rewrite !length_map in H1. exact H1.
Qed.

Lemma dual_pass_only_sets_flags_witness :
  let decos := [mkDeco 1 0 4 Character (str "JOHN") true;
                mkDeco 2 5 8 Dialogue (str "Hi!") false] in
  flagAt decos 0 = Some true
  /\ flagAt (dualPass decos).1 0 = Some true.
Proof.
  cbv zeta. split; [reflexivity|].
  apply (proj2 (proj2 (dual_pass_only_sets_flags
                         [mkDeco 1 0 4 Character (str "JOHN") true;
                          mkDeco 2 5 8 Dialogue (str "Hi!") false])) 0).
  reflexivity.
Defined.

(** X13: every line of the left and of the right group of a block the
    editor builds is marked, and so gets no line decoration of its own:
    no line is drawn both in a widget and as a line of the editor. *)
Theorem block_lines_get_no_line_decoration (decos : list LineDeco)
  (b : Block) (k : nat) :
  In b (dualPass decos).2 -> inGroups k b ->
  exists d,
    (dualPass decos).1 !! k = Some d
    /\ isDualProcessed d = true /\ decorated d = false.
Proof.
  intros Hb Hin.
  destruct (dualSteps_marks (seq 0 (length decos)) decos []) as (_ & _ & H3).
  assert (Hf : flagAt (dualPass decos).1 k = Some true).
  { eapply H3; eauto. intros b' k' []. }
  unfold flagAt in Hf. destruct ((dualPass decos).1 !! k) as [d|];
    [|discriminate].
  simpl in Hf. injection Hf as Hf. exists d. unfold decorated.
  rewrite Hf. auto.
Qed.

Lemma block_lines_get_no_line_decoration_witness :
  exists d,
    (dualPass (classify Examples.sixLines)).1 !! 2 = Some d
    /\ isDualProcessed d = true /\ decorated d = false.
Proof.
  apply (block_lines_get_no_line_decoration (classify Examples.sixLines)
           (mkBlock 1 21 [1; 2] [4; 5]) 2).
  - left. reflexivity.
  - left. right. left. reflexivity.
Defined.

End EditorMarks.

(** ** Where a block of the editor ends *)

Section BlockEnds.
Import Patterns Editor EditorSpec.

Lemma gatherRight_last (rest : list LineDeco) (k : nat) (acc : list nat) :
  exists n,
    gatherRight rest k acc = acc ++ seq k n
    /\ (n = 0 \/ exists d, rest !! (n - 1) = Some d
                          /\ isSpeech (type d) = true)
    /\ (forall d r, rest = d :: r -> isSpeech (type d) = true -> 1 <= n).
Proof.
  revert k acc. induction rest as [|d rest IH]; intros k acc.
  - exists 0. simpl. rewrite app_nil_r. repeat split; auto. discriminate.
  - simpl. destruct (isSpeech (type d)) eqn:Es.
    + destruct (IH (S k) (acc ++ [k])) as (n & E & Hl & _).
      exists (S n). rewrite E, <- app_assoc. simpl.
      split; [reflexivity|]. split; [|intros; lia].
      right. rewrite Nat.sub_0_r. destruct Hl as [->|(d' & Hd' & Hs)].
      * exists d. auto.
      * destruct n as [|n]; [exists d; auto|].
        exists d'. simpl in *. rewrite Nat.sub_0_r in Hd'. auto.
    + destruct (isType (type d) Empty); simpl;
        [|exists 0; simpl; rewrite app_nil_r; repeat split; auto;
          intros d0 r [= <- _] H; congruence].
      destruct rest as [|d1 rest1] eqn:Er;
        [exists 0; simpl; rewrite app_nil_r; repeat split; auto;
          intros d0 r [= <- _] H; congruence|].
      destruct (isSpeech (type d1)) eqn:Es1;
        [|exists 0; simpl; rewrite app_nil_r; repeat split; auto;
          intros d0 r [= <- _] H; congruence].
      destruct (IH (S k) (acc ++ [k])) as (n & E & Hl & Hn).
      specialize (Hn d1 rest1 eq_refl Es1).
      exists (S n). rewrite E, <- app_assoc. simpl.
      split; [reflexivity|]. split; [|intros d0 r [= <- _] H; congruence].
      right. rewrite Nat.sub_0_r. destruct Hl as [->|(d' & Hd' & Hs)]; [lia|].
      destruct n as [|n]; [lia|].
      exists d'. simpl in *. rewrite Nat.sub_0_r in Hd'. auto.
Qed.

(** A property of blocks that rests on the types and the texts of the
    lines holds of every block of the pass once it holds where the block
    is paired. *)
Lemma dualPass_blocks (P : list LineDeco -> Block -> Prop) :
  (forall ds ds' b,
     (forall k, typeAt ds k = typeAt ds' k) ->
     (forall k, textAt ds k = textAt ds' k) -> P ds b -> P ds' b) ->
  (forall ds j d b mid,
     ds !! j = Some d -> isMarker d = true ->
     pairAt ds j = Some (b, mid) -> P ds b) ->
  forall decos, Forall (P decos) (dualPass decos).2.
Proof.
  intros Hext Hpair decos. unfold dualPass.
  assert (H : forall js ds blocks,
             (forall k, typeAt ds k = typeAt decos k) ->
             (forall k, textAt ds k = textAt decos k) ->
             Forall (P decos) blocks ->
             Forall (P decos) (fold_left dualStep js (ds, blocks)).2).
  { induction js as [|j js IH]; intros ds blocks Hty Htx Hb; [exact Hb|].
    cbn [fold_left].
    destruct (dualStep_cases ds blocks j)
      as [E|(d & b & mid & Hd & Hm & Hp & E)]; rewrite E;
      [apply IH; assumption|].
    apply IH.
    - intros k. rewrite !typeAt_markAll. apply Hty.
    - intros k. rewrite !textAt_markAll. apply Htx.
    - apply Forall_app. split; [exact Hb|]. constructor; [|constructor].
      eapply Hext; [exact Hty | exact Htx |]. eapply Hpair; eauto. }
  apply H; auto.
Qed.

(** X14: a block of the editor ends on its marker or on a dialogue or a
    parenthetical, never on an empty line: an empty line is taken into
    the right group only when the next line is a dialogue or a
    parenthetical, which is then taken too. *)
Theorem block_ends_on_a_speech_line (decos : list LineDeco) (b : Block) :
  In b (dualPass decos).2 ->
  exists last t,
    List.last (rightBlock b) 0 = last
    /\ typeAt decos last = Some t
    /\ (t = Character \/ t = Dialogue \/ t = Parenthetical).
Proof.
  intros Hb.
  assert (H : Forall
    (fun b => exists t, typeAt decos (List.last (rightBlock b) 0) = Some t
              /\ (t = Character \/ t = Dialogue \/ t = Parenthetical))
    (dualPass decos).2).
  { apply (dualPass_blocks
      (fun ds b => exists t,
         typeAt ds (List.last (rightBlock b) 0) = Some t
         /\ (t = Character \/ t = Dialogue \/ t = Parenthetical))).
    - intros ds ds' b0 Hty _ (t & Ht & Hc). rewrite <- Hty. eauto.
    - clear. intros ds j d b mid Hd Hm Hp.
      apply isMarker_true in Hm as (Hc & _ & _).
      unfold pairAt in Hp.
      destruct (gatherRight_last (drop (S j) ds) (S j) [j])
        as (n & ER & Hl & Hn).
      rewrite ER in Hp.
      destruct (gatherMiddle ds j []) as [m mids].
      destruct (gatherLeft ds m []) as [|first rest]; [discriminate|].
      destruct (ds !! first) as [d0|]; [|discriminate].
      destruct (ds !! List.last _ _) as [dl|]; [|discriminate].
      destruct (isType (type d0) Character); [|discriminate].
      injection Hp as <- _. cbn [rightBlock].
      change (j :: seq (S j) n) with (seq j (S n)). rewrite last_seq.
      destruct Hl as [->|(d' & Hd' & Hs)].
      + exists Character. rewrite Nat.add_0_r. unfold typeAt. rewrite Hd.
        simpl. split; [congruence | auto].
      + assert (0 < n).
        { destruct n as [|n]; [|lia]. simpl in Hd'.
          destruct (drop (S j) ds) as [|d1 r1]; [discriminate|].
          simpl in Hd'. injection Hd' as ->.
          apply (Hn d' r1 eq_refl Hs). }
        rewrite lookup_drop in Hd'.
        replace (S j + (n - 1)) with (j + n) in Hd' by lia.
        exists (type d'). unfold typeAt. rewrite Hd'. split; [reflexivity|].
        unfold isSpeech, isType in Hs. apply orb_true_iff in Hs as [Hs|Hs];
        apply bool_decide_eq_true in Hs; auto. }
  rewrite List.Forall_forall in H.
  destruct (H b Hb) as (t & Ht & Hc). eauto.
Qed.

Lemma block_ends_on_a_speech_line_witness :
  exists last t,
    List.last [4; 5] 0 = last
    /\ typeAt (classify Examples.sceneAfter) last = Some t
    /\ (t = Character \/ t = Dialogue \/ t = Parenthetical).
Proof.
  apply (block_ends_on_a_speech_line (classify Examples.sceneAfter)
           (mkBlock 1 21 [1; 2] [4; 5])).
  left. reflexivity.
Defined.

End BlockEnds.

(** ** The order of the decorations of the editor *)

Section SortedDecorations.
Import Editor.

Lemma insertByFrom_perm (d : Decoration) (ds : list Decoration) :
  Permutation (insertByFrom d ds) (d :: ds).
Proof.
  induction ds as [|e ds IH]; simpl.
  - reflexivity.
  - destruct (Nat.ltb (decoFrom d) (decoFrom e)).
    + reflexivity.
    + rewrite IH. apply perm_swap.
Qed.

Lemma insertByFrom_sorted (d : Decoration) (ds : list Decoration) :
  StronglySorted fromLe ds -> StronglySorted fromLe (insertByFrom d ds).
Proof.
  induction 1 as [|e ds Hs IH He]; simpl.
  - repeat constructor.
  - destruct (Nat.ltb (decoFrom d) (decoFrom e)) eqn:E.
    + apply Nat.ltb_lt in E. constructor.
      * constructor; assumption.
      * constructor; [unfold fromLe; lia|].
        eapply List.Forall_impl; [|exact He]. unfold fromLe. intros; lia.
    + apply Nat.ltb_ge in E. constructor; [exact IH|].
      eapply Permutation_Forall; [symmetry; apply insertByFrom_perm|].
      constructor; [exact E | exact He].
Qed.

Lemma sortByFrom_acc (ds acc : list Decoration) :
  StronglySorted fromLe acc ->
  Permutation (fold_left (fun acc d => insertByFrom d acc) ds acc)
    (acc ++ ds)
  /\ StronglySorted fromLe
       (fold_left (fun acc d => insertByFrom d acc) ds acc).
Proof.
  revert acc. induction ds as [|d ds IH]; intros acc Hacc; simpl.
  - rewrite app_nil_r. split; [reflexivity | exact Hacc].
  - destruct (IH (insertByFrom d acc) (insertByFrom_sorted d acc Hacc))
      as [Hp Hs].
    split; [|exact Hs].
    rewrite Hp, insertByFrom_perm. apply Permutation_middle.
Qed.

Lemma insertByFrom_last (d : Decoration) (ds : list Decoration) :
  Forall (fun e => fromLe e d) ds -> insertByFrom d ds = ds ++ [d].
Proof.
  induction 1 as [|e ds He Hds IH]; simpl.
  - reflexivity.
  - unfold fromLe in He. apply Nat.ltb_ge in He. rewrite He, IH. reflexivity.
Qed.

Lemma sortByFrom_sorted_acc (ds acc : list Decoration) :
  StronglySorted fromLe (acc ++ ds) ->
  fold_left (fun acc d => insertByFrom d acc) ds acc = acc ++ ds.
Proof.
  revert acc. induction ds as [|d ds IH]; intros acc Hs; simpl.
  - rewrite app_nil_r. reflexivity.
  - assert (Hd : Forall (fun e => fromLe e d) acc).
    { clear IH. induction acc as [|a acc IHa]; [constructor|].
      simpl in Hs. inversion Hs as [|? ? Hs' Ha]; subst.
      constructor; [|apply IHa; exact Hs'].
      rewrite List.Forall_forall in Ha. apply Ha.
      apply in_or_app. right. left. reflexivity. }
    rewrite (insertByFrom_last d acc Hd).
    rewrite IH; rewrite <- app_assoc; [reflexivity | exact Hs].
Qed.

(** X15: the sort of the decorations ([builder.sort((a, b) => a.from -
    b.from)]) gives back the same decorations, none lost and none added,
    in non-decreasing order of their start positions; so the decorations
    the editor extension returns are in that order. *)
Theorem sortByFrom_sorts (ds : list Decoration) (doc : list jstr) :
  Permutation (sortByFrom ds) ds
  /\ StronglySorted fromLe (sortByFrom ds)
  /\ StronglySorted fromLe (Editor.buildDecorations doc).
Proof.
  destruct (sortByFrom_acc ds [] (SSorted_nil _)) as [Hp Hs].
  split; [exact Hp|]. split; [exact Hs|].
  unfold Editor.buildDecorations.
  destruct (dualPass (classify doc)) as [decos blocks].
  apply (sortByFrom_acc _ [] (SSorted_nil _)).
Qed.

(** X16: the sort is stable to the point of being the identity on a list
    that is already in order: decorations with the same start position
    keep the order in which they were added. *)
Theorem sortByFrom_keeps_sorted (ds : list Decoration) :
  StronglySorted fromLe ds -> sortByFrom ds = ds.
Proof.
  intros Hs. apply (sortByFrom_sorted_acc ds [] Hs).
Qed.

Lemma sortByFrom_keeps_sorted_witness :
  let ds := [Line 0 (str "fountain-action");
             Replace 7 20 (mkWidget [] []);
             Line 7 (str "fountain-character")] in
  StronglySorted fromLe ds /\ sortByFrom ds = ds.
Proof.
  cbv zeta.
  assert (H : StronglySorted fromLe
                [Line 0 (str "fountain-action");
                 Replace 7 20 (mkWidget [] []);
                 Line 7 (str "fountain-character")]).
  { repeat constructor; unfold fromLe; simpl; lia. }
  split; [exact H|].
  apply (sortByFrom_keeps_sorted _ H).
Defined.

End SortedDecorations.

(** ** Equality of dual dialogue widgets *)

Section WidgetEquality.
Import Editor.

Lemma sameTexts_spec (mine other : list (LineType * jstr)) (i : nat) :
  length mine + i = length other ->
  Widget.sameTexts mine other i
  = Some (bool_decide (map snd mine = map snd (drop i other))).
Proof.
  revert i. induction mine as [|l rest IH]; intros i Hlen; simpl.
  - rewrite drop_ge by (simpl in Hlen; lia). reflexivity.
  - simpl in Hlen.
    destruct (other !! i) as [o|] eqn:Eo.
    + rewrite (drop_S _ _ _ Eo). simpl.
      destruct (bool_decide (l.2 = o.2)) eqn:Et.
      * apply bool_decide_eq_true_1 in Et.
        rewrite (IH (S i)) by lia. f_equal.
        apply bool_decide_ext. rewrite Et. split.
        -- intros ->. reflexivity.
        -- intros H. injection H as H. exact H.
      * apply bool_decide_eq_false_1 in Et.
        rewrite bool_decide_eq_false_2; [reflexivity|].
        intros H. injection H as H _. contradiction.
    + apply lookup_ge_None in Eo. lia.
Qed.

(** X17: the comparison of two widgets never reads a line that is not
    there, and it answers [true] exactly when the two widgets show the
    same texts, line by line, in the left column and in the right one;
    the types of the lines play no part. *)
Theorem widget_eq_compares_texts (this other : DualDialogueWidget) :
  Widget.eq this other
  = Some (bool_decide
            (map snd (leftLines this) = map snd (leftLines other)
             /\ map snd (rightLines this) = map snd (rightLines other))).
Proof.
  unfold Widget.eq.
  destruct (Nat.eqb (length (leftLines this)) (length (leftLines other)))
    eqn:El; simpl.
  - apply Nat.eqb_eq in El.
    destruct (Nat.eqb (length (rightLines this)) (length (rightLines other)))
      eqn:Er; simpl.
    + apply Nat.eqb_eq in Er.
      rewrite !sameTexts_spec by lia. rewrite !drop_0.
      destruct (bool_decide (map snd (leftLines this)
                             = map snd (leftLines other))) eqn:E1.
      * apply bool_decide_eq_true_1 in E1. f_equal.
        apply bool_decide_ext. tauto.
      * apply bool_decide_eq_false_1 in E1.
        rewrite bool_decide_eq_false_2; [reflexivity | tauto].
    + apply Nat.eqb_neq in Er.
      rewrite bool_decide_eq_false_2; [reflexivity|].
      intros [_ H]. apply Er.
      rewrite <- (length_map snd (rightLines this)), H, length_map.
      reflexivity.
  - apply Nat.eqb_neq in El.
    rewrite bool_decide_eq_false_2; [reflexivity|].
    intros [H _]. apply El.
    rewrite <- (length_map snd (leftLines this)), H, length_map.
    reflexivity.
Qed.

End WidgetEquality.

(** ** Parentheticals *)

Section Parentheticals.
Import Patterns Preview Shapes LineShapes.

Lemma paren_not_sceneHeading (t : jstr) : sceneHeading ("(" :: t) = false.
Proof.
  destruct (sceneHeading ("(" :: t)) eqn:E; auto.
  apply sceneHeading_spec in E as [(p & rest & Hp & E)|(c & rest & E & _)].
  - simpl in E. simpl in Hp.
    repeat (destruct Hp as [<-|Hp]; [discriminate E|]). destruct Hp.
  - discriminate E.
Qed.

Lemma paren_not_centered (t : jstr) : centered ("(" :: t) = false.
Proof.
  destruct (centered ("(" :: t)) eqn:E; auto.
  apply centered_shape in E as (x & E). discriminate E.
Qed.

Lemma paren_not_sectionHeading (t : jstr) :
  sectionHeading ("(" :: t) = false.
Proof.
  destruct (sectionHeading ("(" :: t)) eqn:E; auto.
  apply sectionHeading_head in E as (x & E). discriminate E.
Qed.

Lemma paren_not_transition (t : jstr) : transition ("(" :: t) = false.
Proof.
  destruct (transition ("(" :: t)) eqn:E; auto.
  apply transition_spec in E. unfold TransitionShape in E. simpl in E.
  destruct E as [(p & Hne & Hp & E)|[E|[E|[E|(m & c & E & _)]]]];
    try discriminate E.
  destruct p as [|a p]; [congruence|].
  simpl in E. injection E as <- _. simpl in Hp. discriminate Hp.
Qed.

Lemma trim_last (s a : jstr) (c : ascii) :
  trim s = a ++ [c] -> isSpace c = false.
Proof.
  unfold trim. intros E.
  destruct (trimEnd_last (trimStart s)) as [H|(a' & c' & H & Hc)].
  - rewrite H in E. destruct a; discriminate E.
  - rewrite H in E. apply app_inj_tail in E as [_ <-]. exact Hc.
Qed.

(** The shape of a parenthetical, for a trimmed text: no white space is
    left around the parentheses. *)
Lemma parenthetical_trimmed (rawLine : jstr) :
  parenthetical (trim rawLine) = true
  <-> exists inner,
        trim rawLine = "(" :: inner ++ [")"]
        /\ inner <> []
        /\ forallb (fun c => negb (Ascii.eqb ")" c)) inner = true.
Proof.
  rewrite parenthetical_spec. unfold ParentheticalShape. split.
  - intros (w1 & inner & w2 & E & Hw1 & Hw2 & Hne & Hi).
    destruct w1 as [|a w1].
    + destruct (rev w2) as [|b r] eqn:Er.
      * apply (f_equal (@rev ascii)) in Er. rewrite rev_involutive in Er.
        subst w2. exists inner. auto.
      * apply (f_equal (@rev ascii)) in Er. rewrite rev_involutive in Er.
        simpl in Er. subst w2. exfalso.
        assert (Hb : isSpace b = true).
        { rewrite forallb_app in Hw2. apply andb_true_iff in Hw2 as [_ Hb].
          simpl in Hb. rewrite andb_true_r in Hb. exact Hb. }
        assert (Hb' : isSpace b = false).
        { apply (trim_last rawLine ("(" :: inner ++ ")" :: rev r) b).
          rewrite E. simpl. rewrite <- app_assoc. reflexivity. }
        congruence.
    + exfalso. simpl in E, Hw1. apply andb_true_iff in Hw1 as [Ha _].
      apply trim_head in E as (t' & E).
      apply trimStart_head in E. congruence.
  - intros (inner & E & Hne & Hi). exists [], inner, []. auto.
Qed.

(** X18: past the first line of a speech (the line before is not empty),
    a line is a parenthetical exactly when the line before it belongs to a
    speech and its trimmed text is an opening parenthesis, one or more
    characters none of which is a closing parenthesis, and a closing
    parenthesis; no other rule takes such a line first. *)
Theorem parenthetical_exactly_when (st : State) (rawLine : jstr) :
  lastLineWasEmpty st = false ->
  type (parseLine st rawLine).2 = Parenthetical
  <-> inDialogueContext st = true
      /\ exists inner,
           trim rawLine = "(" :: inner ++ [")"]
           /\ inner <> []
           /\ forallb (fun c => negb (Ascii.eqb ")" c)) inner = true.
Proof.
  intros Hl. rewrite <- parenthetical_trimmed. unfold parseLine. split.
  - destruct (inDialogueContext st && parenthetical (trim rawLine)) eqn:Ep.
    + apply andb_true_iff in Ep. intros _. exact Ep.
    + repeat match goal with
             | |- context [if ?b then _ else _] => destruct b
             end; simpl; discriminate.
  - intros [Hd Hp]. pose proof Hp as Hs.
    apply parenthetical_trimmed in Hs as (inner & E & _).
    assert (He : endsWith (trim rawLine) (str "^") = false).
    { rewrite E. change ("(" :: inner ++ [")"]) with (("(" :: inner) ++ [")"]).
      apply endsWith_snoc. }
    assert (Hne : isEmptyStr (trim rawLine) = false)
      by (rewrite E; reflexivity).
    assert (Hns : sceneHeading (trim rawLine) = false)
      by (rewrite E; apply paren_not_sceneHeading).
    assert (Hnc : centered (trim rawLine) = false)
      by (rewrite E; apply paren_not_centered).
    assert (Hnh : sectionHeading (trim rawLine) = false)
      by (rewrite E; apply paren_not_sectionHeading).
    assert (Hnt : transition (trim rawLine) = false)
      by (rewrite E; apply paren_not_transition).
    rewrite He, Hl, Hd, Hp, Hne, Hns, Hnc, Hnh, Hnt.
    simpl. rewrite andb_false_r. reflexivity.
Qed.

Lemma parenthetical_exactly_when_witness :
  type (parseLine (mkState true false false false) (str "  (beat) ")).2
  = Parenthetical.
Proof.
  apply (parenthetical_exactly_when (mkState true false false false)
           (str "  (beat) ") eq_refl).
  split; [reflexivity|].
  exists (str "beat"). repeat split. discriminate.
Defined.

End Parentheticals.

(** ** The classifier of the editor and the earlier classifier *)

Section EditorClassifier.
Import Patterns.

Lemma classifyDoc_backup (doc : list jstr) (st : State) (i pos : nat) :
  Forall (fun l => Preview.type l <> DialogueBlank)
    (Backup.parseLines st doc) ->
  map (fun d => (Editor.type d, Editor.text d))
    (Editor.classifyDoc st i pos doc)
  = map (fun l => (Preview.type l, Preview.text l))
      (Backup.parseLines st doc).
Proof.
  revert st i pos. induction doc as [|txt rest IH]; intros st i pos H.
  - reflexivity.
  - simpl in *. unfold Editor.classifyLine, Backup.parseLine in *.
    destruct (isEmptyStr (trim txt)) eqn:Ee.
    + destruct (Nat.ltb 0 (length txt) && inDialogueContext st).
      * inversion H as [|? ? Hd _]; subst. simpl in Hd. congruence.
      * inversion H as [|? ? _ Hr]; subst. simpl.
        destruct (trim txt); [|discriminate Ee].
        f_equal. apply IH. exact Hr.
    + repeat match goal with
             | |- context [if ?b then _ else _] => destruct b
             | H : context [if ?b then _ else _] |- _ => destruct b
             end;
        inversion H as [|? ? _ Hr]; subst; simpl; f_equal; apply IH;
        exact Hr.
Qed.

(** X19: the classifier of the editor with the widget gives every line the
    type and the text the earlier classifier of the preview gives it, as
    long as that one finds no dialogue blank: the two differ only from a
    white-space-only line inside a speech on, which the editor takes for
    an empty line. *)
Theorem editor_classifier_follows_backup (doc : list jstr) :
  Forall (fun l => Preview.type l <> DialogueBlank)
    (Backup.parseLines initialState doc) ->
  map (fun d => (Editor.type d, Editor.text d)) (Editor.classify doc)
  = map (fun l => (Preview.type l, Preview.text l))
      (Backup.parseLines initialState doc).
Proof. apply classifyDoc_backup. Qed.

Lemma editor_classifier_follows_backup_witness :
  let doc := [str "INT. HOUSE"; []; str "JOHN"; str "(beat)"; str "Hi!"] in
  map (fun d => (Editor.type d, Editor.text d)) (Editor.classify doc)
  = map (fun l => (Preview.type l, Preview.text l))
      (Backup.parseLines initialState doc).
Proof.
  cbv zeta. apply editor_classifier_follows_backup.
  vm_compute. repeat constructor; discriminate.
Defined.

(** Where the two part: a line of white space inside a speech. *)
Lemma editor_ends_speech_at_blank :
  let doc := [str "JOHN"; str "Hi!"; str " "; str "Bye!"] in
  map Editor.type (Editor.classify doc)
  = [Character; Dialogue; Empty; Action]
  /\ map Preview.type (Backup.parseLines initialState doc)
     = [Character; Dialogue; DialogueBlank; Dialogue].
Proof. split; vm_compute; reflexivity. Qed.

End EditorClassifier.
